(** * DadGPT: the conversation store of [src/app/page.tsx]

    A shallow embedding of the chat page's state logic (the second, themed
    variant of the page: messages carry [status] and [version], replies are
    resolved by timers) and the properties of its handlers.

    - JavaScript strings are sequences of UTF-16 code units: [list N].
    - A JavaScript number that holds an integer (the [version] counter, the
      millisecond timestamps [createdAt] and [updatedAt]) is carried as
      that integer, in [Z].  The page computes with one of them only,
      [version + 1], and that sum is the double's ([add_one]): exact up to
      2^53, rounded beyond.
    - The React component state is one record, [Home]; every handler is a
      function [Home -> Home].  What a handler reads from the environment
      ([createId()], [Date.now()], [Math.random()]) is an argument.
    - [timersRef] (a plain object used as a [Record<string, Timeout>]) is
      a [gmap], written through [recordTimer]: a plain object records
      nothing under ["__proto__"].  The browser's table of armed timeouts
      is the list [pending].
    - The handlers are total functions of the state; which of them the
      view lets the user call, and when, is a separate matter ([offered]),
      and no statement about everything the page does depends on it. *)

From Stdlib Require Import ZArith NArith List Bool Lia String Ascii DecimalString.
From stdpp Require Import base decidable option list countable gmap.
Import ListNotations.

Local Open Scope N_scope.

(* ===================================================================== *)
(** ** JavaScript strings *)
(* ===================================================================== *)

Abbreviation jsstring := (list N).

(** A string literal of the source whose characters are all ASCII. *)
Fixpoint lit (s : string) : jsstring :=
  match s with
  | EmptyString => []
  | String c s' => N_of_ascii c :: lit s'
  end.

(** ECMAScript [WhiteSpace] and [LineTerminator] code units: what
    [String.prototype.trim] strips and what [\s] matches. *)
Definition is_space (c : N) : bool :=
  existsb (N.eqb c)
    [9; 10; 11; 12; 13; 32; 160; 5760; 8232; 8233; 8239; 8287; 12288; 65279]
  || ((8192 <=? c) && (c <=? 8202)).

Fixpoint trimStart (s : jsstring) : jsstring :=
  match s with
  | [] => []
  | c :: s' => if is_space c then trimStart s' else s
  end.

Fixpoint trimEnd (s : jsstring) : jsstring :=
  match s with
  | [] => []
  | c :: s' =>
      match trimEnd s' with
      | [] => if is_space c then [] else [c]
      | t => c :: t
      end
  end.

(** [s.trim()] *)
Definition trim (s : jsstring) : jsstring := trimEnd (trimStart s).

(** Truthiness of a string: [!s] is [is_empty s]. *)
Definition is_empty (s : jsstring) : bool :=
  match s with [] => true | _ => false end.

(** [s.split(/\s+/)].  The matcher scans left to right; a maximal run of
    white space is one separator.  A white-space unit followed by another
    belongs to the same run; the last unit of a run closes the token before
    it.  The empty string splits into one empty token, and a separator at
    either end of the string leaves an empty token there. *)
Fixpoint split_ws (s : jsstring) : list jsstring :=
  match s with
  | [] => [[]]
  | c :: s' =>
      if is_space c then
        match s' with
        | c' :: _ => if is_space c' then split_ws s' else [] :: split_ws s'
        | [] => [] :: split_ws s'
        end
      else
        match split_ws s' with
        | t :: ts => (c :: t) :: ts
        | [] => [[c]]
        end
  end.

(** [words.join(sep)] *)
Fixpoint join (sep : jsstring) (words : list jsstring) : jsstring :=
  match words with
  | [] => []
  | [w] => w
  | w :: ws => w ++ sep ++ join sep ws
  end.

Definition SPACE : jsstring := [32].
(** U+2026 HORIZONTAL ELLIPSIS, one code unit. *)
Definition ELLIPSIS : jsstring := [8230].

Definition ASSISTANT_REPLY : jsstring := lit "ok " ++ [55357; 56397].
Definition DEFAULT_CHAT_TITLE : jsstring := lit "New chat".

(** [buildTitleFromMessage], page.tsx 748-754. *)
Definition buildTitleFromMessage (content : jsstring) : jsstring :=
  let cleaned := trim content in
  if is_empty cleaned then DEFAULT_CHAT_TITLE
  else
    let words := split_ws cleaned in
    let firstThree := join SPACE (firstn 3 words) in
    if (3 <? length words)%nat then firstThree ++ ELLIPSIS else firstThree.

(** The title rule in the words of the specification: split the trimmed
    text on runs of white space, discard empty tokens; no token gives the
    placeholder, at most three tokens are joined by single spaces, more
    than three give the first three joined and one ellipsis character. *)
Definition spec_tokens (text : jsstring) : list jsstring :=
  List.filter (fun t => negb (is_empty t)) (split_ws (trim text)).

Definition spec_title (text : jsstring) : jsstring :=
  match spec_tokens text with
  | [] => DEFAULT_CHAT_TITLE
  | toks =>
      if (length toks <=? 3)%nat then join SPACE toks
      else join SPACE (firstn 3 toks) ++ ELLIPSIS
  end.

(* --------------------------------------------------------------------- *)
(** *** Strings that are clean at an end *)

(** The last code unit, if any, is not white space. *)
Fixpoint ends_clean (s : jsstring) : bool :=
  match s with
  | [] => true
  | c :: s' => match s' with [] => negb (is_space c) | _ => ends_clean s' end
  end.

(** The first code unit, if any, is not white space. *)
Definition starts_clean (s : jsstring) : bool :=
  match s with [] => true | c :: _ => negb (is_space c) end.


(* ===================================================================== *)
(** ** The data model (page.tsx 639-678) *)
(* ===================================================================== *)

Inductive Role := User | Assistant.
Inductive Status := Thinking | Done.
Inductive Reaction := Like | Dislike.

#[export] Instance Role_eq_dec : EqDecision Role.
Proof. solve_decision. Defined.
#[export] Instance Status_eq_dec : EqDecision Status.
Proof. solve_decision. Defined.

Module Message.
Record t := mk
  { id : jsstring;
    role : Role;
    content : jsstring;
    createdAt : Z;
    liked : bool;
    disliked : bool;
    status : Status;
    version : Z }.
End Message.

Module Chat.
Record t := mk
  { id : jsstring;
    title : jsstring;
    messages : list Message.t;
    createdAt : Z;
    updatedAt : Z;
    isCustomTitle : bool }.

(** [{ ...chat, messages }], [{ ...chat, title }], ... *)
Definition with_messages (ms : list Message.t) (c : t) : t :=
  mk (id c) (title c) ms (createdAt c) (updatedAt c) (isCustomTitle c).
Definition with_title (ti : jsstring) (c : t) : t :=
  mk (id c) ti (messages c) (createdAt c) (updatedAt c) (isCustomTitle c).
Definition with_updatedAt (u : Z) (c : t) : t :=
  mk (id c) (title c) (messages c) (createdAt c) u (isCustomTitle c).
Definition with_isCustomTitle (b : bool) (c : t) : t :=
  mk (id c) (title c) (messages c) (createdAt c) (updatedAt c) b.
End Chat.

#[export] Instance Message_eq_dec : EqDecision Message.t.
Proof. solve_decision. Defined.
#[export] Instance Chat_eq_dec : EqDecision Chat.t.
Proof. solve_decision. Defined.

(** An armed timeout: the handle [setTimeout] returned, the two identifiers
    its callback closes over, and the delay it was armed with. *)
Record Timer := mkTimer
  { handle : nat;
    chatId : jsstring;
    messageId : jsstring;
    delay : Z }.

#[export] Instance Timer_eq_dec : EqDecision Timer.
Proof. solve_decision. Defined.

(** The state of the [Home] component that its handlers read or write.
    [pending] and [nextHandle] are the browser's side of [setTimeout]:
    the timeouts armed and not yet run, and the next handle it hands out. *)
Record Home := mkHome
  { chats : list Chat.t;
    activeChatId : option jsstring;
    input : jsstring;
    editingChatId : option jsstring;
    renameValue : jsstring;
    sidebarCollapsed : bool;
    mobileSidebarOpen : bool;
    isMobile : bool;
    timersRef : gmap jsstring nat;
    pending : list Timer;
    nextHandle : nat }.

Definition setChats (f : list Chat.t -> list Chat.t) (st : Home) : Home :=
  mkHome (f (chats st)) (activeChatId st) (input st) (editingChatId st)
    (renameValue st) (sidebarCollapsed st) (mobileSidebarOpen st)
    (isMobile st) (timersRef st) (pending st) (nextHandle st).
Definition setActiveChatId (a : option jsstring) (st : Home) : Home :=
  mkHome (chats st) a (input st) (editingChatId st)
    (renameValue st) (sidebarCollapsed st) (mobileSidebarOpen st)
    (isMobile st) (timersRef st) (pending st) (nextHandle st).
Definition setInput (v : jsstring) (st : Home) : Home :=
  mkHome (chats st) (activeChatId st) v (editingChatId st)
    (renameValue st) (sidebarCollapsed st) (mobileSidebarOpen st)
    (isMobile st) (timersRef st) (pending st) (nextHandle st).
Definition setEditingChatId (e : option jsstring) (st : Home) : Home :=
  mkHome (chats st) (activeChatId st) (input st) e
    (renameValue st) (sidebarCollapsed st) (mobileSidebarOpen st)
    (isMobile st) (timersRef st) (pending st) (nextHandle st).
Definition setRenameValue (v : jsstring) (st : Home) : Home :=
  mkHome (chats st) (activeChatId st) (input st) (editingChatId st)
    v (sidebarCollapsed st) (mobileSidebarOpen st)
    (isMobile st) (timersRef st) (pending st) (nextHandle st).
Definition setSidebarCollapsed (b : bool) (st : Home) : Home :=
  mkHome (chats st) (activeChatId st) (input st) (editingChatId st)
    (renameValue st) b (mobileSidebarOpen st)
    (isMobile st) (timersRef st) (pending st) (nextHandle st).
Definition setMobileSidebarOpen (b : bool) (st : Home) : Home :=
  mkHome (chats st) (activeChatId st) (input st) (editingChatId st)
    (renameValue st) (sidebarCollapsed st) b
    (isMobile st) (timersRef st) (pending st) (nextHandle st).
Definition setTimers (r : gmap jsstring nat) (p : list Timer) (n : nat)
    (st : Home) : Home :=
  mkHome (chats st) (activeChatId st) (input st) (editingChatId st)
    (renameValue st) (sidebarCollapsed st) (mobileSidebarOpen st)
    (isMobile st) r p n.

(** The component before its first effect ran: [useState([])],
    [useState(null)], [useState("")], ..., [useRef({})]. *)
Definition initialHome (mobile : bool) : Home :=
  mkHome [] None [] None [] false false mobile ∅ [] 0.

(** [a === b] on strings. *)
Definition str_eqb (a b : jsstring) : bool := bool_decide (a = b).

(* ===================================================================== *)
(** ** Constructors and handlers (page.tsx 728-746, 807-810, 873-1043) *)
(* ===================================================================== *)

(** [createAssistantMessage]: [createId()] and [Date.now()] are read from
    the environment. *)
Definition createAssistantMessage (id : jsstring) (now : Z) : Message.t :=
  Message.mk id Assistant [] now false false Thinking 0.

(** [createChat]: one [createId()] and two [Date.now()] reads. *)
Definition createChat (id : jsstring) (created updated : Z) : Chat.t :=
  Chat.mk id DEFAULT_CHAT_TITLE [] created updated false.

(** [chats.find((chat) => chat.id === activeChatId) ?? chats[0]] *)
Definition currentChat (st : Home) : option Chat.t :=
  match
    List.find
      (fun chat =>
         match activeChatId st with
         | Some a => str_eqb (Chat.id chat) a
         | None => false
         end)
      (chats st)
  with
  | Some c => Some c
  | None => head (chats st)
  end.

(** [x + 1] on a number that holds an integer.  A JavaScript number is a
    double: every integer up to 2^53 in magnitude is one, and there the sum
    is exact; from 2^53 on the doubles are the even integers (from 2^54 on
    the multiples of 4, and so on), and the sum is the double nearest to
    it, a tie going to the one whose significand is even.  The model
    carries a number that holds an integer as that integer; the page makes
    no other version (0, then [+ 1] at a time), and [loadChats] keeps the
    version it finds. *)
Definition TWO_53 : Z := 9007199254740992.

Definition add_one (x : Z) : Z :=
  if (- TWO_53 <=? x)%Z && (x <? TWO_53)%Z then (x + 1)%Z
  else if (Z.abs x <? 2 * TWO_53)%Z then
    (if Z.even (x / 2) then x else x + 2)%Z
  else x.

(** [timersRef.current[messageId] = timer] on the plain object [{}] of
    [useRef]: the name ["__proto__"] is the accessor of the prototype, which
    ignores a number, so nothing is recorded under it; any other name
    becomes, or stays, an own property and holds the handle. *)
Definition PROTO : jsstring := lit "__proto__".

Definition recordTimer (messageId : jsstring) (h : nat)
    (ref : gmap jsstring nat)
    : gmap jsstring nat :=
  if str_eqb messageId PROTO then ref else <[messageId := h]> ref.

(** [startAssistantResponse]: arms a timeout for the reply and records its
    handle under the message id, over whatever handle was recorded there. *)
Definition startAssistantResponse (chatId messageId : jsstring) (delay : Z)
    (st : Home) : Home :=
  let timer := mkTimer (nextHandle st) chatId messageId delay in
  setTimers (recordTimer messageId (handle timer) (timersRef st))
    (pending st ++ [timer]) (S (nextHandle st)) st.

(** The message a reply resolution writes. *)
Definition resolved (message : Message.t) : Message.t :=
  Message.mk (Message.id message) (Message.role message) ASSISTANT_REPLY
    (Message.createdAt message) (Message.liked message)
    (Message.disliked message) Done (add_one (Message.version message)).

(** The function the timeout's callback maps over [prev]. *)
Definition resolvedIn (chatId messageId : jsstring) (now : Z) (chat : Chat.t)
    : Chat.t :=
  if negb (str_eqb (Chat.id chat) chatId) then chat
  else
    Chat.with_updatedAt now
      (Chat.with_messages
         (map (fun message =>
                 if str_eqb (Message.id message) messageId
                 then resolved message
                 else message)
              (Chat.messages chat))
         chat).

(** The callback of the timeout armed by [startAssistantResponse]:
    [setChats((prev) => prev.map(...))], then
    [delete timersRef.current[messageId]]. *)
Definition timerCallback (t : Timer) (now : Z) (st : Home) : Home :=
  let st1 := setChats (map (resolvedIn (chatId t) (messageId t) now)) st in
  setTimers (delete (messageId t) (timersRef st1)) (pending st1)
    (nextHandle st1) st1.

(** The event loop runs the armed timeout with handle [h], if there is one:
    it leaves the table and its callback runs. *)
Definition fire (h : nat) (now : Z) (st : Home) : Home :=
  match List.find (fun t => Nat.eqb (handle t) h) (pending st) with
  | None => st
  | Some t =>
      timerCallback t now
        (setTimers (timersRef st)
           (List.filter (fun t' => negb (Nat.eqb (handle t') h)) (pending st))
           (nextHandle st) st)
  end.

(** The function [handleSubmit] maps over [prev]. *)
Definition submitted (cur : Chat.t) (userMessage assistantMessage : Message.t)
    (now : Z) (chat : Chat.t) : Chat.t :=
  if negb (str_eqb (Chat.id chat) (Chat.id cur)) then chat
  else
    let nextMessages := Chat.messages chat ++ [userMessage; assistantMessage] in
    let title :=
      if negb (Chat.isCustomTitle chat) then
        match List.find (fun msg => bool_decide (Message.role msg = User))
                nextMessages with
        | Some firstUser => buildTitleFromMessage (Message.content firstUser)
        | None => Chat.title chat
        end
      else Chat.title chat in
    Chat.with_updatedAt now
      (Chat.with_messages nextMessages (Chat.with_title title chat)).

(** [handleSubmit].  Environment: the user message's id and time, the
    assistant message's id and time, the time of the update, the delay. *)
Definition handleSubmit (uid : jsstring) (tu : Z) (aid : jsstring) (ta : Z)
    (now : Z) (delay : Z) (st : Home) : Home :=
  match currentChat st with
  | None => st
  | Some cur =>
      if is_empty (trim (input st)) then st
      else
        let trimmed := trim (input st) in
        let userMessage :=
          Message.mk uid User trimmed tu false false Done 0 in
        let assistantMessage := createAssistantMessage aid ta in
        let st1 :=
          setChats (map (submitted cur userMessage assistantMessage now)) st in
        let st2 := setInput [] st1 in
        startAssistantResponse (Chat.id cur) (Message.id assistantMessage)
          delay st2
  end.

(** [handleNewChat] *)
Definition handleNewChat (id : jsstring) (created updated : Z) (st : Home)
    : Home :=
  let newChat := createChat id created updated in
  let st1 := setChats (fun prev => newChat :: prev) st in
  let st2 := setActiveChatId (Some (Chat.id newChat)) st1 in
  let st3 := setInput [] st2 in
  if isMobile st3 then setMobileSidebarOpen false st3 else st3.

(** [handleSelectChat] *)
Definition handleSelectChat (chatId : jsstring) (st : Home) : Home :=
  let st1 := setActiveChatId (Some chatId) st in
  if isMobile st1 then setMobileSidebarOpen false st1 else st1.

(** [startRename] *)
Definition startRename (chat : Chat.t) (st : Home) : Home :=
  let st1 :=
    if sidebarCollapsed st && negb (isMobile st)
    then setSidebarCollapsed false st else st in
  setRenameValue (Chat.title chat) (setEditingChatId (Some (Chat.id chat)) st1).

(** The function [commitRename] maps over [prev]. *)
Definition renamed (editing nextTitle : jsstring) (chat : Chat.t) : Chat.t :=
  if str_eqb (Chat.id chat) editing
  then Chat.with_isCustomTitle true (Chat.with_title nextTitle chat)
  else chat.

(** [commitRename].  [!editingChatId] holds for [null] and for the empty
    string; [renameValue.trim() || DEFAULT_CHAT_TITLE] takes the placeholder
    when the trim is empty. *)
Definition commitRename (chatId : jsstring) (st : Home) : Home :=
  match editingChatId st with
  | None => st
  | Some editing =>
      if is_empty editing || negb (str_eqb editing chatId) then st
      else
        let nextTitle :=
          if is_empty (trim (renameValue st)) then DEFAULT_CHAT_TITLE
          else trim (renameValue st) in
        let st1 := setChats (map (renamed editing nextTitle)) st in
        setRenameValue [] (setEditingChatId None st1)
  end.

(** The specification's [renameConversation(id, proposedTitle)] as the page
    performs it: the pencil button of a chat row ([startRename]), typing in
    the field ([onRenameChange], which is [setRenameValue]), then Enter or
    blur ([commitRename] with the row's chat id). *)
Definition renameConversation (chat : Chat.t) (proposedTitle : jsstring)
    (st : Home) : Home :=
  commitRename (Chat.id chat)
    (setRenameValue proposedTitle (startRename chat st)).

(** [cancelRename] *)
Definition cancelRename (st : Home) : Home :=
  setRenameValue [] (setEditingChatId None st).

(** The body of [toggleReaction] for the message it targets. *)
Definition react (type : Reaction) (message : Message.t) : Message.t :=
  match type with
  | Like =>
      let liked := negb (Message.liked message) in
      Message.mk (Message.id message) (Message.role message)
        (Message.content message) (Message.createdAt message)
        liked (if liked then false else Message.disliked message)
        (Message.status message) (Message.version message)
  | Dislike =>
      let disliked := negb (Message.disliked message) in
      Message.mk (Message.id message) (Message.role message)
        (Message.content message) (Message.createdAt message)
        (if disliked then false else Message.liked message) disliked
        (Message.status message) (Message.version message)
  end.

(** The function [toggleReaction] maps over [prev]. *)
Definition toggled (cur : Chat.t) (messageId : jsstring) (type : Reaction)
    (chat : Chat.t) : Chat.t :=
  if negb (str_eqb (Chat.id chat) (Chat.id cur)) then chat
  else
    Chat.with_messages
      (map (fun message =>
              if negb (str_eqb (Message.id message) messageId)
                 || negb (bool_decide (Message.role message = Assistant))
              then message
              else react type message)
           (Chat.messages chat))
      chat.

(** [toggleReaction] *)
Definition toggleReaction (messageId : jsstring) (type : Reaction)
    (st : Home) : Home :=
  match currentChat st with
  | None => st
  | Some cur => setChats (map (toggled cur messageId type)) st
  end.

(** The message [handleRegenerate] writes over the one it targets. *)
Definition regenerated (message : Message.t) : Message.t :=
  Message.mk (Message.id message) (Message.role message) []
    (Message.createdAt message) false false Thinking
    (add_one (Message.version message)).

(** The function [handleRegenerate] maps over [prev]. *)
Definition regeneratedIn (cur : Chat.t) (messageId : jsstring) (chat : Chat.t)
    : Chat.t :=
  if negb (str_eqb (Chat.id chat) (Chat.id cur)) then chat
  else
    Chat.with_messages
      (map (fun message =>
              if str_eqb (Message.id message) messageId
              then regenerated message
              else message)
           (Chat.messages chat))
      chat.

(** [handleRegenerate] *)
Definition handleRegenerate (messageId : jsstring) (delay : Z) (st : Home)
    : Home :=
  match currentChat st with
  | None => st
  | Some cur =>
      let st1 := setChats (map (regeneratedIn cur messageId)) st in
      startAssistantResponse (Chat.id cur) messageId delay st1
  end.

(** A render puts the copy, like, dislike and regenerate buttons on a
    message only under [message.role === "assistant" && message.status ===
    "done"] (page.tsx 1212-1213), and only on the messages of the current
    chat (1130-1131).  [actionsOffered] is that condition on the state
    being rendered.  It is not a bound on the clicks the handlers receive:
    the list is inside [AnimatePresence] (1129-1143), which keeps the
    element rendered under a message's old key, buttons and handlers
    included, for the 0.2 s of its exit once the key ([id] and [version])
    has changed. *)
Definition offersActions (message : Message.t) : bool :=
  bool_decide (Message.role message = Assistant)
  && bool_decide (Message.status message = Done).

Definition actionsOffered (messageId : jsstring) (st : Home) : bool :=
  match currentChat st with
  | None => false
  | Some cur =>
      existsb
        (fun message =>
           str_eqb (Message.id message) messageId && offersActions message)
        (Chat.messages cur)
  end.

(** A run of reaction clicks on one message, and what it does to a message
    it targets. *)
Definition toggles (messageId : jsstring) (types : list Reaction) (st : Home)
    : Home :=
  fold_left (fun st' type => toggleReaction messageId type st') types st.

Definition reacts (types : list Reaction) (message : Message.t) : Message.t :=
  fold_left (fun message' type => react type message') types message.

(* ===================================================================== *)
(** ** Sample states *)
(* ===================================================================== *)

(** One chat holding a sent message and its resolved reply. *)
Definition sample_user : Message.t :=
  Message.mk (lit "u1") User (lit "hi") 10 false false Done 0.
Definition sample_reply : Message.t :=
  Message.mk (lit "a1") Assistant ASSISTANT_REPLY 11 false false Done 1.
Definition sample_chat : Chat.t :=
  Chat.mk (lit "c1") (lit "hi") [sample_user; sample_reply] 5 12 false.
Definition sample_home : Home :=
  mkHome [sample_chat] (Some (lit "c1")) (lit " again ") None [] false false
    false ∅ [] 1.

(** A collection as the storage may hold it: one reply at version 2^53, one
    with the id ["__proto__"]. *)
Definition sample_aged_home : Home :=
  mkHome
    [Chat.mk (lit "c1") (lit "hi")
       [sample_user;
        Message.mk (lit "a1") Assistant ASSISTANT_REPLY 11 false false Done
          TWO_53;
        Message.mk PROTO Assistant ASSISTANT_REPLY 13 false false Done 7]
       5 12 false]
    (Some (lit "c1")) [] None [] false false false ∅ [] 1.


(** A chat whose id is the empty string. *)
Definition sample_unnamed_chat : Chat.t :=
  Chat.mk [] (lit "hi") [sample_user; sample_reply] 5 12 false.
Definition sample_unnamed_home : Home :=
  mkHome [sample_unnamed_chat] (Some []) [] None [] false false false ∅ [] 1.

(** The scenario of the specification: an empty store, a new chat, the text
    "  hello world  " typed and submitted, and the reply timeout run. *)
Definition scenario_created (mobile : bool) (cid : jsstring) (t1 t2 : Z) : Home :=
  handleNewChat cid t1 t2 (initialHome mobile).

Definition scenario_sent (mobile : bool) (cid : jsstring) (t1 t2 : Z)
    (uid : jsstring) (tu : Z) (aid : jsstring) (ta now delay : Z) : Home :=
  handleSubmit uid tu aid ta now delay
    (setInput (lit "  hello world  ") (scenario_created mobile cid t1 t2)).

Definition scenario_replied (mobile : bool) (cid : jsstring) (t1 t2 : Z)
    (uid : jsstring) (tu : Z) (aid : jsstring) (ta now delay later : Z) : Home :=
  fire 0 later (scenario_sent mobile cid t1 t2 uid tu aid ta now delay).

(* ===================================================================== *)
(** ** Persisted state: [loadChats] (page.tsx 756-777) *)
(* ===================================================================== *)

(** What [JSON.parse] can return.  An object is its own properties, each
    name once, as an association list; the order of the properties plays no
    part in what follows.  A number is carried as an integer: [loadChats]
    never computes with one. *)
#[warnings="-register-all"]
Inductive json :=
| JNull
| JBool (b : bool)
| JNum (n : Z)
| JStr (s : jsstring)
| JArr (items : list json)
| JObj (props : list (jsstring * json)).

(** What [window.localStorage.getItem(key)] does: it throws, returns [null],
    or returns the stored string. *)
Inductive stored :=
| ReadFails
| Absent
| Stored (s : jsstring).

(** The value of an own property, [None] when there is none. *)
Fixpoint assoc (key : jsstring) (props : list (jsstring * json)) : option json :=
  match props with
  | [] => None
  | (k, v) :: props' => if str_eqb k key then Some v else assoc key props'
  end.

(** Defining a property in an object literal: over the one of that name if
    a spread already put it there, as a new last property otherwise. *)
Fixpoint put (key : jsstring) (v : json) (props : list (jsstring * json))
    : list (jsstring * json) :=
  match props with
  | [] => [(key, v)]
  | (k, v') :: props' =>
      if str_eqb k key then (k, v) :: props' else (k, v') :: put key v props'
  end.

(** The name of the [i]-th element of an array or string: [i] in decimal. *)
Definition index_key (i : nat) : jsstring :=
  lit (NilEmpty.string_of_uint (Nat.to_uint i)).

(** [{ ...v }]: the own enumerable properties of [v].  An array and a
    string have their elements under their indices; [null], a boolean and a
    number have none. *)
Definition spread (v : json) : list (jsstring * json) :=
  match v with
  | JObj props => props
  | JArr items => imap (fun i x => (index_key i, x)) items
  | JStr s => imap (fun i c => (index_key i, JStr [c])) s
  | JNull | JBool _ | JNum _ => []
  end.

(** [v.key] for the six names [loadChats] reads ([isCustomTitle],
    [messages], [liked], [disliked], [status], [version]); none of them is
    an index or a property of a prototype.  The outer [None] is the
    [TypeError] of reading a property of [null]; the inner one is
    [undefined]. *)
Definition get (key : jsstring) (v : json) : option (option json) :=
  match v with
  | JNull => None
  | JObj props => Some (assoc key props)
  | JBool _ | JNum _ | JStr _ | JArr _ => Some None
  end.

(** [x ?? d]: [d] when [x] is [undefined] or [null]. *)
Definition nullish (x : option json) (d : json) : json :=
  match x with
  | None | Some JNull => d
  | Some v => v
  end.

Definition K_isCustomTitle : jsstring := lit "isCustomTitle".
Definition K_messages : jsstring := lit "messages".
Definition K_liked : jsstring := lit "liked".
Definition K_disliked : jsstring := lit "disliked".
Definition K_status : jsstring := lit "status".
Definition K_version : jsstring := lit "version".

(** The function [loadChats] maps over [chat.messages]; [None] is a
    [TypeError]. *)
Definition loadMessage (message : json) : option json :=
  let props := spread message in
  liked ← get K_liked message;
  disliked ← get K_disliked message;
  status ← get K_status message;
  version ← get K_version message;
  Some (JObj
          (put K_version (nullish version (JNum 0))
             (put K_status (nullish status (JStr (lit "done")))
                (put K_disliked (nullish disliked (JBool false))
                   (put K_liked (nullish liked (JBool false)) props))))).

(** The function [loadChats] maps over [parsed].  [chat.messages.map] is a
    function only when [chat.messages] is an array. *)
Definition loadChat (chat : json) : option json :=
  let props := spread chat in
  isCustomTitle ← get K_isCustomTitle chat;
  messages ← get K_messages chat;
  match messages with
  | Some (JArr items) =>
      loaded ← mapM loadMessage items;
      Some (JObj
              (put K_messages (JArr loaded)
                 (put K_isCustomTitle (nullish isCustomTitle (JBool false))
                    props)))
  | _ => None
  end.

(** The objects the page itself builds, as [JSON.stringify] sees them. *)
Definition encodeRole (r : Role) : json :=
  JStr (match r with User => lit "user" | Assistant => lit "assistant" end).

Definition encodeStatus (s : Status) : json :=
  JStr (match s with Thinking => lit "thinking" | Done => lit "done" end).

Definition encodeMessage (m : Message.t) : json :=
  JObj [(lit "id", JStr (Message.id m));
        (lit "role", encodeRole (Message.role m));
        (lit "content", JStr (Message.content m));
        (lit "createdAt", JNum (Message.createdAt m));
        (K_liked, JBool (Message.liked m));
        (K_disliked, JBool (Message.disliked m));
        (K_status, encodeStatus (Message.status m));
        (K_version, JNum (Message.version m))].

Definition encodeChat (c : Chat.t) : json :=
  JObj [(lit "id", JStr (Chat.id c));
        (lit "title", JStr (Chat.title c));
        (K_messages, JArr (map encodeMessage (Chat.messages c)));
        (lit "createdAt", JNum (Chat.createdAt c));
        (lit "updatedAt", JNum (Chat.updatedAt c));
        (K_isCustomTitle, JBool (Chat.isCustomTitle c))].

(** [loadChats].  [JSON.parse] is the runtime's: [None] is its
    [SyntaxError].  [hasWindow] is [typeof window !== "undefined"]; the
    last three arguments are what [createChat()] reads if it is called. *)
Definition loadChats (JSON_parse : jsstring -> option json) (hasWindow : bool)
    (saved : stored) (id : jsstring) (created updated : Z) : list json :=
  let fresh := [encodeChat (createChat id created updated)] in
  if negb hasWindow then fresh
  else
    match saved with
    | ReadFails => fresh
    | Absent => fresh
    | Stored s =>
        if is_empty s then fresh
        else
          match JSON_parse s with
          | None => fresh
          | Some (JArr items) =>
              match items with
              | [] => fresh
              | _ =>
                  match mapM loadChat items with
                  | Some chats => chats
                  | None => fresh
                  end
              end
          | Some _ => fresh
          end
    end.

(** Reading a loaded object against the persisted one.  A property is
    missing when it is absent or [null], the two cases [??] replaces: a
    missing property holds the default in the loaded object, and any other
    value is the loaded value. *)
Definition defaulted (key : jsstring) (d : json)
    (persisted loaded : list (jsstring * json)) : Prop :=
  match assoc key persisted with
  | None | Some JNull => assoc key loaded = Some d
  | Some v => assoc key loaded = Some v
  end.

Definition kept_except (keys : list jsstring)
    (persisted loaded : list (jsstring * json)) : Prop :=
  forall k, ~ In k keys -> assoc k loaded = assoc k persisted.

(** A loaded message object against the persisted one. *)
Definition message_defaulted (persisted loaded : list (jsstring * json)) : Prop :=
  defaulted K_liked (JBool false) persisted loaded
  /\ defaulted K_disliked (JBool false) persisted loaded
  /\ defaulted K_status (JStr (lit "done")) persisted loaded
  /\ defaulted K_version (JNum 0) persisted loaded
  /\ kept_except [K_liked; K_disliked; K_status; K_version] persisted loaded.

(** A persisted collection in which one message has [liked: null]. *)
Definition sample_null_message : json :=
  JObj [(lit "id", JStr (lit "m1")); (lit "role", JStr (lit "assistant"));
        (lit "content", JStr (lit "ok")); (lit "createdAt", JNum 7);
        (K_liked, JNull)].

Definition sample_persisted : json :=
  JArr [JObj [(lit "id", JStr (lit "c1")); (lit "title", JStr (lit "t"));
              (K_messages, JArr [sample_null_message]);
              (lit "createdAt", JNum 5); (lit "updatedAt", JNum 6)]].

(* ===================================================================== *)
(** ** The page as a transition system *)
(* ===================================================================== *)

(** What can happen to the page: the user's gestures and a timeout
    running.  Each carries what its handler reads from the environment. *)
Inductive Event :=
| TypeInput (text : jsstring)
| Submit (uid : jsstring) (tu : Z) (aid : jsstring) (ta now delay : Z)
| NewChat (id : jsstring) (created updated : Z)
| SelectChat (chatId : jsstring)
| StartRename (chat : Chat.t)
| RenameChange (value : jsstring)
| CommitRename (chatId : jsstring)
| CancelRename
| ToggleReaction (messageId : jsstring) (type : Reaction)
| Regenerate (messageId : jsstring) (delay : Z)
| TimerFires (h : nat) (now : Z).

Definition run (ev : Event) (st : Home) : Home :=
  match ev with
  | TypeInput text => setInput text st
  | Submit uid tu aid ta now delay => handleSubmit uid tu aid ta now delay st
  | NewChat id created updated => handleNewChat id created updated st
  | SelectChat chatId => handleSelectChat chatId st
  | StartRename chat => startRename chat st
  | RenameChange value => setRenameValue value st
  | CommitRename chatId => commitRename chatId st
  | CancelRename => cancelRename st
  | ToggleReaction messageId type => toggleReaction messageId type st
  | Regenerate messageId delay => handleRegenerate messageId delay st
  | TimerFires h now => fire h now st
  end.

(** [createId()] gave an id that no message of the store carries. *)
Definition fresh_message_id (id : jsstring) (st : Home) : Prop :=
  forall chat m,
    In chat (chats st) -> In m (Chat.messages chat) -> Message.id m <> id.

(** What the current render offers.  The sidebar has a row per chat of the
    collection; the buttons of a message are those the render of this state
    puts on it ([actionsOffered]); a new assistant message gets a fresh id.
    The page accepts more than its current render offers: for the 0.2 s of
    its exit, the element of a message whose key has changed still takes
    clicks on its buttons, so [handleRegenerate] and [toggleReaction] can
    be called for a message that is already thinking.  What is said of
    everything the page does ranges over every event; [offered] is a
    hypothesis where a statement is about the current render. *)
Definition offered (ev : Event) (st : Home) : Prop :=
  match ev with
  | Submit _ _ aid _ _ _ => fresh_message_id aid st
  | SelectChat chatId => exists chat, In chat (chats st) /\ Chat.id chat = chatId
  | StartRename chat => In chat (chats st)
  | ToggleReaction messageId _ => actionsOffered messageId st = true
  | Regenerate messageId _ => actionsOffered messageId st = true
  | TypeInput _ | NewChat _ _ _ | RenameChange _ | CommitRename _
  | CancelRename | TimerFires _ _ => True
  end.

(** The chat and message a timeout will write to. *)
Definition key (t : Timer) : jsstring * jsstring := (chatId t, messageId t).




(* ===================================================================== *)
(** ** More of the page: tokens, effects, theme *)
(* ===================================================================== *)

(** [splitTokens], page.tsx 786-787:
    [content.trim().split(/\s+/).filter(Boolean)]. *)
Definition splitTokens (content : jsstring) : list jsstring :=
  List.filter (fun t => negb (is_empty t)) (split_ws (trim content)).

(** A code unit that is not white space, a token made of such units only,
    and a token [filter(Boolean)] keeps. *)
Definition is_ink (c : N) : bool := negb (is_space c).

Definition is_word (t : jsstring) : Prop :=
  t <> [] /\ Forall (fun c => is_space c = false) t.

(** U+00A0, what the view puts after every token but the last
    (page.tsx 1194). *)
Definition NBSP : jsstring := [160].

(** The bubble of a message (page.tsx 1159-1207): the thinking dots while
    [status === "thinking"]; for an assistant message one span per token of
    [message.content || ASSISTANT_REPLY], each token followed by U+00A0 but
    the last; for a user message its content. *)
Inductive Bubble :=
| ThinkingDots
| Spans (spans : list jsstring)
| Paragraph (text : jsstring).

Definition spans (tokens : list jsstring) : list jsstring :=
  imap
    (fun tokenIndex token =>
       token ++ if Nat.ltb tokenIndex (length tokens - 1) then NBSP else [])
    tokens.

Definition bubble (message : Message.t) : Bubble :=
  if bool_decide (Message.status message = Thinking) then ThinkingDots
  else if bool_decide (Message.role message = Assistant) then
    Spans
      (spans
         (splitTokens
            (if is_empty (Message.content message) then ASSISTANT_REPLY
             else Message.content message)))
  else Paragraph (Message.content message).

(** The first effect of [Home] (page.tsx 814-819), with the loaded
    collection read as [Chat[]]: [setChats(storedChats)] and
    [setActiveChatId(storedChats[0]?.id ?? null)]. *)
Definition hydrate (storedChats : list Chat.t) (st : Home) : Home :=
  setActiveChatId (option_map Chat.id (head storedChats))
    (setChats (fun _ => storedChats) st).

(** What the sidebar is handed as [collapsed] (page.tsx 1074), and whether
    the row of a chat shows the rename field instead of its button:
    [chat.id === editingChatId] and [!collapsed]. *)
Definition sidebarCollapsedProp (st : Home) : bool :=
  negb (isMobile st) && sidebarCollapsed st.

Definition renameFieldShown (chat : Chat.t) (st : Home) : bool :=
  match editingChatId st with
  | Some editing => str_eqb (Chat.id chat) editing
  | None => false
  end
  && negb (sidebarCollapsedProp st).

(** The active id names a chat of the collection. *)
Definition active_valid (st : Home) : Prop :=
  exists chat, In chat (chats st) /\ activeChatId st = Some (Chat.id chat).

(** What an event does to one chat of the collection: the function its
    handler maps over [prev], the identity where the handler returns early
    or does not touch the collection. *)
Definition chat_step (ev : Event) (st : Home) (chat : Chat.t) : Chat.t :=
  match ev with
  | Submit uid tu aid ta now _ =>
      match currentChat st with
      | Some cur =>
          if is_empty (trim (input st)) then chat
          else
            submitted cur
              (Message.mk uid User (trim (input st)) tu false false Done 0)
              (createAssistantMessage aid ta) now chat
      | None => chat
      end
  | CommitRename chatId =>
      match editingChatId st with
      | Some editing =>
          if is_empty editing || negb (str_eqb editing chatId) then chat
          else
            renamed editing
              (if is_empty (trim (renameValue st)) then DEFAULT_CHAT_TITLE
               else trim (renameValue st))
              chat
      | None => chat
      end
  | ToggleReaction messageId type =>
      match currentChat st with
      | Some cur => toggled cur messageId type chat
      | None => chat
      end
  | Regenerate messageId _ =>
      match currentChat st with
      | Some cur => regeneratedIn cur messageId chat
      | None => chat
      end
  | TimerFires h now =>
      match List.find (fun t => Nat.eqb (handle t) h) (pending st) with
      | Some t => resolvedIn (chatId t) (messageId t) now chat
      | None => chat
      end
  | TypeInput _ | NewChat _ _ _ | SelectChat _ | StartRename _
  | RenameChange _ | CancelRename => chat
  end.

(** What never changes in a message and in a chat, and what only grows. *)
Definition message_kept (m m' : Message.t) : Prop :=
  Message.id m' = Message.id m
  /\ Message.role m' = Message.role m
  /\ Message.createdAt m' = Message.createdAt m
  /\ (Message.version m <= Message.version m')%Z.

Definition chat_kept (c c' : Chat.t) : Prop :=
  Chat.id c' = Chat.id c
  /\ Chat.createdAt c' = Chat.createdAt c
  /\ (length (Chat.messages c) <= length (Chat.messages c'))%nat
  /\ forall j m, Chat.messages c !! j = Some m ->
       exists m', Chat.messages c' !! j = Some m' /\ message_kept m m'.

(** A message whose flags, status and content agree: not both liked and
    disliked; empty while thinking; the fixed reply once an assistant
    message is done. *)
Definition coherent (m : Message.t) : Prop :=
  Message.liked m && Message.disliked m = false
  /\ (Message.status m = Thinking -> Message.content m = [])
  /\ (Message.role m = Assistant -> Message.status m = Done ->
      Message.content m = ASSISTANT_REPLY).

Definition store_coherent (st : Home) : Prop :=
  forall chat m, In chat (chats st) -> In m (Chat.messages chat) -> coherent m.

(** The flag a reaction does not toggle. *)
Definition other_flag (type : Reaction) (message : Message.t) : bool :=
  match type with
  | Like => Message.disliked message
  | Dislike => Message.liked message
  end.

(** What [toggleReaction] maps over the messages of a chat. *)
Definition clicked (messageId : jsstring) (type : Reaction)
    (message : Message.t) : Message.t :=
  if negb (str_eqb (Message.id message) messageId)
     || negb (bool_decide (Message.role message = Assistant))
  then message
  else react type message.

(** [clearTimeout(h)]: the timeout with that handle, if it is armed, leaves
    the table and will not run. *)
Definition clearTimeout (h : nat) (st : Home) : Home :=
  setTimers (timersRef st)
    (List.filter (fun t => negb (Nat.eqb (handle t) h)) (pending st))
    (nextHandle st) st.

(** The cleanup of the last effect (page.tsx 866-871), run when the page
    unmounts:
    [Object.values(timersRef.current).forEach((timer) => clearTimeout(timer))]. *)
Definition teardown (st : Home) : Home :=
  fold_left (fun s h => clearTimeout h s)
    (map snd (map_to_list (timersRef st))) st.

(** Ids as [createId] is meant to make them: no two chats with the same
    id, no two messages of the collection with the same id. *)
Definition message_ids (st : Home) : list jsstring :=
  flat_map (fun chat => map Message.id (Chat.messages chat)) (chats st).

Definition distinct_ids (st : Home) : Prop :=
  NoDup (map Chat.id (chats st)) /\ NoDup (message_ids st).

(** The ids an event brings are new: the user message of a send (the
    assistant message's id is new by [offered]) and the chat of "New chat". *)
Definition ids_fresh (ev : Event) (st : Home) : Prop :=
  match ev with
  | Submit uid _ aid _ _ _ => uid <> aid /\ ~ In uid (message_ids st)
  | NewChat id _ _ => ~ In id (map Chat.id (chats st))
  | _ => True
  end.

(** The ids a send appends to a chat. *)
Definition added_ids (ev : Event) (st : Home) (chat : Chat.t) : list jsstring :=
  match ev with
  | Submit uid _ aid _ _ _ =>
      match currentChat st with
      | Some cur =>
          if is_empty (trim (input st)) then []
          else if str_eqb (Chat.id chat) (Chat.id cur) then [uid; aid] else []
      | None => []
      end
  | _ => []
  end.

(** What [timersRef] records: the handle of every armed timeout under the
    id of its message. *)
Definition recorded (st : Home) : Prop :=
  forall t, In t (pending st) -> timersRef st !! messageId t = Some (handle t).

(** The timeout an event arms, if it arms one. *)
Definition armed (ev : Event) (st : Home) : option Timer :=
  match ev with
  | Submit _ _ aid _ _ delay =>
      match currentChat st with
      | Some cur =>
          if is_empty (trim (input st)) then None
          else Some (mkTimer (nextHandle st) (Chat.id cur) aid delay)
      | None => None
      end
  | Regenerate messageId delay =>
      match currentChat st with
      | Some cur => Some (mkTimer (nextHandle st) (Chat.id cur) messageId delay)
      | None => None
      end
  | _ => None
  end.

(** The handles the browser gave are distinct and below the next one. *)
Definition handles_ok (st : Home) : Prop :=
  (forall t, In t (pending st) -> (handle t < nextHandle st)%nat)
  /\ NoDup (map handle (pending st)).

(** An event that arms a timeout arms it for a message id that has none
    armed and is not ["__proto__"].  The page does not see to this itself
    (a second click on Regenerate can arrive while the first reply is
    awaited); it is what the bookkeeping of [timersRef] needs. *)
Definition calm (ev : Event) (st : Home) : Prop :=
  match armed ev st with
  | Some t =>
      messageId t <> PROTO
      /\ forall t', In t' (pending st) -> messageId t' <> messageId t
  | None => True
  end.

(** The runs in which every event is calm, from a state without armed
    timeouts. *)
Inductive tidy : Home -> Prop :=
| tidy_start st : pending st = [] -> tidy st
| tidy_step st ev : tidy st -> calm ev st -> tidy (run ev st).

(** [persistChats] (page.tsx 779-782): what the storage holds under the
    chats key afterwards.  [JSON.stringify] is the runtime's; a write that
    throws is not modelled. *)
Definition persistChats (JSON_stringify : json -> jsstring) (hasWindow : bool)
    (chats : list Chat.t) (storage : stored) : stored :=
  if negb hasWindow then storage
  else Stored (JSON_stringify (JArr (map encodeChat chats))).

(** The theme (page.tsx 640, 795). *)
Inductive ThemeName := dark | light.

Definition themeName (theme : ThemeName) : jsstring :=
  match theme with dark => lit "dark" | light => lit "light" end.

(** The second effect of [Home] (page.tsx 821-829): the theme after it,
    [saved] being what [getItem] returned ([None] for [null]). *)
Definition loadTheme (hasWindow : bool) (saved : option jsstring)
    (theme : ThemeName) : ThemeName :=
  if negb hasWindow then theme
  else
    match saved with
    | Some savedTheme =>
        if str_eqb savedTheme (lit "light") then light
        else if str_eqb savedTheme (lit "dark") then dark
        else theme
    | None => theme
    end.

(** [toggleTheme] (page.tsx 1045-1053): the next theme and what the storage
    holds under the theme key afterwards. *)
Definition toggleTheme (hasWindow : bool) (theme : ThemeName)
    (storage : option jsstring) : ThemeName * option jsstring :=
  let next := match theme with dark => light | light => dark end in
  (next, if hasWindow then Some (themeName next) else storage).

(* --------------------------------------------------------------------- *)
(** *** The earlier variant of the page (page.tsx 1-616) *)

(** In the earlier variant a message has no status and no version, its
    flags are optional, and regenerating adds a message instead of
    rewriting one. *)
Module V1.

Record Message := mkMessage
  { id : jsstring;
    role : Role;
    content : jsstring;
    createdAt : Z;
    liked : option bool;
    disliked : option bool }.

Record Chat := mkChat
  { chatId : jsstring;
    title : jsstring;
    messages : list Message;
    chatCreatedAt : Z;
    updatedAt : Z;
    isCustomTitle : option bool }.

(** [createAssistantMessage] (page.tsx 54-61): the reply is there at once. *)
Definition createAssistantMessage (newId : jsstring) (now : Z) : Message :=
  mkMessage newId Assistant ASSISTANT_REPLY now (Some false) (Some false).

(** [messages.findIndex(p)], [None] for -1. *)
Fixpoint findIndex (p : Message -> bool) (l : list Message) : option nat :=
  match l with
  | [] => None
  | x :: l' => if p x then Some 0%nat else option_map S (findIndex p l')
  end.

(** [copy.splice(start, 0, item)] on a copy of the array. *)
Definition splice (start : nat) (item : Message) (l : list Message)
    : list Message :=
  firstn start l ++ item :: skipn start l.

(** The function [handleRegenerate] maps over [prev] (page.tsx 286-301). *)
Definition regeneratedIn (cur : Chat) (messageId : jsstring)
    (duplicated : Message) (now : Z) (chat : Chat) : Chat :=
  if negb (str_eqb (chatId chat) (chatId cur)) then chat
  else
    match findIndex (fun message => str_eqb (id message) messageId)
            (messages chat) with
    | None => chat
    | Some index =>
        mkChat (chatId chat) (title chat)
          (splice (index + 1) duplicated (messages chat))
          (chatCreatedAt chat) now (isCustomTitle chat)
    end.

End V1.

(** What an event does to one message of a chat, and the messages it
    appends to the chat: together, [chat_step] on the messages. *)
Definition message_step (ev : Event) (st : Home) (chat : Chat.t)
    (m : Message.t) : Message.t :=
  match ev with
  | ToggleReaction messageId type =>
      match currentChat st with
      | Some cur =>
          if str_eqb (Chat.id chat) (Chat.id cur) then clicked messageId type m
          else m
      | None => m
      end
  | Regenerate messageId _ =>
      match currentChat st with
      | Some cur =>
          if str_eqb (Chat.id chat) (Chat.id cur)
             && str_eqb (Message.id m) messageId
          then regenerated m else m
      | None => m
      end
  | TimerFires h _ =>
      match List.find (fun t => Nat.eqb (handle t) h) (pending st) with
      | Some t =>
          if str_eqb (Chat.id chat) (chatId t)
             && str_eqb (Message.id m) (messageId t)
          then resolved m else m
      | None => m
      end
  | _ => m
  end.

Definition added_messages (ev : Event) (st : Home) (chat : Chat.t)
    : list Message.t :=
  match ev with
  | Submit uid tu aid ta _ _ =>
      match currentChat st with
      | Some cur =>
          if is_empty (trim (input st)) then []
          else if str_eqb (Chat.id chat) (Chat.id cur) then
            [Message.mk uid User (trim (input st)) tu false false Done 0;
             createAssistantMessage aid ta]
          else []
      | None => []
      end
  | _ => []
  end.

(** Every thinking message has a timeout armed for it. *)
Definition served (st : Home) : Prop :=
  forall chat m,
    In chat (chats st) -> In m (Chat.messages chat) ->
    Message.status m = Thinking ->
    exists t, In t (pending st) /\ key t = (Chat.id chat, Message.id m).

(** The message at place [j] of the chat at place [i] is thinking and no
    timeout is armed for it. *)
Definition stuck (st : Home) (i j : nat) : Prop :=
  exists chat m,
    chats st !! i = Some chat /\ Chat.messages chat !! j = Some m
    /\ Message.status m = Thinking
    /\ forall t, In t (pending st) -> key t <> (Chat.id chat, Message.id m).

(** A collection persisted while a reply was awaited, loaded again: the
    assistant message is thinking and nothing is armed. *)
Definition sample_stuck_home : Home :=
  mkHome
    [Chat.mk (lit "c1") (lit "hi")
       [sample_user; createAssistantMessage (lit "a1") 11] 5 12 false]
    (Some (lit "c1")) [] None [] false false false ∅ [] 0.
(* ===================================================================== *)
(** * Properties *)
(* ===================================================================== *)

(** ** Trimming, splitting and the derived title *)

Example split_ws_ex1 : split_ws (lit " a  b ") = [[]; lit "a"; lit "b"; []].
Proof. reflexivity. Qed.
Example title_ex1 :
  buildTitleFromMessage (lit "one two three four") = lit "one two three" ++ [8230].
Proof. reflexivity. Qed.
Example title_ex2 : buildTitleFromMessage (lit "  hello world  ") = lit "hello world".
Proof. reflexivity. Qed.
Example title_ex3 : buildTitleFromMessage (lit "   ") = lit "New chat".
Proof. reflexivity. Qed.
Example split_ws_ex2 : split_ws (lit "  ") = [[]; []].
Proof. reflexivity. Qed.
Example ellipsis_ex : ELLIPSIS <> lit "...".
Proof. discriminate. Qed.

Lemma trimStart_starts_clean s : starts_clean (trimStart s) = true.
Proof.
  induction s as [|c s IH]; simpl; [reflexivity|].
  destruct (is_space c) eqn:E; [exact IH|]. simpl. now rewrite E.
Qed.

Lemma trimEnd_ends_clean s : ends_clean (trimEnd s) = true.
Proof.
  induction s as [|c s IH]; simpl; [reflexivity|].
  destruct (trimEnd s) as [|d t] eqn:E.
  - destruct (is_space c) eqn:Ec; simpl; [reflexivity|now rewrite Ec].
  - exact IH.
Qed.

Lemma trimEnd_starts_clean s :
  starts_clean s = true -> starts_clean (trimEnd s) = true.
Proof.
  destruct s as [|c s]; simpl; [reflexivity|]. intros Hc.
  destruct (trimEnd s); [|exact Hc].
  destruct (is_space c) eqn:E; [reflexivity|]. simpl. now rewrite E.
Qed.

Lemma trim_clean s :
  starts_clean (trim s) = true /\ ends_clean (trim s) = true.
Proof.
  unfold trim. split.
  - apply trimEnd_starts_clean, trimStart_starts_clean.
  - apply trimEnd_ends_clean.
Qed.

(** Trimming a string that is already clean at both ends changes nothing. *)
Lemma trimEnd_id s : ends_clean s = true -> trimEnd s = s.
Proof.
  induction s as [|c s IH]; simpl; [reflexivity|].
  destruct s as [|d s'].
  - simpl. intros H. destruct (is_space c); [discriminate|reflexivity].
  - intros H. rewrite (IH H). reflexivity.
Qed.

Lemma trimStart_id s : starts_clean s = true -> trimStart s = s.
Proof.
  destruct s as [|c s]; simpl; [reflexivity|].
  destruct (is_space c); [discriminate|reflexivity].
Qed.

Lemma trim_idem s : trim (trim s) = trim s.
Proof.
  destruct (trim_clean s) as [H1 H2]. unfold trim at 1.
  rewrite (trimStart_id _ H1). apply trimEnd_id, H2.
Qed.

(** On a non-empty string that does not end in white space, every token of
    [split_ws] after the first is non-empty, and so is the first unless the
    string starts with white space. *)
Lemma split_ws_tokens s :
  s <> [] -> ends_clean s = true ->
  exists t ts, split_ws s = t :: ts
    /\ Forall (fun x => is_empty x = false) ts
    /\ (starts_clean s = true -> is_empty t = false).
Proof.
  induction s as [|c s IH]; [congruence|]. intros _ Hend.
  cbn [split_ws]. destruct (is_space c) eqn:Ec.
  - destruct s as [|c' s'].
    + simpl in Hend. rewrite Ec in Hend. discriminate.
    + destruct (IH ltac:(congruence) Hend) as (t & ts & Hs & Hts & Ht).
      destruct (is_space c') eqn:Ec'.
      * exists t, ts. rewrite Hs. repeat split; [exact Hts|].
        simpl. rewrite Ec. discriminate.
      * exists [], (t :: ts). rewrite Hs. repeat split.
        -- constructor; [|exact Hts]. apply Ht. simpl. now rewrite Ec'.
        -- simpl. rewrite Ec. discriminate.
  - destruct s as [|c' s'].
    + exists [c], []. simpl. repeat split. constructor.
    + destruct (IH ltac:(congruence) Hend) as (t & ts & Hs & Hts & _).
      rewrite Hs. exists (c :: t), ts. repeat split. exact Hts.
Qed.

Lemma filter_nonempty_id (l : list jsstring) :
  Forall (fun x => is_empty x = false) l ->
  List.filter (fun t => negb (is_empty t)) l = l.
Proof.
  induction 1 as [|x l Hx _ IH]; [reflexivity|].
  simpl. rewrite Hx. simpl. now rewrite IH.
Qed.

(** What [buildTitleFromMessage] relies on: the words of a trimmed,
    non-empty text are exactly its non-empty tokens. *)
Lemma split_trim_no_empty text :
  trim text <> [] ->
  spec_tokens text = split_ws (trim text) /\ split_ws (trim text) <> [].
Proof.
  intros Hne. destruct (trim_clean text) as [Hs He].
  destruct (split_ws_tokens _ Hne He) as (t & ts & Hsp & Hts & Ht).
  unfold spec_tokens. rewrite Hsp. split; [|congruence].
  apply filter_nonempty_id. constructor; [apply Ht, Hs|exact Hts].
Qed.

(** C4. For every input text, the title that [buildTitleFromMessage]
    derives is the title of the specification's rule: the trimmed text is
    split on runs of white space and empty tokens are discarded; no token
    (an empty trim) yields the placeholder "New chat"; at most three tokens
    yield the tokens joined by single spaces with no ellipsis; more than
    three yield the first three joined by single spaces followed by the
    single character U+2026 (not three periods). *)
Theorem buildTitleFromMessage_spec (text : jsstring) :
  buildTitleFromMessage text = spec_title text.
Proof.
  unfold buildTitleFromMessage, spec_title.
  destruct (trim text) as [|c t] eqn:E.
  - unfold spec_tokens. rewrite E. reflexivity.
  - assert (Hne : trim text <> []) by (rewrite E; discriminate).
    destruct (split_trim_no_empty text Hne) as [Htok Hwords].
    rewrite Htok, E in *. cbn [is_empty].
    destruct (split_ws (c :: t)) as [|w ws] eqn:Ew; [congruence|].
    destruct (Nat.leb_spec (length (w :: ws)) 3) as [Hle|Hgt].
    + replace (3 <? length (w :: ws))%nat with false
        by (symmetry; apply Nat.ltb_ge; exact Hle).
      now rewrite firstn_all2 by exact Hle.
    + replace (3 <? length (w :: ws))%nat with true
        by (symmetry; apply Nat.ltb_lt; exact Hgt).
      reflexivity.
Qed.

(* ===================================================================== *)
(** ** The current chat under updates of the collection *)
(* ===================================================================== *)

Lemma lookup_map {A B} (f : A -> B) (l : list A) (i : nat) :
  map f l !! i = option_map f (l !! i).
Proof.
  revert i. induction l as [|x l IH]; intros [|i]; simpl; auto.
Qed.

Lemma find_map {A} (P : A -> bool) (f : A -> A) (l : list A) :
  (forall x, P (f x) = P x) ->
  List.find P (map f l) = option_map f (List.find P l).
Proof.
  intros HP. induction l as [|x l IH]; simpl; [reflexivity|].
  rewrite HP. destruct (P x); [reflexivity|exact IH].
Qed.

Lemma str_eqb_refl a : str_eqb a a = true.
Proof. apply bool_decide_eq_true_2. reflexivity. Qed.

Lemma str_eqb_eq a b : str_eqb a b = true <-> a = b.
Proof. apply bool_decide_eq_true. Qed.

Lemma str_eqb_neq a b : str_eqb a b = false <-> a <> b.
Proof. apply bool_decide_eq_false. Qed.

(** Replacing every chat by one with the same id maps the current chat. *)
Lemma currentChat_map (f : Chat.t -> Chat.t) (st : Home) :
  (forall c, Chat.id (f c) = Chat.id c) ->
  currentChat (setChats (map f) st) = option_map f (currentChat st).
Proof.
  intros Hid. unfold currentChat. cbn [chats activeChatId setChats].
  rewrite find_map.
  - destruct (List.find _ (chats st)); [reflexivity|].
    destruct (chats st); reflexivity.
  - intros c. now rewrite Hid.
Qed.

Lemma currentChat_In st c : currentChat st = Some c -> In c (chats st).
Proof.
  unfold currentChat.
  destruct (List.find _ (chats st)) as [c'|] eqn:E.
  - intros [= <-]. apply (find_some _ _ E).
  - destruct (chats st); simpl; [discriminate|]. intros [= <-]. now left.
Qed.

(** There is no current chat exactly when the collection is empty. *)
Lemma currentChat_None st : currentChat st = None <-> chats st = [].
Proof.
  unfold currentChat. split.
  - destruct (List.find _ (chats st)); [discriminate|].
    destruct (chats st); [reflexivity|discriminate].
  - intros ->. reflexivity.
Qed.

(** A chat of the collection whose id is the active id is, up to chats that
    share its id, the current chat. *)
Lemma currentChat_selected st c :
  In c (chats st) -> activeChatId st = Some (Chat.id c) ->
  exists cur, currentChat st = Some cur /\ Chat.id cur = Chat.id c.
Proof.
  intros Hin Hact. unfold currentChat. rewrite Hact.
  destruct (List.find _ (chats st)) as [c'|] eqn:E.
  - exists c'. split; [reflexivity|].
    apply find_some in E. now apply str_eqb_eq.
  - exfalso. pose proof (find_none _ _ E c Hin) as H. simpl in H.
    rewrite str_eqb_refl in H. discriminate.
Qed.

(* ===================================================================== *)
(** ** Sending a message *)
(* ===================================================================== *)

Lemma handleSubmit_chats uid tu aid ta now delay st cur :
  currentChat st = Some cur -> trim (input st) <> [] ->
  chats (handleSubmit uid tu aid ta now delay st)
  = map (submitted cur (Message.mk uid User (trim (input st)) tu false false Done 0)
           (createAssistantMessage aid ta) now)
      (chats st).
Proof.
  intros Hcur Hne. unfold handleSubmit. rewrite Hcur.
  destruct (trim (input st)) eqn:E; [congruence|]. reflexivity.
Qed.

Lemma handleSubmit_noop uid tu aid ta now delay st :
  trim (input st) = [] \/ currentChat st = None ->
  handleSubmit uid tu aid ta now delay st = st.
Proof.
  unfold handleSubmit. intros [H|H].
  - destruct (currentChat st); [|reflexivity]. now rewrite H.
  - now rewrite H.
Qed.

(** C1. [handleSubmit] is the page's [sendMessage]: its conversation is the
    current chat and its text is [input].  For every conversation [c] of
    the store that is selected and every input whose trim is non-empty, each
    chat carrying [c]'s id (so [c] itself) has, after the call, its former
    messages followed by exactly two new ones: a user message with status
    done whose content is the trimmed text, then an assistant message with
    status thinking and empty content.  If the trimmed text is empty or there
    is no current conversation, the call returns the state it was given;
    there is no current conversation exactly when the store holds none. *)
Theorem handleSubmit_appends_two uid tu aid ta now delay (st : Home) :
  (forall c, In c (chats st) -> activeChatId st = Some (Chat.id c) ->
     trim (input st) <> [] ->
     forall i chat, chats st !! i = Some chat -> Chat.id chat = Chat.id c ->
       exists chat',
         chats (handleSubmit uid tu aid ta now delay st) !! i = Some chat'
         /\ Chat.messages chat'
            = Chat.messages chat
              ++ [Message.mk uid User (trim (input st)) tu false false Done 0;
                  Message.mk aid Assistant [] ta false false Thinking 0])
  /\ (trim (input st) = [] \/ currentChat st = None ->
      handleSubmit uid tu aid ta now delay st = st)
  /\ (currentChat st = None <-> chats st = []).
Proof.
  split; [|split; [apply handleSubmit_noop|apply currentChat_None]].
  intros c Hin Hact Hne i chat Hi Hid.
  destruct (currentChat_selected st c Hin Hact) as (cur & Hcur & Hcid).
  rewrite (handleSubmit_chats _ _ _ _ _ _ _ _ Hcur Hne), lookup_map, Hi.
  eexists. split; [reflexivity|].
  unfold submitted. rewrite Hid, <- Hcid, str_eqb_refl. reflexivity.
Qed.

Lemma handleSubmit_appends_two_witness :
  exists chat',
    chats (handleSubmit (lit "u2") 20 (lit "a2") 21 22 2000 sample_home) !! 0%nat
    = Some chat'
    /\ Chat.messages chat'
       = Chat.messages sample_chat
         ++ [Message.mk (lit "u2") User (trim (input sample_home)) 20 false false Done 0;
             Message.mk (lit "a2") Assistant [] 21 false false Thinking 0].
Proof.
  apply (proj1 (handleSubmit_appends_two (lit "u2") 20 (lit "a2") 21 22 2000
                  sample_home) sample_chat).
  - left. reflexivity.
  - reflexivity.
  - vm_compute. discriminate.
  - reflexivity.
  - reflexivity.
Defined.

(* ===================================================================== *)
(** ** Reactions *)
(* ===================================================================== *)

Lemma toggled_id cur mid ty c : Chat.id (toggled cur mid ty c) = Chat.id c.
Proof. unfold toggled. destruct (negb _); reflexivity. Qed.

Lemma react_exclusive ty m :
  Message.liked (react ty m) && Message.disliked (react ty m) = false.
Proof.
  destruct ty; simpl; destruct (Message.liked m), (Message.disliked m);
    reflexivity.
Qed.

Lemma react_id ty m : Message.id (react ty m) = Message.id m.
Proof. destruct ty; reflexivity. Qed.

Lemma react_role ty m : Message.role (react ty m) = Message.role m.
Proof. destruct ty; reflexivity. Qed.

Lemma reacts_snoc types ty m : reacts (types ++ [ty]) m = react ty (reacts types m).
Proof. unfold reacts. now rewrite fold_left_app. Qed.

(** One click: the current chat afterwards, and the targeted message in it. *)
Lemma toggleReaction_current st cur ty i m :
  currentChat st = Some cur -> Chat.messages cur !! i = Some m ->
  Message.role m = Assistant ->
  exists cur',
    currentChat (toggleReaction (Message.id m) ty st) = Some cur'
    /\ Chat.messages cur' !! i = Some (react ty m).
Proof.
  intros Hcur Hi Hrole. unfold toggleReaction. rewrite Hcur.
  rewrite currentChat_map by apply toggled_id. rewrite Hcur. simpl.
  eexists. split; [reflexivity|].
  unfold toggled. rewrite str_eqb_refl. simpl.
  rewrite lookup_map, Hi. simpl.
  rewrite str_eqb_refl, Hrole. reflexivity.
Qed.

(** C3. For every assistant message of the current chat and every finite
    sequence of [toggleReaction] calls on it with kind like or dislike, the
    message stored at its place afterwards is the one obtained by applying
    the calls in order, and after any call (a non-empty sequence) [liked]
    and [disliked] are not both true.  Each call flips the targeted flag,
    forces the opposite flag to false when the result is true, and on an
    already-true flag sets it to false and leaves the opposite flag alone. *)
Theorem toggleReaction_mutual_exclusion (st : Home) (cur : Chat.t) (i : nat)
    (m : Message.t) :
  currentChat st = Some cur ->
  Chat.messages cur !! i = Some m ->
  Message.role m = Assistant ->
  (forall types : list Reaction,
     exists cur',
       currentChat (toggles (Message.id m) types st) = Some cur'
       /\ Chat.messages cur' !! i = Some (reacts types m)
       /\ (types <> [] ->
           Message.liked (reacts types m) && Message.disliked (reacts types m)
           = false))
  /\ (forall m0 : Message.t,
        Message.liked (react Like m0) = negb (Message.liked m0)
        /\ Message.disliked (react Dislike m0) = negb (Message.disliked m0)
        /\ (Message.liked (react Like m0) = true ->
            Message.disliked (react Like m0) = false)
        /\ (Message.disliked (react Dislike m0) = true ->
            Message.liked (react Dislike m0) = false)
        /\ (Message.liked m0 = true ->
            Message.liked (react Like m0) = false
            /\ Message.disliked (react Like m0) = Message.disliked m0)
        /\ (Message.disliked m0 = true ->
            Message.disliked (react Dislike m0) = false
            /\ Message.liked (react Dislike m0) = Message.liked m0)).
Proof.
  intros Hcur Hi Hrole. split.
  - intros types. induction types as [|ty types IH] using rev_ind.
    + exists cur. repeat split; [exact Hcur|exact Hi|congruence].
    + destruct IH as (cur1 & Hcur1 & Hi1 & _).
      assert (Hrole1 : Message.role (reacts types m) = Assistant).
      { clear -Hrole. induction types as [|t ts IH] using rev_ind;
          [exact Hrole|]. now rewrite reacts_snoc, react_role. }
      assert (Hid1 : Message.id (reacts types m) = Message.id m).
      { clear. induction types as [|t ts IH] using rev_ind;
          [reflexivity|]. now rewrite reacts_snoc, react_id. }
      destruct (toggleReaction_current _ _ ty _ _ Hcur1 Hi1 Hrole1)
        as (cur2 & Hcur2 & Hi2).
      rewrite Hid1 in Hcur2.
      exists cur2. unfold toggles. rewrite fold_left_app. simpl.
      rewrite reacts_snoc. repeat split; [exact Hcur2|exact Hi2|].
      intros _. apply react_exclusive.
  - intros m0. simpl.
    destruct (Message.liked m0), (Message.disliked m0); simpl;
      repeat split; congruence.
Qed.

Lemma toggleReaction_mutual_exclusion_witness :
  exists cur',
    currentChat (toggles (lit "a1") [Like; Dislike; Dislike; Like] sample_home)
    = Some cur'
    /\ Chat.messages cur' !! 1%nat
       = Some (reacts [Like; Dislike; Dislike; Like] sample_reply)
    /\ ([Like; Dislike; Dislike; Like] <> [] ->
        Message.liked (reacts [Like; Dislike; Dislike; Like] sample_reply)
        && Message.disliked (reacts [Like; Dislike; Dislike; Like] sample_reply)
        = false).
Proof.
  apply (proj1 (toggleReaction_mutual_exclusion sample_home sample_chat 1
                  sample_reply eq_refl eq_refl eq_refl)).
Defined.

(** Like, then dislike: disliked only. *)
Example like_then_dislike :
  let m := reacts [Like; Dislike] sample_reply in
  Message.liked m = false /\ Message.disliked m = true.
Proof. split; reflexivity. Qed.

(* ===================================================================== *)
(** ** Regenerating a reply *)
(* ===================================================================== *)

Lemma regeneratedIn_id cur mid c : Chat.id (regeneratedIn cur mid c) = Chat.id c.
Proof. unfold regeneratedIn. destruct (negb _); reflexivity. Qed.

Lemma currentChat_startAssistantResponse cid mid delay st :
  currentChat (startAssistantResponse cid mid delay st) = currentChat st.
Proof. reflexivity. Qed.

Lemma handleRegenerate_chats mid delay st cur :
  currentChat st = Some cur ->
  chats (handleRegenerate mid delay st) = map (regeneratedIn cur mid) (chats st).
Proof. intros Hcur. unfold handleRegenerate. now rewrite Hcur. Qed.

Lemma handleRegenerate_pending mid delay st cur :
  currentChat st = Some cur ->
  pending (handleRegenerate mid delay st)
  = pending st ++ [mkTimer (nextHandle st) (Chat.id cur) mid delay].
Proof. intros Hcur. unfold handleRegenerate. now rewrite Hcur. Qed.

(** [x + 1] is exact on the integers of magnitude up to 2^53, and never
    gives less than [x]. *)
Lemma add_one_safe (x : Z) :
  (- TWO_53 <= x < TWO_53)%Z -> add_one x = (x + 1)%Z.
Proof.
  intros [H1 H2]. unfold add_one.
  rewrite (proj2 (Z.leb_le _ _) H1), (proj2 (Z.ltb_lt _ _) H2). reflexivity.
Qed.

Lemma add_one_ge (x : Z) : (x <= add_one x)%Z.
Proof.
  unfold add_one. destruct (_ && _); [lia|].
  destruct (_ <? _)%Z; [|lia]. destruct (Z.even _); lia.
Qed.

Lemma add_one_saturated : add_one TWO_53 = TWO_53.
Proof. reflexivity. Qed.

Lemma recordTimer_lookup mid h ref :
  mid <> PROTO -> recordTimer mid h ref !! mid = Some h.
Proof.
  intros H. unfold recordTimer.
  rewrite (proj2 (str_eqb_neq _ _) H). apply lookup_insert_eq.
Qed.

(** C5, with the bound and the id it needs.  For every message [m] of the
    current chat (an assistant message in particular), [handleRegenerate]
    on its id leaves at its place a message with the same id and role,
    empty content, status thinking, [liked] and [disliked] false and the
    version [add_one] gives, which is never lower; it arms one new timeout
    for that chat and message, under the next handle of the browser.  When
    the version is an integer of magnitude below 2^53 the new version is
    the old one plus one, strictly greater; and unless the id is
    ["__proto__"] the handle is recorded under the message id. *)
Theorem handleRegenerate_resets (st : Home) (cur : Chat.t) (i : nat)
    (m : Message.t) (delay : Z) :
  currentChat st = Some cur ->
  Chat.messages cur !! i = Some m ->
  let st' := handleRegenerate (Message.id m) delay st in
  exists cur' m',
    currentChat st' = Some cur'
    /\ Chat.messages cur' !! i = Some m'
    /\ Message.id m' = Message.id m
    /\ Message.role m' = Message.role m
    /\ Message.content m' = []
    /\ Message.status m' = Thinking
    /\ Message.liked m' = false
    /\ Message.disliked m' = false
    /\ Message.version m' = add_one (Message.version m)
    /\ (Message.version m <= Message.version m')%Z
    /\ ((- TWO_53 <= Message.version m < TWO_53)%Z ->
        Message.version m' = (Message.version m + 1)%Z
        /\ (Message.version m < Message.version m')%Z)
    /\ pending st'
       = pending st ++ [mkTimer (nextHandle st) (Chat.id cur) (Message.id m) delay]
    /\ (Message.id m <> PROTO ->
        timersRef st' !! Message.id m = Some (nextHandle st))
    /\ nextHandle st' = S (nextHandle st).
Proof.
  intros Hcur Hi st'. subst st'. unfold handleRegenerate. rewrite Hcur.
  rewrite currentChat_startAssistantResponse.
  rewrite currentChat_map by apply regeneratedIn_id. rewrite Hcur.
  cbn [option_map].
  exists (regeneratedIn cur (Message.id m) cur), (regenerated m).
  split; [reflexivity|]. split.
  { unfold regeneratedIn. rewrite str_eqb_refl. cbn [negb Chat.with_messages
      Chat.messages].
    rewrite lookup_map, Hi. cbn [option_map]. now rewrite str_eqb_refl. }
  cbn [regenerated Message.id Message.role Message.content Message.status
       Message.liked Message.disliked Message.version].
  do 7 (split; [reflexivity|]).
  split; [apply add_one_ge|]. split.
  { intros Hb. rewrite (add_one_safe _ Hb). split; [reflexivity|lia]. }
  split; [reflexivity|]. split; [|reflexivity].
  intros Hid. now apply recordTimer_lookup.
Qed.

Lemma handleRegenerate_resets_witness :
  let st' := handleRegenerate (Message.id sample_reply) 1900 sample_home in
  (- TWO_53 <= Message.version sample_reply < TWO_53)%Z
  /\ Message.id sample_reply <> PROTO
  /\ exists cur' m',
    currentChat st' = Some cur'
    /\ Chat.messages cur' !! 1%nat = Some m'
    /\ Message.id m' = Message.id sample_reply
    /\ Message.role m' = Message.role sample_reply
    /\ Message.content m' = []
    /\ Message.status m' = Thinking
    /\ Message.liked m' = false
    /\ Message.disliked m' = false
    /\ Message.version m' = add_one (Message.version sample_reply)
    /\ (Message.version sample_reply <= Message.version m')%Z
    /\ ((- TWO_53 <= Message.version sample_reply < TWO_53)%Z ->
        Message.version m' = (Message.version sample_reply + 1)%Z
        /\ (Message.version sample_reply < Message.version m')%Z)
    /\ pending st'
       = pending sample_home
         ++ [mkTimer (nextHandle sample_home) (Chat.id sample_chat)
               (Message.id sample_reply) 1900]
    /\ (Message.id sample_reply <> PROTO ->
        timersRef st' !! Message.id sample_reply = Some (nextHandle sample_home))
    /\ nextHandle st' = S (nextHandle sample_home).
Proof.
  split; [unfold TWO_53, sample_reply; cbn [Message.version]; lia|].
  split; [vm_compute; discriminate|].
  apply (handleRegenerate_resets sample_home sample_chat 1 sample_reply 1900
           eq_refl eq_refl).
Defined.

(** At a version of 2^53, which [loadChats] keeps if the storage holds it,
    the regenerated message has the version it had: [2^53 + 1] is no double
    and the sum rounds back.  And under the id ["__proto__"] the timeout is
    armed but no handle is recorded. *)
Lemma handleRegenerate_resets_counterexample :
  let st' := handleRegenerate (lit "a1") 1900 sample_aged_home in
  let st'' := handleRegenerate PROTO 1900 sample_aged_home in
  map (fun c => map Message.version (Chat.messages c)) (chats sample_aged_home)
  = [[0%Z; TWO_53; 7%Z]]
  /\ map (fun c => map Message.status (Chat.messages c)) (chats st')
     = [[Done; Thinking; Done]]
  /\ map (fun c => map Message.version (Chat.messages c)) (chats st')
     = [[0%Z; TWO_53; 7%Z]]
  /\ ~ (TWO_53 < TWO_53)%Z
  /\ map (fun c => map Message.status (Chat.messages c)) (chats st'')
     = [[Done; Done; Thinking]]
  /\ pending st'' = [mkTimer 1 (lit "c1") PROTO 1900]
  /\ timersRef st'' !! PROTO = None.
Proof.
  repeat split; try (vm_compute; reflexivity). intros H. discriminate H.
Qed.

(* ===================================================================== *)
(** ** The [updatedAt] timestamp *)
(* ===================================================================== *)

Lemma map_updatedAt_frame (f : Chat.t -> Chat.t) (l : list Chat.t) :
  (forall c, Chat.updatedAt (f c) = Chat.updatedAt c) ->
  map Chat.updatedAt (map f l) = map Chat.updatedAt l.
Proof.
  intros Hf. rewrite map_map. apply map_ext. exact Hf.
Qed.

Lemma toggleReaction_updatedAt mid ty st :
  map Chat.updatedAt (chats (toggleReaction mid ty st))
  = map Chat.updatedAt (chats st).
Proof.
  unfold toggleReaction. destruct (currentChat st) as [cur|]; [|reflexivity].
  apply map_updatedAt_frame. intros c. unfold toggled.
  destruct (negb _); reflexivity.
Qed.

Lemma handleRegenerate_updatedAt mid delay st :
  map Chat.updatedAt (chats (handleRegenerate mid delay st))
  = map Chat.updatedAt (chats st).
Proof.
  unfold handleRegenerate. destruct (currentChat st) as [cur|]; [|reflexivity].
  apply map_updatedAt_frame. intros c. unfold regeneratedIn.
  destruct (negb _); reflexivity.
Qed.

(** C7, as the code has it.  The two operations that read the clock refresh
    [updatedAt]: after an effective [handleSubmit] and after a reply timeout
    ran, every chat the operation wrote to carries the time read by that
    operation.  [toggleReaction] and [handleRegenerate] read no clock and
    leave every chat's [updatedAt] as it was, although they rewrite the
    message list. *)
Theorem updatedAt_refreshed_by_send_and_resolution :
  (forall uid tu aid ta now delay st cur i chat,
      currentChat st = Some cur -> trim (input st) <> [] ->
      chats st !! i = Some chat -> Chat.id chat = Chat.id cur ->
      exists chat',
        chats (handleSubmit uid tu aid ta now delay st) !! i = Some chat'
        /\ Chat.updatedAt chat' = now)
  /\ (forall t now st i chat,
        chats st !! i = Some chat -> Chat.id chat = chatId t ->
        exists chat',
          chats (timerCallback t now st) !! i = Some chat'
          /\ Chat.updatedAt chat' = now)
  /\ (forall mid ty st,
        map Chat.updatedAt (chats (toggleReaction mid ty st))
        = map Chat.updatedAt (chats st))
  /\ (forall mid delay st,
        map Chat.updatedAt (chats (handleRegenerate mid delay st))
        = map Chat.updatedAt (chats st)).
Proof.
  split; [|split; [|split]].
  - intros uid tu aid ta now delay st cur i chat Hcur Hne Hi Hid.
    rewrite (handleSubmit_chats _ _ _ _ _ _ _ _ Hcur Hne), lookup_map, Hi.
    eexists. split; [reflexivity|].
    unfold submitted. rewrite Hid, str_eqb_refl. reflexivity.
  - intros t now st i chat Hi Hid. unfold timerCallback. simpl.
    rewrite lookup_map, Hi. eexists. split; [reflexivity|].
    unfold resolvedIn. rewrite Hid, str_eqb_refl. reflexivity.
  - apply toggleReaction_updatedAt.
  - apply handleRegenerate_updatedAt.
Qed.

Lemma updatedAt_refreshed_by_send_and_resolution_witness :
  exists chat',
    chats (handleSubmit (lit "u2") 20 (lit "a2") 21 22 2000 sample_home) !! 0%nat
    = Some chat'
    /\ Chat.updatedAt chat' = 22%Z.
Proof.
  apply (proj1 updatedAt_refreshed_by_send_and_resolution
           (lit "u2") 20%Z (lit "a2") 21%Z 22%Z 2000%Z sample_home sample_chat
           0%nat sample_chat eq_refl).
  - vm_compute. discriminate.
  - reflexivity.
  - reflexivity.
Defined.

(** A like on the sample reply, and a regenerate of it, rewrite the chat's
    message list; the chat's [updatedAt] is still the 12 it was, whatever
    the time of the click. *)
Lemma toggleReaction_keeps_updatedAt_counterexample :
  let liked := toggleReaction (lit "a1") Like sample_home in
  let again := handleRegenerate (lit "a1") 1900 sample_home in
  map Chat.updatedAt (chats sample_home) = [12%Z]
  /\ map Chat.messages (chats liked) <> map Chat.messages (chats sample_home)
  /\ map Chat.updatedAt (chats liked) = [12%Z]
  /\ map Chat.messages (chats again) <> map Chat.messages (chats sample_home)
  /\ map Chat.updatedAt (chats again) = [12%Z].
Proof.
  repeat split; try reflexivity; vm_compute; discriminate.
Qed.

(* ===================================================================== *)
(** ** Renaming a conversation *)
(* ===================================================================== *)

Lemma renameConversation_unfold c proposed st :
  renameConversation c proposed st
  = if is_empty (Chat.id c) then
      setRenameValue proposed (startRename c st)
    else
      setRenameValue []
        (setEditingChatId None
           (setChats (map (renamed (Chat.id c) (if is_empty (trim proposed) then DEFAULT_CHAT_TITLE
                 else trim proposed)))
              (setRenameValue proposed (startRename c st)))).
Proof.
  unfold renameConversation, commitRename. cbn [editingChatId setRenameValue
    startRename setEditingChatId renameValue].
  rewrite str_eqb_refl. destruct (is_empty (Chat.id c)); reflexivity.
Qed.

Lemma renamed_idem e ti c : renamed e ti (renamed e ti c) = renamed e ti c.
Proof.
  unfold renamed. destruct (str_eqb (Chat.id c) e) eqn:E; simpl.
  - now rewrite E.
  - now rewrite E.
Qed.

Lemma is_empty_false (s : jsstring) : s <> [] -> is_empty s = false.
Proof. destruct s; [congruence|reflexivity]. Qed.

(** C9, for the ids it holds of.  For every conversation [c] whose id is
    not the empty string (no id [createId] makes is empty) and every
    proposed title,
    [renameConversation] leaves at the place of [c], and of any chat that
    carries its id, a chat whose title is the proposed title trimmed, or
    "New chat" if the trim is empty, and whose [isCustomTitle] is true,
    whatever the title was and whatever the derived title would be; and
    renaming again with the same proposed title returns the same state. *)
Theorem renameConversation_sets_title (st : Home) (c : Chat.t)
    (proposedTitle : jsstring) :
  Chat.id c <> [] ->
  let st' := renameConversation c proposedTitle st in
  (forall i chat, chats st !! i = Some chat -> Chat.id chat = Chat.id c ->
     exists chat',
       chats st' !! i = Some chat'
       /\ Chat.title chat'
          = (if is_empty (trim proposedTitle) then DEFAULT_CHAT_TITLE
             else trim proposedTitle)
       /\ Chat.isCustomTitle chat' = true)
  /\ (forall c', Chat.id c' = Chat.id c ->
        renameConversation c' proposedTitle st' = st').
Proof.
  intros Hid st'. subst st'. split.
  - intros i chat Hi Hc. rewrite renameConversation_unfold.
    rewrite (is_empty_false _ Hid). cbn [chats setRenameValue setEditingChatId
      setChats]. replace (chats (startRename c st)) with (chats st)
      by (unfold startRename; destruct (_ && _); reflexivity).
    rewrite lookup_map, Hi. eexists. split; [reflexivity|].
    unfold renamed. rewrite Hc, str_eqb_refl. split; reflexivity.
  - intros c' Hc'. rewrite !renameConversation_unfold, Hc'.
    rewrite (is_empty_false _ Hid). unfold startRename.
    destruct st as [cs a inp e rv sc mo im tr pe nh].
    destruct sc, im;
      cbv beta iota delta [setRenameValue setEditingChatId setChats
        setSidebarCollapsed chats activeChatId input editingChatId
        renameValue sidebarCollapsed mobileSidebarOpen isMobile timersRef
        pending nextHandle andb negb];
      f_equal; rewrite map_map; apply map_ext; intros x; apply renamed_idem.
Qed.

Lemma renameConversation_sets_title_witness :
  Chat.id sample_chat <> []
  /\ exists chat',
       chats (renameConversation sample_chat (lit "  My chat ") sample_home) !! 0%nat
       = Some chat'
       /\ Chat.title chat'
          = (if is_empty (trim (lit "  My chat ")) then DEFAULT_CHAT_TITLE
             else trim (lit "  My chat "))
       /\ Chat.isCustomTitle chat' = true.
Proof.
  assert (H : Chat.id sample_chat <> []) by (vm_compute; discriminate).
  split; [exact H|].
  apply (proj1 (renameConversation_sets_title sample_home sample_chat
                  (lit "  My chat ") H) 0%nat sample_chat eq_refl eq_refl).
Defined.

(** A chat whose id is the empty string, as a persisted collection may
    hold it ([loadChats] keeps the id it finds): the guard [!editingChatId]
    of [commitRename] takes the id for no id, nothing is renamed, and the
    rename field stays open. *)
Lemma renameConversation_sets_title_counterexample :
  let st' := renameConversation sample_unnamed_chat (lit "My chat")
               sample_unnamed_home in
  map Chat.id (chats sample_unnamed_home) = [[]]
  /\ map Chat.title (chats sample_unnamed_home) = [lit "hi"]
  /\ map Chat.title (chats st') = [lit "hi"]
  /\ map Chat.title (chats st') <> [lit "My chat"]
  /\ map Chat.isCustomTitle (chats st') = [false]
  /\ editingChatId st' = Some [].
Proof.
  repeat split; try reflexivity. vm_compute. discriminate.
Qed.

Example renameConversation_ex :
  map Chat.title (chats (renameConversation sample_chat (lit "  My chat ") sample_home))
  = [lit "My chat"].
Proof. reflexivity. Qed.

(** C10. [renameConversation] leaves the active selection as it was and
    keeps the collection's length and order; every chat keeps its id,
    messages, [createdAt] and [updatedAt], and a chat whose id is not the
    target's is the same chat afterwards: only the title and
    [isCustomTitle] of the target change.  Nothing else of the store
    changes either: the typed input and the timers are as before. *)
Theorem renameConversation_frame (st : Home) (c : Chat.t)
    (proposedTitle : jsstring) :
  let st' := renameConversation c proposedTitle st in
  activeChatId st' = activeChatId st
  /\ input st' = input st
  /\ pending st' = pending st
  /\ timersRef st' = timersRef st
  /\ length (chats st') = length (chats st)
  /\ (forall i chat, chats st !! i = Some chat ->
        exists chat',
          chats st' !! i = Some chat'
          /\ Chat.id chat' = Chat.id chat
          /\ Chat.messages chat' = Chat.messages chat
          /\ Chat.createdAt chat' = Chat.createdAt chat
          /\ Chat.updatedAt chat' = Chat.updatedAt chat
          /\ (Chat.id chat <> Chat.id c -> chat' = chat)).
Proof.
  intros st'. subst st'. rewrite renameConversation_unfold.
  assert (Hs : forall v, chats (setRenameValue v (startRename c st)) = chats st
                         /\ activeChatId (setRenameValue v (startRename c st)) = activeChatId st
                         /\ input (setRenameValue v (startRename c st)) = input st
                         /\ pending (setRenameValue v (startRename c st)) = pending st
                         /\ timersRef (setRenameValue v (startRename c st)) = timersRef st).
  { intros v. unfold startRename. destruct (_ && _); repeat split. }
  destruct (Hs proposedTitle) as (H1 & H2 & H3 & H4 & H5).
  destruct (is_empty (Chat.id c)).
  - rewrite H1, H2, H3, H4, H5. repeat split.
    intros i chat Hi. exists chat. repeat split. exact Hi.
  - cbn [chats activeChatId input pending timersRef setRenameValue
         setEditingChatId setChats] in *.
    rewrite H1, H2, H3, H4, H5.
    repeat split; [now rewrite length_map|].
    intros i chat Hi. rewrite lookup_map, Hi. eexists. split; [reflexivity|].
    unfold renamed. destruct (str_eqb (Chat.id chat) (Chat.id c)) eqn:E;
      repeat split; try reflexivity.
    apply str_eqb_eq in E. congruence.
Qed.

Lemma renameConversation_frame_witness :
  exists chat',
    chats (renameConversation sample_chat (lit "x") sample_home) !! 0%nat
    = Some chat'
    /\ Chat.id chat' = Chat.id sample_chat
    /\ Chat.messages chat' = Chat.messages sample_chat
    /\ Chat.createdAt chat' = Chat.createdAt sample_chat
    /\ Chat.updatedAt chat' = Chat.updatedAt sample_chat
    /\ (Chat.id sample_chat <> Chat.id sample_chat -> chat' = sample_chat).
Proof.
  apply (proj2 (proj2 (proj2 (proj2 (proj2
           (renameConversation_frame sample_home sample_chat (lit "x"))))))
           0%nat sample_chat eq_refl).
Defined.

(* ===================================================================== *)
(** ** The "hello world" scenario *)
(* ===================================================================== *)

Lemma currentChat_head st c l :
  chats st = c :: l -> activeChatId st = Some (Chat.id c) ->
  currentChat st = Some c.
Proof.
  intros H1 H2. unfold currentChat. rewrite H1, H2. simpl.
  now rewrite str_eqb_refl.
Qed.

Lemma handleSubmit_pending uid tu aid ta now delay st cur :
  currentChat st = Some cur -> trim (input st) <> [] ->
  pending (handleSubmit uid tu aid ta now delay st)
  = pending st ++ [mkTimer (nextHandle st) (Chat.id cur) aid delay].
Proof.
  intros Hcur Hne. unfold handleSubmit. rewrite Hcur.
  destruct (trim (input st)) eqn:E; [congruence|]. reflexivity.
Qed.

Lemma fire_found h now st t :
  List.find (fun t' => Nat.eqb (handle t') h) (pending st) = Some t ->
  chats (fire h now st)
  = map (resolvedIn (chatId t) (messageId t) now) (chats st)
  /\ pending (fire h now st)
     = List.filter (fun t' => negb (Nat.eqb (handle t') h)) (pending st).
Proof. intros H. unfold fire. rewrite H. split; reflexivity. Qed.

Lemma scenario_sent_eq mobile cid t1 t2 uid tu aid ta now delay :
  chats (scenario_sent mobile cid t1 t2 uid tu aid ta now delay)
  = [Chat.mk cid (lit "hello world")
       [Message.mk uid User (lit "hello world") tu false false Done 0;
        Message.mk aid Assistant [] ta false false Thinking 0]
       t1 now false]
  /\ pending (scenario_sent mobile cid t1 t2 uid tu aid ta now delay)
     = [mkTimer 0 cid aid delay].
Proof.
  unfold scenario_sent.
  set (st1 := setInput (lit "  hello world  ") (scenario_created mobile cid t1 t2)).
  assert (Hchats : chats st1 = [createChat cid t1 t2])
    by (destruct mobile; reflexivity).
  assert (Hact : activeChatId st1 = Some cid) by (destruct mobile; reflexivity).
  assert (Hpend : pending st1 = []) by (destruct mobile; reflexivity).
  assert (Hnext : nextHandle st1 = 0%nat) by (destruct mobile; reflexivity).
  assert (Htrim : trim (input st1) = lit "hello world") by reflexivity.
  assert (Hcur : currentChat st1 = Some (createChat cid t1 t2))
    by (apply (currentChat_head _ _ [] Hchats), Hact).
  assert (Hne : trim (input st1) <> []) by (rewrite Htrim; discriminate).
  rewrite (handleSubmit_chats _ _ _ _ _ _ _ _ Hcur Hne).
  rewrite (handleSubmit_pending _ _ _ _ _ _ _ _ Hcur Hne).
  rewrite Hchats, Hpend, Hnext, Htrim. split; [|reflexivity].
  unfold submitted. cbn [map]. rewrite str_eqb_refl. reflexivity.
Qed.

(** C8, as the code has it.  From the empty store, [handleNewChat] and then
    [handleSubmit] of "  hello world  " leave one conversation whose
    messages are exactly the user message "hello world" (done) and the
    assistant message (empty, thinking) and whose title is already
    "hello world": the title is written by the same update that appends the
    messages.  One timeout is armed.  When it has run, the assistant message
    holds the reply text ("ok" and a thumbs-up) with status done and
    version 1, the title is still "hello world", without ellipsis, and no
    timeout is armed; the user message is as it was when the two message
    ids differ (the resolution writes every message that carries the
    assistant message's id). *)
Theorem scenario_hello_world mobile cid t1 t2 uid tu aid ta now delay later :
  let user := Message.mk uid User (lit "hello world") tu false false Done 0 in
  chats (scenario_sent mobile cid t1 t2 uid tu aid ta now delay)
  = [Chat.mk cid (lit "hello world")
       [user; Message.mk aid Assistant [] ta false false Thinking 0]
       t1 now false]
  /\ pending (scenario_sent mobile cid t1 t2 uid tu aid ta now delay)
     = [mkTimer 0 cid aid delay]
  /\ chats (scenario_replied mobile cid t1 t2 uid tu aid ta now delay later)
     = [Chat.mk cid (lit "hello world")
          [if str_eqb uid aid then resolved user else user;
           Message.mk aid Assistant ASSISTANT_REPLY ta false false Done 1]
          t1 later false]
  /\ (uid <> aid ->
      chats (scenario_replied mobile cid t1 t2 uid tu aid ta now delay later)
      = [Chat.mk cid (lit "hello world")
           [user;
            Message.mk aid Assistant ASSISTANT_REPLY ta false false Done 1]
           t1 later false])
  /\ pending (scenario_replied mobile cid t1 t2 uid tu aid ta now delay later)
     = [].
Proof.
  intros user. subst user.
  destruct (scenario_sent_eq mobile cid t1 t2 uid tu aid ta now delay)
    as [Hchats Hpend].
  split; [exact Hchats|]. split; [exact Hpend|].
  unfold scenario_replied.
  destruct (fire_found 0 later
              (scenario_sent mobile cid t1 t2 uid tu aid ta now delay)
              (mkTimer 0 cid aid delay)) as [Hc Hp].
  { rewrite Hpend. reflexivity. }
  rewrite Hc, Hp, Hchats, Hpend.
  set (user := Message.mk uid User (lit "hello world") tu false false Done 0).
  assert (Hreplied :
            map (resolvedIn (chatId (mkTimer 0 cid aid delay))
                   (messageId (mkTimer 0 cid aid delay)) later)
              [Chat.mk cid (lit "hello world")
                 [user; Message.mk aid Assistant [] ta false false Thinking 0]
                 t1 now false]
            = [Chat.mk cid (lit "hello world")
                 [if str_eqb uid aid then resolved user else user;
                  Message.mk aid Assistant ASSISTANT_REPLY ta false false Done 1]
                 t1 later false]).
  { unfold resolvedIn.
    cbn [map chatId messageId Chat.id Chat.messages Message.id user].
    rewrite !str_eqb_refl. reflexivity. }
  split; [exact Hreplied|]. split; [|reflexivity].
  intros Hne. rewrite Hreplied.
  now rewrite (proj2 (str_eqb_neq uid aid) Hne).
Qed.

Lemma scenario_hello_world_witness :
  chats (scenario_sent false (lit "c") 1 2 (lit "u") 3 (lit "a") 4 5 2000)
  = [Chat.mk (lit "c") (lit "hello world")
       [Message.mk (lit "u") User (lit "hello world") 3 false false Done 0;
        Message.mk (lit "a") Assistant [] 4 false false Thinking 0]
       1 5 false]
  /\ pending (scenario_sent false (lit "c") 1 2 (lit "u") 3 (lit "a") 4 5 2000)
     = [mkTimer 0 (lit "c") (lit "a") 2000]
  /\ chats (scenario_replied false (lit "c") 1 2 (lit "u") 3 (lit "a") 4 5 2000 2005)
     = [Chat.mk (lit "c") (lit "hello world")
          [Message.mk (lit "u") User (lit "hello world") 3 false false Done 0;
           Message.mk (lit "a") Assistant ASSISTANT_REPLY 4 false false Done 1]
          1 2005 false]
  /\ pending (scenario_replied false (lit "c") 1 2 (lit "u") 3 (lit "a") 4 5 2000 2005)
     = [].
Proof.
  pose proof (scenario_hello_world false (lit "c") 1 2 (lit "u") 3 (lit "a")
                4 5 2000 2005) as (H1 & H2 & _ & H4 & H5).
  split; [exact H1|]. split; [exact H2|]. split; [|exact H5].
  apply H4. vm_compute. discriminate.
Defined.

(** Right after the send the title is "hello world", not "New chat". *)
Lemma scenario_title_counterexample :
  let sent := scenario_sent false (lit "c") 1 2 (lit "u") 3 (lit "a") 4 5 2000 in
  map Chat.title (chats (scenario_created false (lit "c") 1 2)) = [lit "New chat"]
  /\ map Chat.title (chats sent) = [lit "hello world"]
  /\ map Chat.title (chats sent) <> [lit "New chat"]
  /\ map (fun c => map Message.status (Chat.messages c)) (chats sent)
     = [[Done; Thinking]].
Proof.
  repeat split; try reflexivity. vm_compute. discriminate.
Qed.

(* ===================================================================== *)
(** ** Loading the persisted collection *)
(* ===================================================================== *)

Lemma assoc_put_eq key v props : assoc key (put key v props) = Some v.
Proof.
  induction props as [|[k v'] props IH]; simpl.
  - now rewrite str_eqb_refl.
  - destruct (str_eqb k key) eqn:E; simpl; rewrite E; [reflexivity|exact IH].
Qed.

Lemma assoc_put_ne key key' v props :
  key <> key' -> assoc key' (put key v props) = assoc key' props.
Proof.
  intros Hne. induction props as [|[k v'] props IH]; simpl.
  - replace (str_eqb key key') with false
      by (symmetry; now apply str_eqb_neq). reflexivity.
  - destruct (str_eqb k key) eqn:E; simpl.
    + apply str_eqb_eq in E. subst k.
      replace (str_eqb key key') with false
        by (symmetry; now apply str_eqb_neq). reflexivity.
    + now rewrite IH.
Qed.

Lemma nullish_defaulted key d persisted loaded :
  assoc key loaded = Some (nullish (assoc key persisted) d) ->
  defaulted key d persisted loaded.
Proof.
  unfold defaulted, nullish.
  destruct (assoc key persisted) as [[]|]; auto.
Qed.

#[local] Ltac put_lookup :=
  repeat first
    [ rewrite assoc_put_eq
    | rewrite assoc_put_ne by (vm_compute; discriminate) ].

(** A message that is an object loads, with the four defaults. *)
Lemma loadMessage_object props :
  exists props',
    loadMessage (JObj props) = Some (JObj props')
    /\ message_defaulted props props'.
Proof.
  eexists. split; [reflexivity|]. unfold message_defaulted.
  repeat split; try (apply nullish_defaulted; put_lookup; reflexivity).
  intros k Hk.
  rewrite !assoc_put_ne; [reflexivity|..]; intros <-; apply Hk; cbn [In]; auto 6.
Qed.

(** Only an object with an array under [messages], all of whose elements
    load, loads as a chat. *)
Lemma loadChat_Some chat out :
  loadChat chat = Some out ->
  exists props msgs msgs',
    chat = JObj props
    /\ assoc K_messages props = Some (JArr msgs)
    /\ mapM loadMessage msgs = Some msgs'
    /\ out = JObj (put K_messages (JArr msgs')
                    (put K_isCustomTitle
                       (nullish (assoc K_isCustomTitle props) (JBool false))
                       props)).
Proof.
  unfold loadChat. destruct chat; simpl; try discriminate.
  destruct (assoc K_messages props) as [[]|] eqn:Em; try discriminate.
  destruct (mapM loadMessage items) as [msgs'|] eqn:El; simpl; [|discriminate].
  intros [= <-]. eauto 10.
Qed.

Lemma loadChats_stored parse s items id created updated :
  is_empty s = false -> parse s = Some (JArr items) -> items <> [] ->
  loadChats parse true (Stored s) id created updated
  = match mapM loadChat items with
    | Some chats => chats
    | None => [encodeChat (createChat id created updated)]
    end.
Proof.
  intros Hs Hp Hi. unfold loadChats. simpl. rewrite Hs, Hp.
  destruct items; [congruence|reflexivity].
Qed.

(** C6. [loadChats] always returns a collection and it is never empty: no
    error leaves it.  Without a window, when the read fails, when the key is
    absent or holds the empty string, when the text does not parse, when it
    parses to something that is not an array or to the empty array, and when
    an element of the array does not load, the result is exactly one freshly
    created default conversation.  Otherwise the result has one object per
    persisted conversation, in order; in it a missing [isCustomTitle] is
    defaulted to false, [messages] holds one object per persisted message,
    and every other property is as persisted; in each message object a
    missing [liked], [disliked], [status] or [version] is defaulted to
    false, false, "done" and 0, and every other property is as persisted.
    A property is missing when it is absent or holds [null]; one that holds
    any other value is kept ([defaulted]). *)
Theorem loadChats_defaults (JSON_parse : jsstring -> option json)
    (id : jsstring) (created updated : Z) :
  let fresh := [encodeChat (createChat id created updated)] in
  (forall hasWindow saved,
      loadChats JSON_parse hasWindow saved id created updated <> [])
  /\ (forall saved, loadChats JSON_parse false saved id created updated = fresh)
  /\ loadChats JSON_parse true ReadFails id created updated = fresh
  /\ loadChats JSON_parse true Absent id created updated = fresh
  /\ loadChats JSON_parse true (Stored []) id created updated = fresh
  /\ (forall s, JSON_parse s = None ->
        loadChats JSON_parse true (Stored s) id created updated = fresh)
  /\ (forall s v, JSON_parse s = Some v -> (forall items, v <> JArr items) ->
        loadChats JSON_parse true (Stored s) id created updated = fresh)
  /\ (forall s, JSON_parse s = Some (JArr []) ->
        loadChats JSON_parse true (Stored s) id created updated = fresh)
  /\ (forall s items, JSON_parse s = Some (JArr items) ->
        mapM loadChat items = None ->
        loadChats JSON_parse true (Stored s) id created updated = fresh)
  /\ (forall s items loaded,
        s <> [] -> JSON_parse s = Some (JArr items) -> items <> [] ->
        mapM loadChat items = Some loaded ->
        loadChats JSON_parse true (Stored s) id created updated = loaded
        /\ length loaded = length items
        /\ forall i chat, items !! i = Some chat ->
           exists props msgs props' msgs',
             chat = JObj props
             /\ assoc K_messages props = Some (JArr msgs)
             /\ loaded !! i = Some (JObj props')
             /\ defaulted K_isCustomTitle (JBool false) props props'
             /\ assoc K_messages props' = Some (JArr msgs')
             /\ kept_except [K_isCustomTitle; K_messages] props props'
             /\ length msgs' = length msgs
             /\ forall j mprops, msgs !! j = Some (JObj mprops) ->
                exists mprops',
                  msgs' !! j = Some (JObj mprops')
                  /\ message_defaulted mprops mprops').
Proof.
  intros fresh. repeat apply conj.
  - intros hasWindow saved. unfold loadChats.
    destruct (negb hasWindow); [discriminate|].
    destruct saved as [| |s]; try discriminate.
    destruct (is_empty s); [discriminate|].
    destruct (JSON_parse s) as [[]|]; try discriminate.
    destruct items as [|x items]; [discriminate|].
    destruct (mapM loadChat (x :: items)) as [l|] eqn:E; [|discriminate].
    apply length_mapM in E. destruct l; [discriminate|discriminate].
  - reflexivity.
  - reflexivity.
  - reflexivity.
  - reflexivity.
  - intros s Hs. unfold loadChats. simpl. rewrite Hs.
    destruct (is_empty s); reflexivity.
  - intros s v Hs Hv. unfold loadChats. simpl. rewrite Hs.
    destruct (is_empty s); [reflexivity|].
    destruct v; try reflexivity. now destruct (Hv items).
  - intros s Hs. unfold loadChats. simpl. rewrite Hs.
    destruct (is_empty s); reflexivity.
  - intros s items Hs Hm. unfold loadChats. simpl. rewrite Hs, Hm.
    destruct (is_empty s); [reflexivity|]. destruct items; reflexivity.
  - intros s items loaded Hne Hs Hi Hm.
    rewrite (loadChats_stored _ _ _ _ _ _ (is_empty_false _ Hne) Hs Hi), Hm.
    split; [reflexivity|]. split; [symmetry; apply (length_mapM _ _ _ Hm)|].
    intros i chat Hchat.
    apply mapM_Some_1 in Hm.
    destruct (Forall2_lookup_l _ _ _ _ _ Hm Hchat) as (out & Hout & Hload).
    destruct (loadChat_Some _ _ Hload) as (props & msgs & msgs' & -> & Hmsgs & Hmm & ->).
    eexists props, msgs, _, msgs'. split; [reflexivity|]. split; [exact Hmsgs|].
    split; [exact Hout|]. split.
    { apply nullish_defaulted. put_lookup. reflexivity. }
    split; [apply assoc_put_eq|]. split.
    { intros k Hk.
      rewrite !assoc_put_ne; [reflexivity|..]; intros <-; apply Hk;
        cbn [In]; auto 6. }
    split; [symmetry; apply (length_mapM _ _ _ Hmm)|].
    intros j mprops Hj. apply mapM_Some_1 in Hmm.
    destruct (Forall2_lookup_l _ _ _ _ _ Hmm Hj) as (mout & Hmout & Hml).
    destruct (loadMessage_object mprops) as (mprops' & Hl & Hd).
    rewrite Hl in Hml. injection Hml as <-. eauto.
Qed.

Lemma loadChats_defaults_witness :
  loadChats (fun _ => Some sample_persisted) true (Stored (lit "saved"))
    (lit "n") 0 0
  = [JObj [(lit "id", JStr (lit "c1")); (lit "title", JStr (lit "t"));
           (K_messages,
            JArr [JObj [(lit "id", JStr (lit "m1"));
                        (lit "role", JStr (lit "assistant"));
                        (lit "content", JStr (lit "ok"));
                        (lit "createdAt", JNum 7);
                        (K_liked, JBool false);
                        (K_disliked, JBool false);
                        (K_status, JStr (lit "done"));
                        (K_version, JNum 0)]]);
           (lit "createdAt", JNum 5); (lit "updatedAt", JNum 6);
           (K_isCustomTitle, JBool false)]].
Proof.
  pose proof (loadChats_defaults (fun _ => Some sample_persisted) (lit "n") 0 0)
    as (_ & _ & _ & _ & _ & _ & _ & _ & _ & H).
  assert (Hs : lit "saved" <> []) by (vm_compute; discriminate).
  assert (Hi : [JObj [(lit "id", JStr (lit "c1")); (lit "title", JStr (lit "t"));
                      (K_messages, JArr [sample_null_message]);
                      (lit "createdAt", JNum 5); (lit "updatedAt", JNum 6)]]
               <> []) by discriminate.
  exact (proj1 (H (lit "saved") _ _ Hs eq_refl Hi eq_refl)).
Defined.

(** [??] takes [null] for missing: a persisted [liked: null] loads as
    [false]. *)
Example loadChats_null_field :
  exists loaded_message,
    loadChats (fun _ => Some sample_persisted) true (Stored (lit "saved"))
      (lit "n") 0 0
    = [JObj [(lit "id", JStr (lit "c1")); (lit "title", JStr (lit "t"));
             (K_messages, JArr [loaded_message]);
             (lit "createdAt", JNum 5); (lit "updatedAt", JNum 6);
             (K_isCustomTitle, JBool false)]]
    /\ get K_liked sample_null_message = Some (Some JNull)
    /\ get K_liked loaded_message = Some (Some (JBool false))
    /\ get K_liked loaded_message <> get K_liked sample_null_message.
Proof.
  eexists. split; [reflexivity|]. repeat split. discriminate.
Qed.

(** What the page itself persisted loads as it was persisted. *)
Lemma loadMessage_encodeMessage m :
  loadMessage (encodeMessage m) = Some (encodeMessage m).
Proof. destruct m as [i r c t l d s v]. destruct s; reflexivity. Qed.

Lemma loadChat_encodeChat c : loadChat (encodeChat c) = Some (encodeChat c).
Proof.
  destruct c as [i ti ms cr up cu].
  assert (H : mapM loadMessage (map encodeMessage ms) = Some (map encodeMessage ms)).
  { induction ms as [|m ms IH]; [reflexivity|].
    cbn [map mapM]. rewrite loadMessage_encodeMessage, IH. reflexivity. }
  unfold loadChat, encodeChat. cbn [Chat.id Chat.title Chat.messages
    Chat.createdAt Chat.updatedAt Chat.isCustomTitle].
  change (get K_messages (JObj ?p)) with (Some (assoc K_messages p)).
  change (get K_isCustomTitle (JObj ?p)) with (Some (assoc K_isCustomTitle p)).
  change (assoc K_messages
            [(lit "id", JStr i); (lit "title", JStr ti);
             (K_messages, JArr (map encodeMessage ms));
             (lit "createdAt", JNum cr); (lit "updatedAt", JNum up);
             (K_isCustomTitle, JBool cu)])
    with (Some (JArr (map encodeMessage ms))).
  cbn [mbind option_bind]. rewrite H. reflexivity.
Qed.

(* ===================================================================== *)
(** ** Armed timeouts and regenerate *)
(* ===================================================================== *)







(** The functions mapped over the collection, by cases. *)
Lemma submitted_cases cur u a now chat :
  (Chat.id chat <> Chat.id cur /\ submitted cur u a now chat = chat)
  \/ (Chat.id chat = Chat.id cur
      /\ Chat.id (submitted cur u a now chat) = Chat.id chat
      /\ Chat.messages (submitted cur u a now chat)
         = Chat.messages chat ++ [u; a]).
Proof.
  unfold submitted. destruct (str_eqb (Chat.id chat) (Chat.id cur)) eqn:E.
  - right. apply str_eqb_eq in E. split; [exact E|]. split; reflexivity.
  - left. apply str_eqb_neq in E. split; [exact E|reflexivity].
Qed.

Lemma regeneratedIn_cases cur mid chat :
  (Chat.id chat <> Chat.id cur /\ regeneratedIn cur mid chat = chat)
  \/ (Chat.id chat = Chat.id cur
      /\ Chat.id (regeneratedIn cur mid chat) = Chat.id chat
      /\ Chat.messages (regeneratedIn cur mid chat)
         = map (fun message =>
                  if str_eqb (Message.id message) mid
                  then regenerated message else message)
             (Chat.messages chat)).
Proof.
  unfold regeneratedIn. destruct (str_eqb (Chat.id chat) (Chat.id cur)) eqn:E.
  - right. apply str_eqb_eq in E. split; [exact E|]. split; reflexivity.
  - left. apply str_eqb_neq in E. split; [exact E|reflexivity].
Qed.

Lemma resolvedIn_cases cid mid now chat :
  (Chat.id chat <> cid /\ resolvedIn cid mid now chat = chat)
  \/ (Chat.id chat = cid
      /\ Chat.id (resolvedIn cid mid now chat) = Chat.id chat
      /\ Chat.messages (resolvedIn cid mid now chat)
         = map (fun message =>
                  if str_eqb (Message.id message) mid
                  then resolved message else message)
             (Chat.messages chat)).
Proof.
  unfold resolvedIn. destruct (str_eqb (Chat.id chat) cid) eqn:E.
  - right. apply str_eqb_eq in E. split; [exact E|]. split; reflexivity.
  - left. apply str_eqb_neq in E. split; [exact E|reflexivity].
Qed.

Lemma resolvedIn_id cid mid now chat :
  Chat.id (resolvedIn cid mid now chat) = Chat.id chat.
Proof. destruct (resolvedIn_cases cid mid now chat) as [[_ ->]|(_ & H & _)]; auto. Qed.

Lemma submitted_id cur u a now chat :
  Chat.id (submitted cur u a now chat) = Chat.id chat.
Proof. destruct (submitted_cases cur u a now chat) as [[_ ->]|(_ & H & _)]; auto. Qed.

Lemma renamed_id e ti chat : Chat.id (renamed e ti chat) = Chat.id chat.
Proof. unfold renamed. destruct (str_eqb _ _); reflexivity. Qed.

Lemma renamed_messages e ti chat :
  Chat.messages (renamed e ti chat) = Chat.messages chat.
Proof. unfold renamed. destruct (str_eqb _ _); reflexivity. Qed.

Lemma handleNewChat_proj id created updated st :
  chats (handleNewChat id created updated st)
  = createChat id created updated :: chats st
  /\ pending (handleNewChat id created updated st) = pending st
  /\ nextHandle (handleNewChat id created updated st) = nextHandle st.
Proof.
  unfold handleNewChat. simpl. destruct (isMobile st); repeat split.
Qed.


(* --------------------------------------------------------------------- *)
(** *** Lists without duplicates *)

Lemma NoDup_snoc {A} (l : list A) (x : A) :
  NoDup l -> ~ In x l -> NoDup (l ++ [x]).
Proof.
  induction 1 as [|y l Hy Hl IH]; intros Hx; simpl.
  - constructor; [intros H; inversion H|constructor].
  - constructor.
    + rewrite list_elem_of_In, in_app_iff. intros [H|[->|[]]].
      * apply Hy. now apply list_elem_of_In.
      * apply Hx. now left.
    + apply IH. intros H. apply Hx. now right.
Qed.

Lemma In_map_filter {A B} (f : A -> B) (p : A -> bool) (l : list A) (y : B) :
  In y (map f (List.filter p l)) -> In y (map f l).
Proof.
  rewrite !in_map_iff. intros (x & <- & Hx). apply filter_In in Hx as [Hx _].
  eauto.
Qed.

Lemma NoDup_map_filter {A B} (f : A -> B) (p : A -> bool) (l : list A) :
  NoDup (map f l) -> NoDup (map f (List.filter p l)).
Proof.
  induction l as [|x l IH]; simpl; [auto|]. intros H.
  inversion H as [|? ? Hx Hl]; subst.
  destruct (p x); simpl; [|auto].
  constructor; [|auto]. rewrite list_elem_of_In. intros Hin.
  apply Hx, list_elem_of_In. eapply In_map_filter, Hin.
Qed.

Lemma NoDup_map_inj {A B} (f : A -> B) (l : list A) (x y : A) :
  NoDup (map f l) -> In x l -> In y l -> f x = f y -> x = y.
Proof.
  induction l as [|z l IH]; simpl; [contradiction|]. intros H.
  inversion H as [|? ? Hz Hl]; subst. rewrite list_elem_of_In in Hz.
  intros [->|Hx] [->|Hy] E; auto.
  - exfalso. apply Hz. rewrite E. now apply in_map.
  - exfalso. apply Hz. rewrite <- E. now apply in_map.
Qed.

(* --------------------------------------------------------------------- *)
(** *** The events that arm or run a timeout *)



Lemma actionsOffered_inv mid st :
  actionsOffered mid st = true ->
  exists cur m,
    currentChat st = Some cur /\ In m (Chat.messages cur)
    /\ Message.id m = mid /\ Message.role m = Assistant
    /\ Message.status m = Done.
Proof.
  unfold actionsOffered. destruct (currentChat st) as [cur|]; [|discriminate].
  intros H. apply existsb_exists in H as (m & Hm & H).
  apply andb_true_iff in H as [H1 H2]. unfold offersActions in H2.
  apply andb_true_iff in H2 as [H2 H3].
  apply str_eqb_eq in H1. apply bool_decide_eq_true in H2, H3.
  exists cur, m. auto.
Qed.




Lemma fire_absent h now st :
  List.find (fun t' => Nat.eqb (handle t') h) (pending st) = None ->
  fire h now st = st.
Proof. intros H. unfold fire. now rewrite H. Qed.

Lemma fire_nextHandle h now st : nextHandle (fire h now st) = nextHandle st.
Proof. unfold fire. destruct (List.find _ _); reflexivity. Qed.








(* ===================================================================== *)
(** * Further properties *)
(* ===================================================================== *)

(** ** Tokens *)

Lemma split_ws_not_nil s : split_ws s <> [].
Proof.
  induction s as [|c s IH]; [discriminate|]. cbn [split_ws].
  destruct (is_space c).
  - destruct s as [|d s']; [discriminate|].
    destruct (is_space d); [exact IH|discriminate].
  - destruct (split_ws s); discriminate.
Qed.

(** Splitting loses white space only, and no token holds any. *)
Lemma split_ws_concat s :
  concat (split_ws s) = List.filter is_ink s.
Proof.
  induction s as [|c s IH]; [reflexivity|]. cbn [split_ws List.filter].
  unfold is_ink at 1. destruct (is_space c) eqn:Ec; cbn [negb].
  - destruct s as [|d s']; [reflexivity|].
    destruct (is_space d); [exact IH|]. cbn [concat app]. exact IH.
  - destruct (split_ws s) as [|t ts] eqn:E;
      [destruct (split_ws_not_nil s E)|].
    cbn [concat] in *. rewrite <- IH. reflexivity.
Qed.

Lemma split_ws_ink s :
  Forall (Forall (fun c => is_space c = false)) (split_ws s).
Proof.
  induction s as [|c s IH]; [repeat constructor|]. cbn [split_ws].
  destruct (is_space c) eqn:Ec.
  - destruct s as [|d s']; [repeat constructor|].
    destruct (is_space d); [exact IH|]. constructor; [constructor|exact IH].
  - destruct (split_ws s) as [|t ts]; [repeat constructor; exact Ec|].
    inversion IH; subst. constructor; [|assumption].
    constructor; assumption.
Qed.

Lemma concat_filter_nonempty (l : list jsstring) :
  concat (List.filter (fun t => negb (is_empty t)) l) = concat l.
Proof.
  induction l as [|t l IH]; [reflexivity|]. cbn [List.filter].
  destruct t as [|c t]; cbn [is_empty negb concat app]; [exact IH|].
  now rewrite IH.
Qed.

Lemma filter_ink_trimStart s :
  List.filter is_ink (trimStart s) = List.filter is_ink s.
Proof.
  induction s as [|c s IH]; [reflexivity|]. cbn [trimStart List.filter].
  unfold is_ink at 2. destruct (is_space c) eqn:E; cbn [negb]; [exact IH|].
  cbn [List.filter]. unfold is_ink at 1. now rewrite E.
Qed.

Lemma trimEnd_empty_filter s : trimEnd s = [] -> List.filter is_ink s = [].
Proof.
  induction s as [|c s IH]; [reflexivity|]. cbn [trimEnd List.filter].
  destruct (trimEnd s) eqn:E; [|discriminate].
  unfold is_ink at 1. destruct (is_space c); [|discriminate].
  intros _. cbn [negb]. now apply IH.
Qed.

Lemma filter_ink_trimEnd s :
  List.filter is_ink (trimEnd s) = List.filter is_ink s.
Proof.
  induction s as [|c s IH]; [reflexivity|]. cbn [trimEnd].
  destruct (trimEnd s) as [|d t] eqn:E.
  - cbn [List.filter]. rewrite (trimEnd_empty_filter s E).
    unfold is_ink. destruct (is_space c) eqn:Ec; cbn [negb]; [reflexivity|].
    cbn [List.filter]. now rewrite Ec.
  - cbn [List.filter]. now rewrite <- IH.
Qed.

Lemma filter_ink_trim s : List.filter is_ink (trim s) = List.filter is_ink s.
Proof. unfold trim. now rewrite filter_ink_trimEnd, filter_ink_trimStart. Qed.

Lemma splitTokens_words s : Forall is_word (splitTokens s).
Proof.
  unfold splitTokens. pose proof (split_ws_ink (trim s)) as H.
  induction H as [|t ts Ht _ IH]; [constructor|]. cbn [List.filter].
  destruct t as [|c t]; cbn [is_empty negb]; [exact IH|].
  constructor; [|exact IH]. split; [discriminate|exact Ht].
Qed.

(** X1. The tokens [splitTokens] returns are non-empty and free of white
    space, and together, in order, they are the content with every
    white-space unit removed: no other unit is lost, added or moved. *)
Theorem splitTokens_partition (content : jsstring) :
  Forall is_word (splitTokens content)
  /\ concat (splitTokens content) = List.filter is_ink content.
Proof.
  split; [apply splitTokens_words|].
  unfold splitTokens.
  now rewrite concat_filter_nonempty, split_ws_concat, filter_ink_trim.
Qed.

(* --------------------------------------------------------------------- *)
(** *** Joining words and splitting again *)

Lemma split_ws_word t :
  Forall (fun c => is_space c = false) t -> split_ws t = [t].
Proof.
  induction 1 as [|c t Hc _ IH]; [reflexivity|].
  cbn [split_ws]. now rewrite Hc, IH.
Qed.

Lemma split_ws_app_sep t sep u :
  Forall (fun c => is_space c = false) t -> is_space sep = true ->
  u <> [] -> starts_clean u = true ->
  split_ws (t ++ sep :: u) = t :: split_ws u.
Proof.
  intros Ht Hsep Hu Hs. induction Ht as [|c t Hc _ IH].
  - cbn [app split_ws]. rewrite Hsep. destruct u as [|d u']; [congruence|].
    cbn [starts_clean] in Hs. destruct (is_space d); [discriminate|reflexivity].
  - cbn [app split_ws]. now rewrite Hc, IH.
Qed.

Lemma join_cons2 sep w w' ws :
  join sep (w :: w' :: ws) = w ++ sep ++ join sep (w' :: ws).
Proof. reflexivity. Qed.

Lemma join_words_clean sep ws :
  is_space sep = true -> Forall is_word ws -> ws <> [] ->
  join [sep] ws <> []
  /\ starts_clean (join [sep] ws) = true
  /\ ends_clean (join [sep] ws) = true
  /\ split_ws (join [sep] ws) = ws.
Proof.
  intros Hsep Hws. induction Hws as [|w ws [Hne Hink] Hrest IH]; [congruence|].
  intros _. destruct ws as [|w' ws'].
  - cbn [join]. split; [exact Hne|].
    destruct w as [|c w0]; [congruence|]. inversion Hink as [|? ? Hc Hw0]; subst.
    split; [cbn; now rewrite Hc|]. split; [|now apply split_ws_word].
    clear -Hc Hw0. revert c Hc. induction Hw0 as [|d w1 Hd _ IH']; intros c Hc.
    + cbn. now rewrite Hc.
    + cbn [ends_clean]. now apply IH'.
  - destruct (IH ltac:(discriminate)) as (Hn & Hs & He & Hsp).
    rewrite join_cons2. cbn [app].
    destruct w as [|c w0]; [congruence|]. inversion Hink as [|? ? Hc Hw0]; subst.
    split; [discriminate|]. split; [cbn; now rewrite Hc|]. split.
    + clear -He Hn. generalize dependent (join [sep] (w' :: ws')). intros u Hu He.
      revert c. induction w0 as [|d w1 IH']; intros c.
      * cbn [app ends_clean]. destruct u as [|x u']; [congruence|exact He].
      * cbn [app ends_clean]. apply IH'.
    + change ((c :: w0) ++ sep :: join [sep] (w' :: ws'))
        with ((c :: w0) ++ sep :: join [sep] (w' :: ws')).
      rewrite (split_ws_app_sep (c :: w0) sep _ Hink Hsep Hn Hs), Hsp.
      reflexivity.
Qed.

Lemma filter_words_id ws :
  Forall is_word ws -> List.filter (fun t => negb (is_empty t)) ws = ws.
Proof.
  intros H. apply filter_nonempty_id.
  eapply Forall_impl; [exact H|]. intros t [Hne _]. now destruct t.
Qed.

(** X2. Joining the tokens of a text with one white-space unit between them
    (the space of a derived title, the no-break space of a rendered bubble)
    and tokenising again gives the same tokens: the join adds or loses no
    word. *)
Theorem splitTokens_join (sep : N) (content : jsstring) :
  is_space sep = true ->
  splitTokens (join [sep] (splitTokens content)) = splitTokens content.
Proof.
  intros Hsep. pose proof (splitTokens_words content) as Hw.
  destruct (splitTokens content) as [|w ws] eqn:E; [reflexivity|].
  destruct (join_words_clean sep (w :: ws) Hsep Hw ltac:(discriminate))
    as (Hn & Hs & He & Hsp).
  unfold splitTokens at 1. unfold trim.
  rewrite (trimStart_id _ Hs), (trimEnd_id _ He), Hsp.
  now apply filter_words_id.
Qed.

Lemma splitTokens_join_witness :
  is_space 160 = true
  /\ splitTokens (join [160] (splitTokens (lit "  ok   then "))) =
     splitTokens (lit "  ok   then ").
Proof.
  split; [reflexivity|]. apply (splitTokens_join 160 (lit "  ok   then ")).
  reflexivity.
Defined.

(* --------------------------------------------------------------------- *)
(** *** The shape of a derived title *)

Lemma ends_clean_app x u : u <> [] -> ends_clean (x ++ u) = ends_clean u.
Proof.
  intros Hu. induction x as [|c x IH]; [reflexivity|].
  cbn [app ends_clean]. destruct (x ++ u) eqn:E; [|exact IH].
  destruct x; [simpl in E; congruence|discriminate].
Qed.

Lemma starts_clean_app x u : x <> [] -> starts_clean (x ++ u) = starts_clean x.
Proof. destruct x; [congruence|reflexivity]. Qed.

Lemma words_of_trimmed text :
  trim text <> [] ->
  split_ws (trim text) <> [] /\ Forall is_word (split_ws (trim text)).
Proof.
  intros Hne. destruct (split_trim_no_empty text Hne) as [E Hnil].
  split; [exact Hnil|]. rewrite <- E. apply (splitTokens_words text).
Qed.

(** A derived title is not empty and is clean at both ends. *)
Lemma derived_title_clean (content : jsstring) :
  buildTitleFromMessage content <> []
  /\ starts_clean (buildTitleFromMessage content) = true
  /\ ends_clean (buildTitleFromMessage content) = true.
Proof.
  unfold buildTitleFromMessage.
  destruct (trim content) as [|c t] eqn:E; cbn [is_empty].
  - split; [discriminate|]. split; reflexivity.
  - assert (Hne : trim content <> []) by (rewrite E; discriminate).
    destruct (words_of_trimmed content Hne) as [Hnil Hw]. rewrite E in *.
    set (words := split_ws (c :: t)) in *.
    assert (H3 : Forall is_word (firstn 3 words)) by now apply Forall_take.
    assert (Hn3 : firstn 3 words <> []) by (destruct words; [congruence|discriminate]).
    destruct (join_words_clean 32 _ eq_refl H3 Hn3) as (Hj & Hs & He & _).
    change [32] with SPACE in *.
    destruct (3 <? length words)%nat.
    + split; [destruct (join SPACE (firstn 3 words)); [congruence|discriminate]|].
      split; [now rewrite starts_clean_app|now rewrite ends_clean_app].
    + split; [exact Hj|]. split; [exact Hs|exact He].
Qed.

Lemma clean_trim (s : jsstring) :
  starts_clean s = true -> ends_clean s = true -> trim s = s.
Proof.
  intros Hs He. unfold trim.
  rewrite trimStart_id by exact Hs. now rewrite trimEnd_id by exact He.
Qed.

(** X3. Whatever the text, the title [buildTitleFromMessage] derives is not
    empty and neither starts nor ends with white space: trimming it changes
    nothing.  (So the view's [chat.title || DEFAULT_CHAT_TITLE] never falls
    back on a derived title.) *)
Theorem buildTitleFromMessage_trimmed (content : jsstring) :
  buildTitleFromMessage content <> []
  /\ trim (buildTitleFromMessage content) = buildTitleFromMessage content.
Proof.
  destruct (derived_title_clean content) as (Hne & Hs & He).
  split; [exact Hne|now apply clean_trim].
Qed.

Lemma join_app_last sep (ws : list jsstring) (e : jsstring) :
  ws <> [] -> Forall is_word ws -> Forall (fun c => is_space c = false) e ->
  exists ws',
    length ws' = length ws /\ Forall is_word ws'
    /\ join sep ws ++ e = join sep ws'.
Proof.
  intros Hne Hw He. induction Hw as [|w ws [Hwn Hwi] Hrest IH]; [congruence|].
  destruct ws as [|w2 r].
  - exists [w ++ e]. split; [reflexivity|]. split; [|reflexivity].
    constructor; [|constructor]. split.
    + destruct w; [congruence|discriminate].
    + apply Forall_app. split; assumption.
  - destruct (IH ltac:(discriminate)) as (ws' & Hlen & Hw' & Hj).
    exists (w :: ws'). split; [simpl in *; lia|]. split.
    + constructor; [split; assumption|exact Hw'].
    + destruct ws' as [|x ws'']; [discriminate|].
      rewrite !join_cons2, <- Hj, <- !app_assoc. reflexivity.
Qed.

Lemma splitTokens_joined_words ws :
  Forall is_word ws -> ws <> [] -> splitTokens (join SPACE ws) = ws.
Proof.
  intros Hw Hne.
  destruct (join_words_clean 32 ws eq_refl Hw Hne) as (_ & Hs & He & Hsp).
  change [32] with SPACE in *. unfold splitTokens, trim.
  rewrite (trimStart_id _ Hs), (trimEnd_id _ He), Hsp.
  now apply filter_words_id.
Qed.

(** X4. A derived title has at least one word and at most three: read back
    with [splitTokens], it gives between one and three tokens, whatever the
    text was (the ellipsis is part of the third). *)
Theorem buildTitleFromMessage_word_count (content : jsstring) :
  (1 <= length (splitTokens (buildTitleFromMessage content)) <= 3)%nat.
Proof.
  unfold buildTitleFromMessage.
  destruct (trim content) as [|c t] eqn:E; cbn [is_empty].
  - vm_compute. lia.
  - assert (Hne : trim content <> []) by (rewrite E; discriminate).
    destruct (words_of_trimmed content Hne) as [Hnil Hw]. rewrite E in *.
    set (words := split_ws (c :: t)) in *.
    assert (H3 : Forall is_word (firstn 3 words)) by now apply Forall_take.
    assert (Hn3 : firstn 3 words <> [])
      by (destruct words; [congruence|discriminate]).
    assert (Hlen : (1 <= length (firstn 3 words) <= 3)%nat).
    { rewrite length_firstn. destruct words; [congruence|].
      cbn [length]. lia. }
    destruct (3 <? length words)%nat.
    + destruct (join_app_last SPACE _ ELLIPSIS Hn3 H3)
        as (ws' & Hl & Hw' & ->); [repeat constructor|].
      rewrite splitTokens_joined_words; [lia|exact Hw'|].
      destruct ws'; [simpl in Hl; lia|discriminate].
    + now rewrite splitTokens_joined_words.
Qed.

(* ===================================================================== *)
(** ** Sending, creating and selecting *)
(* ===================================================================== *)

Lemma find_app {A} (p : A -> bool) (l l' : list A) :
  List.find p (l ++ l')
  = match List.find p l with Some x => Some x | None => List.find p l' end.
Proof.
  induction l as [|x l IH]; [reflexivity|]. simpl.
  destruct (p x); [reflexivity|exact IH].
Qed.

Lemma buildTitleFromMessage_trim content :
  buildTitleFromMessage (trim content) = buildTitleFromMessage content.
Proof. unfold buildTitleFromMessage. now rewrite trim_idem. Qed.

(** X5. What a send does to the title.  A chat with a custom title keeps
    it.  Otherwise the title is derived from the first user message of the
    chat: the one it already had, if any, whatever the new text is, and
    else the text just sent.  [isCustomTitle] is as before. *)
Theorem handleSubmit_title uid tu aid ta now delay (st : Home) (cur : Chat.t)
    (i : nat) (chat : Chat.t) :
  currentChat st = Some cur -> trim (input st) <> [] ->
  chats st !! i = Some chat -> Chat.id chat = Chat.id cur ->
  exists chat',
    chats (handleSubmit uid tu aid ta now delay st) !! i = Some chat'
    /\ Chat.isCustomTitle chat' = Chat.isCustomTitle chat
    /\ Chat.title chat'
       = if Chat.isCustomTitle chat then Chat.title chat
         else
           match
             List.find (fun m => bool_decide (Message.role m = User))
               (Chat.messages chat)
           with
           | Some first => buildTitleFromMessage (Message.content first)
           | None => buildTitleFromMessage (input st)
           end.
Proof.
  intros Hcur Hne Hi Hid.
  rewrite (handleSubmit_chats _ _ _ _ _ _ _ _ Hcur Hne), lookup_map, Hi.
  eexists. split; [reflexivity|].
  unfold submitted. rewrite Hid, str_eqb_refl. cbn [negb].
  split; [reflexivity|]. cbn [Chat.title Chat.with_updatedAt Chat.with_messages
    Chat.with_title Chat.id Chat.messages Chat.createdAt Chat.updatedAt
    Chat.isCustomTitle].
  destruct (Chat.isCustomTitle chat); cbn [negb]; [reflexivity|].
  rewrite find_app.
  destruct (List.find _ (Chat.messages chat)); [reflexivity|].
  cbn [List.find Message.role]. 
  change (bool_decide (User = User)) with true. cbn [Message.content].
  apply buildTitleFromMessage_trim.
Qed.

Lemma handleSubmit_title_witness :
  exists chat',
    chats (handleSubmit (lit "u2") 20 (lit "a2") 21 22 2000 sample_home) !! 0%nat
    = Some chat'
    /\ Chat.isCustomTitle chat' = Chat.isCustomTitle sample_chat
    /\ Chat.title chat' = lit "hi".
Proof.
  assert (Hne : trim (input sample_home) <> []) by (vm_compute; discriminate).
  exact (handleSubmit_title (lit "u2") 20 (lit "a2") 21 22 2000 sample_home
           sample_chat 0 sample_chat eq_refl Hne eq_refl eq_refl).
Defined.

Lemma handleSubmit_input uid tu aid ta now delay st cur :
  currentChat st = Some cur -> trim (input st) <> [] ->
  input (handleSubmit uid tu aid ta now delay st) = [].
Proof.
  intros Hcur Hne. unfold handleSubmit. rewrite Hcur.
  destruct (trim (input st)) eqn:E; [congruence|]. reflexivity.
Qed.

(** X6. Submitting twice in a row sends once: an effective send empties
    the input, so a second [handleSubmit] right after any [handleSubmit]
    returns the state it was given, whatever ids, times and delay it
    reads. *)
Theorem handleSubmit_twice uid tu aid ta now delay uid' tu' aid' ta' now' delay'
    (st : Home) :
  handleSubmit uid' tu' aid' ta' now' delay'
    (handleSubmit uid tu aid ta now delay st)
  = handleSubmit uid tu aid ta now delay st.
Proof.
  destruct (currentChat st) as [cur|] eqn:Hcur.
  - destruct (trim (input st)) as [|c t] eqn:Ht.
    + rewrite (handleSubmit_noop uid tu aid ta now delay st (or_introl Ht)).
      apply handleSubmit_noop. now left.
    + apply handleSubmit_noop. left.
      rewrite (handleSubmit_input uid tu aid ta now delay st cur Hcur);
        [reflexivity|rewrite Ht; discriminate].
  - rewrite (handleSubmit_noop uid tu aid ta now delay st (or_intror Hcur)).
    apply handleSubmit_noop. now right.
Qed.

Lemma map_fixed {A} (f : A -> A) (l : list A) :
  (forall x, In x l -> f x = x) -> map f l = l.
Proof.
  intros H. induction l as [|x l IH]; [reflexivity|]. simpl.
  rewrite H by now left. rewrite IH; [reflexivity|].
  intros y Hy. apply H. now right.
Qed.

(** X7. A message sent right after "New chat" lands in the new chat only.
    When the id [createId()] gave the new chat is carried by no older chat
    and the typed text has a non-empty trim, [handleNewChat], typing and
    [handleSubmit] leave the new chat first, holding exactly the user
    message and the thinking assistant message under the title derived from
    the text, and leave every older chat as it was. *)
Theorem newChat_then_submit id created updated text uid tu aid ta now delay
    (st : Home) :
  (forall chat, In chat (chats st) -> Chat.id chat <> id) ->
  trim text <> [] ->
  chats
    (handleSubmit uid tu aid ta now delay
       (setInput text (handleNewChat id created updated st)))
  = Chat.mk id (buildTitleFromMessage text)
      [Message.mk uid User (trim text) tu false false Done 0;
       Message.mk aid Assistant [] ta false false Thinking 0]
      created now false
    :: chats st.
Proof.
  intros Hfresh Hne.
  set (st1 := setInput text (handleNewChat id created updated st)).
  destruct (handleNewChat_proj id created updated st) as (Hc & _ & _).
  assert (Hchats : chats st1 = createChat id created updated :: chats st)
    by exact Hc.
  assert (Hact : activeChatId st1 = Some id)
    by (unfold st1, handleNewChat; simpl; destruct (isMobile st); reflexivity).
  assert (Hin : input st1 = text) by reflexivity.
  assert (Hcur : currentChat st1 = Some (createChat id created updated))
    by (apply (currentChat_head _ _ _ Hchats), Hact).
  rewrite <- Hin in Hne.
  rewrite (handleSubmit_chats _ _ _ _ _ _ _ _ Hcur Hne), Hchats, Hin.
  cbn [map]. f_equal.
  - unfold submitted. rewrite str_eqb_refl. cbn [negb createChat
      Chat.isCustomTitle Chat.messages app List.find Message.role].
    change (bool_decide (User = User)) with true.
    cbn [Message.content]. rewrite buildTitleFromMessage_trim. reflexivity.
  - apply map_fixed. intros chat Hchat. unfold submitted.
    replace (str_eqb (Chat.id chat) (Chat.id (createChat id created updated)))
      with false; [reflexivity|].
    symmetry. apply str_eqb_neq. exact (Hfresh chat Hchat).
Qed.

Lemma newChat_then_submit_witness :
  chats
    (handleSubmit (lit "u2") 20 (lit "a2") 21 22 2000
       (setInput (lit " one two three four ")
          (handleNewChat (lit "c2") 18 19 sample_home)))
  = Chat.mk (lit "c2") (buildTitleFromMessage (lit " one two three four "))
      [Message.mk (lit "u2") User (trim (lit " one two three four ")) 20
         false false Done 0;
       Message.mk (lit "a2") Assistant [] 21 false false Thinking 0]
      18 22 false
    :: chats sample_home.
Proof.
  apply newChat_then_submit.
  - intros chat [<-|[]]. vm_compute. discriminate.
  - vm_compute. discriminate.
Defined.

(** X8. Selecting a chat changes neither the collection nor the typed
    draft nor the timers.  If some chat carries the selected id, the
    current chat afterwards carries it; if none does, the current chat is
    the first chat of the collection (none when the collection is empty). *)
Theorem handleSelectChat_current (chatId : jsstring) (st : Home) :
  let st' := handleSelectChat chatId st in
  chats st' = chats st /\ input st' = input st /\ pending st' = pending st
  /\ ((exists chat, In chat (chats st) /\ Chat.id chat = chatId) ->
      exists cur, currentChat st' = Some cur /\ Chat.id cur = chatId)
  /\ ((forall chat, In chat (chats st) -> Chat.id chat <> chatId) ->
      currentChat st' = head (chats st)).
Proof.
  intros st'.
  assert (Hc : chats st' = chats st)
    by (unfold st', handleSelectChat; simpl; destruct (isMobile st); reflexivity).
  assert (Ha : activeChatId st' = Some chatId)
    by (unfold st', handleSelectChat; simpl; destruct (isMobile st); reflexivity).
  split; [exact Hc|]. split.
  { unfold st', handleSelectChat. simpl. destruct (isMobile st); reflexivity. }
  split.
  { unfold st', handleSelectChat. simpl. destruct (isMobile st); reflexivity. }
  split.
  - intros (chat & Hin & Hid). rewrite <- Hc in Hin. rewrite <- Hid in Ha.
    destruct (currentChat_selected st' chat Hin Ha) as (cur & H1 & H2).
    exists cur. split; [exact H1|congruence].
  - intros Hnone. unfold currentChat. rewrite Ha, Hc.
    destruct (List.find _ (chats st)) as [c|] eqn:E; [|reflexivity].
    apply find_some in E as [Hin E]. apply str_eqb_eq in E.
    destruct (Hnone c Hin E).
Qed.

Lemma handleSelectChat_current_witness :
  (exists chat, In chat (chats sample_home) /\ Chat.id chat = lit "c1")
  /\ exists cur,
       currentChat (handleSelectChat (lit "c1") sample_home) = Some cur
       /\ Chat.id cur = lit "c1".
Proof.
  assert (H : exists chat, In chat (chats sample_home) /\ Chat.id chat = lit "c1").
  { exists sample_chat. split; [now left|reflexivity]. }
  split; [exact H|].
  exact (proj1 (proj2 (proj2 (proj2
           (handleSelectChat_current (lit "c1") sample_home)))) H).
Defined.

(* ===================================================================== *)
(** ** The rename field *)
(* ===================================================================== *)

Lemma commitRename_not_editing chatId st :
  editingChatId st = None -> commitRename chatId st = st.
Proof. intros H. unfold commitRename. now rewrite H. Qed.

Lemma commitRename_cases chatId st :
  commitRename chatId st = st
  \/ editingChatId (commitRename chatId st) = None.
Proof.
  unfold commitRename. destruct (editingChatId st) as [e|]; [|now left].
  destruct (is_empty e || negb (str_eqb e chatId)); [now left|now right].
Qed.

(** X9. The life of the rename field.  After [startRename] the row of the
    chat shows its rename field, on a phone and on a desktop with a
    collapsed sidebar alike.  A [commitRename] for another chat than the one
    being edited changes nothing.  After [cancelRename] a [commitRename]
    changes nothing (the blur that follows Escape does not rename), and a
    second [commitRename] changes nothing more than the first (the blur that
    follows Enter). *)
Theorem rename_field_lifecycle (chat : Chat.t) (chatId : jsstring) (st : Home) :
  renameFieldShown chat (startRename chat st) = true
  /\ (chatId <> Chat.id chat ->
      commitRename chatId (startRename chat st) = startRename chat st)
  /\ commitRename chatId (cancelRename st) = cancelRename st
  /\ commitRename chatId (commitRename chatId st) = commitRename chatId st.
Proof.
  split; [|split; [|split]].
  - unfold renameFieldShown, sidebarCollapsedProp, startRename.
    destruct (sidebarCollapsed st) eqn:Es, (isMobile st) eqn:Em;
      cbn; rewrite ?Es, ?Em, str_eqb_refl; reflexivity.
  - intros Hne. unfold commitRename.
    replace (editingChatId (startRename chat st)) with (Some (Chat.id chat))
      by (unfold startRename; destruct (_ && _); reflexivity).
    replace (str_eqb (Chat.id chat) chatId) with false
      by (symmetry; apply str_eqb_neq; congruence).
    now rewrite orb_true_r.
  - now apply commitRename_not_editing.
  - destruct (commitRename_cases chatId st) as [H|H].
    + now rewrite !H.
    + now apply commitRename_not_editing.
Qed.

Lemma rename_field_lifecycle_witness :
  lit "c9" <> Chat.id sample_chat
  /\ commitRename (lit "c9") (startRename sample_chat sample_home)
     = startRename sample_chat sample_home.
Proof.
  assert (H : lit "c9" <> Chat.id sample_chat) by (vm_compute; discriminate).
  split; [exact H|].
  exact (proj1 (proj2 (rename_field_lifecycle sample_chat (lit "c9") sample_home)) H).
Defined.

Lemma commit_untyped_is_rename c st :
  commitRename (Chat.id c) (startRename c st)
  = renameConversation c (Chat.title c) st.
Proof.
  unfold renameConversation, startRename.
  destruct (sidebarCollapsed st && negb (isMobile st)); reflexivity.
Qed.

(** X10. Opening the rename field of a chat whose title was derived from a
    message and leaving it without typing (Enter or blur) keeps the title
    text and the messages as they were, whatever the chat's id; it marks
    the title custom when the id is not the empty string, and when it is
    the commit changes nothing in the chat.  (The field starts from the
    title, and a derived title is its own trim and not empty; the guard of
    [commitRename] takes the empty id for no id.) *)
Theorem derived_title_survives_commit (st : Home) (c : Chat.t)
    (content : jsstring) (i : nat) :
  Chat.title c = buildTitleFromMessage content ->
  chats st !! i = Some c ->
  exists c',
    chats (commitRename (Chat.id c) (startRename c st)) !! i = Some c'
    /\ Chat.title c' = Chat.title c
    /\ Chat.messages c' = Chat.messages c
    /\ (Chat.id c <> [] -> Chat.isCustomTitle c' = true)
    /\ (Chat.id c = [] -> c' = c).
Proof.
  intros Htitle Hi.
  rewrite commit_untyped_is_rename, renameConversation_unfold.
  assert (Hchats : chats (startRename c st) = chats st)
    by (unfold startRename; destruct (_ && _); reflexivity).
  destruct (Chat.id c) as [|x xs] eqn:Hid; cbn [is_empty].
  - cbn [chats setRenameValue]. rewrite Hchats. exists c.
    split; [exact Hi|]. split; [reflexivity|]. split; [reflexivity|].
    split; [congruence|reflexivity].
  - cbn [chats setRenameValue setEditingChatId setChats].
    rewrite Hchats, lookup_map, Hi. eexists. split; [reflexivity|].
    unfold renamed. rewrite Hid, str_eqb_refl.
    cbn [Chat.title Chat.with_isCustomTitle Chat.with_title
         Chat.isCustomTitle Chat.messages Chat.id Chat.createdAt
         Chat.updatedAt].
    split; [|split; [reflexivity|split; [reflexivity|discriminate]]].
    destruct (derived_title_clean content) as (Hne & Hs & He).
    rewrite Htitle, (clean_trim _ Hs He). now rewrite (is_empty_false _ Hne).
Qed.

Lemma derived_title_survives_commit_witness :
  Chat.title sample_chat = buildTitleFromMessage (lit " hi ")
  /\ exists c',
       chats (commitRename (Chat.id sample_chat)
                (startRename sample_chat sample_home)) !! 0%nat = Some c'
       /\ Chat.title c' = Chat.title sample_chat
       /\ Chat.messages c' = Chat.messages sample_chat
       /\ (Chat.id sample_chat <> [] -> Chat.isCustomTitle c' = true)
       /\ (Chat.id sample_chat = [] -> c' = sample_chat).
Proof.
  split; [reflexivity|].
  exact (derived_title_survives_commit sample_home sample_chat (lit " hi ") 0
           eq_refl eq_refl).
Defined.

(* ===================================================================== *)
(** ** What every event keeps *)
(* ===================================================================== *)

Lemma setChats_map_id st : setChats (map (fun chat => chat)) st = st.
Proof. destruct st. unfold setChats. simpl. now rewrite map_id. Qed.

Lemma fire_chats h now st :
  chats (fire h now st)
  = map (chat_step (TimerFires h now) st) (chats st).
Proof.
  unfold fire, chat_step.
  destruct (List.find _ (pending st)); [reflexivity|].
  now rewrite map_id.
Qed.

(** The collection after an event. *)
Lemma run_chats ev st :
  chats (run ev st)
  = match ev with
    | NewChat id created updated => createChat id created updated :: chats st
    | _ => map (chat_step ev st) (chats st)
    end.
Proof.
  destruct ev; cbn [run]; unfold chat_step; rewrite ?map_id; try reflexivity.
  - unfold handleSubmit. destruct (currentChat st); [|now rewrite map_id].
    destruct (is_empty (trim (input st))); [now rewrite map_id|reflexivity].
  - apply handleNewChat_proj.
  - unfold handleSelectChat. simpl. destruct (isMobile st); reflexivity.
  - unfold startRename. destruct (_ && _); reflexivity.
  - unfold commitRename. destruct (editingChatId st); [|now rewrite map_id].
    destruct (_ || _); [now rewrite map_id|reflexivity].
  - unfold toggleReaction. destruct (currentChat st); [reflexivity|].
    now rewrite map_id.
  - unfold handleRegenerate. destruct (currentChat st); [reflexivity|].
    now rewrite map_id.
  - apply fire_chats.
Qed.

(** The active id after an event. *)
Lemma run_active ev st :
  activeChatId (run ev st)
  = match ev with
    | NewChat id _ _ => Some id
    | SelectChat chatId => Some chatId
    | _ => activeChatId st
    end.
Proof.
  destruct ev; cbn [run]; try reflexivity.
  - unfold handleSubmit. destruct (currentChat st); [|reflexivity].
    destruct (is_empty _); reflexivity.
  - unfold handleNewChat. simpl. destruct (isMobile st); reflexivity.
  - unfold handleSelectChat. simpl. destruct (isMobile st); reflexivity.
  - unfold startRename. destruct (_ && _); reflexivity.
  - unfold commitRename. destruct (editingChatId st); [|reflexivity].
    destruct (_ || _); reflexivity.
  - unfold toggleReaction. destruct (currentChat st); reflexivity.
  - unfold handleRegenerate. destruct (currentChat st); reflexivity.
  - unfold fire. destruct (List.find _ _); reflexivity.
Qed.

Lemma chat_step_id ev st chat : Chat.id (chat_step ev st chat) = Chat.id chat.
Proof.
  destruct ev; cbn [chat_step]; try reflexivity.
  - destruct (currentChat st); [|reflexivity].
    destruct (is_empty _); [reflexivity|apply submitted_id].
  - destruct (editingChatId st); [|reflexivity].
    destruct (_ || _); [reflexivity|apply renamed_id].
  - destruct (currentChat st); [apply toggled_id|reflexivity].
  - destruct (currentChat st); [apply regeneratedIn_id|reflexivity].
  - destruct (List.find _ _); [apply resolvedIn_id|reflexivity].
Qed.

(** The messages of a chat after an event: each old message rewritten in
    place by a function, then at most the two of a send. *)
Lemma chat_step_messages ev st chat :
  exists (g : Message.t -> Message.t) (added : list Message.t),
    Chat.messages (chat_step ev st chat) = map g (Chat.messages chat) ++ added
    /\ (forall m,
          g m = m \/ g m = resolved m \/ g m = regenerated m
          \/ exists type, Message.role m = Assistant /\ g m = react type m)
    /\ (added = []
        \/ exists uid tu aid ta text,
             added = [Message.mk uid User text tu false false Done 0;
                      createAssistantMessage aid ta]).
Proof.
  assert (Hsame : forall c : Chat.t,
             exists (g : Message.t -> Message.t) (added : list Message.t),
               Chat.messages c = map g (Chat.messages c) ++ added
               /\ (forall m,
                     g m = m \/ g m = resolved m \/ g m = regenerated m
                     \/ exists type, Message.role m = Assistant /\ g m = react type m)
               /\ (added = []
                   \/ exists uid tu aid ta text,
                        added = [Message.mk uid User text tu false false Done 0;
                                 createAssistantMessage aid ta])).
  { intros c. exists (fun m => m), []. rewrite map_id, app_nil_r. auto. }
  destruct ev as [text|uid tu aid ta now delay|id created updated|cid|c|value
                 |cid| |mid type|mid delay|h now];
    cbn [chat_step]; try apply Hsame.
  - destruct (currentChat st) as [cur|]; [|apply Hsame].
    destruct (is_empty _); [apply Hsame|].
    match goal with |- context [submitted cur ?u ?a now chat] =>
      destruct (submitted_cases cur u a now chat) as [[_ ->]|(_ & _ & ->)] end;
      [apply Hsame|].
    exists (fun m => m). eexists. rewrite map_id. split; [reflexivity|].
    split; [auto|]. right. eauto 10.
  - destruct (editingChatId st); [|apply Hsame].
    destruct (_ || _); [apply Hsame|]. rewrite renamed_messages. apply Hsame.
  - destruct (currentChat st) as [cur|]; [|apply Hsame].
    unfold toggled. destruct (negb _); [apply Hsame|].
    eexists. exists []. rewrite app_nil_r. split; [reflexivity|].
    split; [|now left]. intros m. cbn beta.
    destruct (negb (str_eqb (Message.id m) mid)); [now left|].
    destruct (bool_decide (Message.role m = Assistant)) eqn:E; [|now left].
    apply bool_decide_eq_true in E. right. right. right. eauto.
  - destruct (currentChat st) as [cur|]; [|apply Hsame].
    destruct (regeneratedIn_cases cur mid chat) as [[_ ->]|(_ & _ & ->)];
      [apply Hsame|].
    eexists. exists []. rewrite app_nil_r. split; [reflexivity|].
    split; [|now left]. intros m. cbn beta.
    destruct (str_eqb _ _); auto.
  - destruct (List.find _ _) as [t|]; [|apply Hsame].
    destruct (resolvedIn_cases (chatId t) (messageId t) now chat)
      as [[_ ->]|(_ & _ & ->)]; [apply Hsame|].
    eexists. exists []. rewrite app_nil_r. split; [reflexivity|].
    split; [|now left]. intros m. cbn beta.
    destruct (str_eqb _ _); auto.
Qed.

Lemma chat_step_createdAt ev st chat :
  Chat.createdAt (chat_step ev st chat) = Chat.createdAt chat.
Proof.
  destruct ev; cbn [chat_step]; try reflexivity.
  - destruct (currentChat st); [|reflexivity].
    destruct (is_empty _); [reflexivity|]. unfold submitted.
    destruct (negb _); reflexivity.
  - destruct (editingChatId st); [|reflexivity].
    destruct (_ || _); [reflexivity|]. unfold renamed.
    destruct (str_eqb _ _); reflexivity.
  - destruct (currentChat st); [|reflexivity]. unfold toggled.
    destruct (negb _); reflexivity.
  - destruct (currentChat st); [|reflexivity]. unfold regeneratedIn.
    destruct (negb _); reflexivity.
  - destruct (List.find _ _); [|reflexivity]. unfold resolvedIn.
    destruct (negb _); reflexivity.
Qed.

Lemma rewritten_kept (g : Message.t -> Message.t) m :
  g m = m \/ g m = resolved m \/ g m = regenerated m
  \/ (exists type, Message.role m = Assistant /\ g m = react type m) ->
  message_kept m (g m).
Proof.
  unfold message_kept.
  intros [->|[->|[->|(ty & _ & ->)]]].
  - repeat split; lia.
  - cbn [resolved Message.id Message.role Message.createdAt Message.version].
    repeat split; apply add_one_ge.
  - cbn [regenerated Message.id Message.role Message.createdAt
         Message.version].
    repeat split; apply add_one_ge.
  - destruct ty; cbn; repeat split; lia.
Qed.

Lemma chat_step_kept ev st chat : chat_kept chat (chat_step ev st chat).
Proof.
  destruct (chat_step_messages ev st chat) as (g & added & Hm & Hg & _).
  split; [apply chat_step_id|]. split; [apply chat_step_createdAt|].
  rewrite Hm. split.
  - rewrite length_app, length_map. lia.
  - intros j m Hj. exists (g m). split; [|apply rewritten_kept, Hg].
    rewrite lookup_app_l by (rewrite length_map; eapply lookup_lt_Some, Hj).
    now rewrite lookup_map, Hj.
Qed.

(** X11. No event removes or reorders anything.  After any event the
    collection holds the chats it held, in the same order, behind at most
    one new chat (the one "New chat" puts in front); each chat has kept its
    id and creation time and each of its messages is still at its place
    with the same id, role and creation time and a version that is not
    lower.  Messages are only appended. *)
Theorem events_keep_history (ev : Event) (st : Home) :
  exists k,
    (k = 0 \/ k = 1)%nat
    /\ length (chats (run ev st)) = (k + length (chats st))%nat
    /\ forall i c, chats st !! i = Some c ->
         exists c', chats (run ev st) !! (k + i)%nat = Some c' /\ chat_kept c c'.
Proof.
  rewrite run_chats.
  assert (Hmap : exists k,
            (k = 0 \/ k = 1)%nat
            /\ length (map (chat_step ev st) (chats st)) = (k + length (chats st))%nat
            /\ forall i c, chats st !! i = Some c ->
                 exists c', map (chat_step ev st) (chats st) !! (k + i)%nat = Some c'
                            /\ chat_kept c c').
  { exists 0%nat. split; [now left|]. split; [now rewrite length_map|].
    intros i c Hi. cbn [Nat.add]. rewrite lookup_map, Hi. eexists. split; [reflexivity|].
    apply chat_step_kept. }
  destruct ev; try exact Hmap.
  exists 1%nat. split; [now right|]. split; [reflexivity|].
  intros i c Hi. exists c. split; [exact Hi|].
  repeat split; try reflexivity. intros j m Hj. exists m.
  split; [exact Hj|]. repeat split; reflexivity || lia.
Qed.

(* ===================================================================== *)
(** ** Flags, status and content agree *)
(* ===================================================================== *)

Lemma rewritten_coherent (g : Message.t -> Message.t) m :
  g m = m \/ g m = resolved m \/ g m = regenerated m
  \/ (exists type, Message.role m = Assistant /\ g m = react type m) ->
  coherent m -> coherent (g m).
Proof.
  unfold coherent.
  intros [->|[->|[->|(ty & _ & ->)]]] (H1 & H2 & H3); simpl.
  - auto.
  - split; [exact H1|]. split; [discriminate|reflexivity].
  - split; [reflexivity|]. split; [reflexivity|discriminate].
  - split; [apply react_exclusive|].
    destruct ty; simpl; split; assumption.
Qed.

Lemma createChat_messages id created updated :
  Chat.messages (createChat id created updated) = [].
Proof. reflexivity. Qed.

(** X12. Every event keeps the messages coherent: no message is both liked
    and disliked, a thinking message has no content, and an assistant
    message that is done holds the fixed reply.  The two messages of a send
    and the empty new chat start coherent. *)
Theorem store_coherent_preserved (ev : Event) (st : Home) :
  store_coherent st -> store_coherent (run ev st).
Proof.
  intros Hst chat' m'. rewrite run_chats.
  assert (Hmap : In chat' (map (chat_step ev st) (chats st)) ->
                 In m' (Chat.messages chat') -> coherent m').
  { intros Hc Hm. apply in_map_iff in Hc as (chat & <- & Hc).
    destruct (chat_step_messages ev st chat) as (g & added & E & Hg & Hadd).
    rewrite E in Hm. apply in_app_or in Hm as [Hm|Hm].
    - apply in_map_iff in Hm as (m & <- & Hm).
      apply rewritten_coherent; [apply Hg|]. eapply Hst; eassumption.
    - destruct Hadd as [->|(uid & tu & aid & ta & text & ->)]; [destruct Hm|].
      destruct Hm as [<-|[<-|[]]]; unfold coherent; simpl;
        (split; [reflexivity|]); split; intros; try reflexivity;
        discriminate. }
  destruct ev; try exact Hmap.
  intros [<-|Hc] Hm.
  - rewrite createChat_messages in Hm. destruct Hm.
  - eapply Hst; eassumption.
Qed.

Lemma sample_home_coherent : store_coherent sample_home.
Proof.
  intros chat m [<-|[]] [<-|[<-|[]]]; unfold coherent; simpl;
    (split; [reflexivity|]); split; intros; try reflexivity; discriminate.
Qed.

Lemma store_coherent_preserved_witness :
  store_coherent sample_home
  /\ store_coherent (run (Regenerate (lit "a1") 2000) sample_home).
Proof.
  split; [exact sample_home_coherent|].
  apply (store_coherent_preserved (Regenerate (lit "a1") 2000) sample_home).
  exact sample_home_coherent.
Defined.

(* ===================================================================== *)
(** ** The active id *)
(* ===================================================================== *)

Lemma active_valid_current st :
  active_valid st ->
  exists cur,
    currentChat st = Some cur /\ In cur (chats st)
    /\ activeChatId st = Some (Chat.id cur).
Proof.
  intros (chat & Hin & Hact).
  destruct (currentChat_selected st chat Hin Hact) as (cur & Hcur & Hid).
  exists cur. split; [exact Hcur|]. split; [eapply currentChat_In, Hcur|].
  now rewrite Hact, Hid.
Qed.

(** X14. Once the active id names a chat of the collection it always does:
    every event the page offers keeps it so, and the current chat is then
    the chat found under the active id, never the first chat taken as a
    fallback. *)
Theorem active_chat_stays_valid (ev : Event) (st : Home) :
  offered ev st -> active_valid st ->
  active_valid (run ev st)
  /\ exists cur,
       currentChat (run ev st) = Some cur /\ In cur (chats (run ev st))
       /\ activeChatId (run ev st) = Some (Chat.id cur).
Proof.
  intros Hoff Hact.
  assert (H : active_valid (run ev st)); [|split; [exact H|]; now apply active_valid_current].
  unfold active_valid. rewrite run_chats, run_active.
  assert (Hmap : forall a, (exists chat, In chat (chats st) /\ a = Some (Chat.id chat)) ->
             exists chat, In chat (map (chat_step ev st) (chats st))
                          /\ a = Some (Chat.id chat)).
  { intros a (chat & Hin & Ha). exists (chat_step ev st chat).
    split; [now apply in_map|]. now rewrite chat_step_id. }
  destruct ev; try (apply Hmap; exact Hact).
  - eexists. split; [now left|reflexivity].
  - apply Hmap. destruct Hoff as (chat & Hin & <-). eauto.
Qed.

Lemma active_chat_stays_valid_witness :
  active_valid (run (ToggleReaction (lit "a1") Like) sample_home)
  /\ exists cur,
       currentChat (run (ToggleReaction (lit "a1") Like) sample_home) = Some cur
       /\ In cur (chats (run (ToggleReaction (lit "a1") Like) sample_home))
       /\ activeChatId (run (ToggleReaction (lit "a1") Like) sample_home)
          = Some (Chat.id cur).
Proof.
  apply (active_chat_stays_valid (ToggleReaction (lit "a1") Like) sample_home).
  - reflexivity.
  - exists sample_chat. split; [now left|reflexivity].
Defined.

(** X15. The first effect and "New chat" make the active id valid.  After
    the loaded collection (never empty) is put in place the current chat is
    its first chat, found under the active id; after "New chat" it is the
    new chat, whatever the state was. *)
Theorem hydrate_selects_first (storedChats : list Chat.t) (st : Home) :
  storedChats <> [] ->
  active_valid (hydrate storedChats st)
  /\ currentChat (hydrate storedChats st) = head storedChats
  /\ chats (hydrate storedChats st) = storedChats
  /\ pending (hydrate storedChats st) = pending st
  /\ forall id created updated,
       active_valid (handleNewChat id created updated (hydrate storedChats st))
       /\ currentChat (handleNewChat id created updated (hydrate storedChats st))
          = Some (createChat id created updated).
Proof.
  intros Hne. destruct storedChats as [|c l]; [congruence|].
  split; [|split; [|split; [reflexivity|split; [reflexivity|]]]].
  - exists c. split; [now left|reflexivity].
  - apply (currentChat_head _ c l); reflexivity.
  - intros id created updated.
    pose proof (run_chats (NewChat id created updated) (hydrate (c :: l) st)) as Hc.
    pose proof (run_active (NewChat id created updated) (hydrate (c :: l) st)) as Ha.
    cbn [run] in Hc, Ha. split.
    + exists (createChat id created updated). rewrite Hc, Ha.
      split; [now left|reflexivity].
    + eapply currentChat_head; [exact Hc|exact Ha].
Qed.

Lemma hydrate_selects_first_witness :
  active_valid (hydrate [sample_chat] (initialHome false))
  /\ currentChat (hydrate [sample_chat] (initialHome false)) = head [sample_chat]
  /\ chats (hydrate [sample_chat] (initialHome false)) = [sample_chat]
  /\ pending (hydrate [sample_chat] (initialHome false))
     = pending (initialHome false)
  /\ forall id created updated,
       active_valid
         (handleNewChat id created updated
            (hydrate [sample_chat] (initialHome false)))
       /\ currentChat
            (handleNewChat id created updated
               (hydrate [sample_chat] (initialHome false)))
          = Some (createChat id created updated).
Proof.
  apply (hydrate_selects_first [sample_chat] (initialHome false)).
  discriminate.
Defined.

(* ===================================================================== *)
(** ** Reactions: clicks that change nothing, clicks that undo *)
(* ===================================================================== *)

Lemma setChats_fixed (f : list Chat.t -> list Chat.t) st :
  setChats f st = st <-> f (chats st) = chats st.
Proof.
  split.
  - intros H. apply (f_equal chats) in H. exact H.
  - destruct st. unfold setChats. cbn. intros ->. reflexivity.
Qed.

Lemma map_fixed_iff {A} (f : A -> A) (l : list A) :
  map f l = l <-> forall x, In x l -> f x = x.
Proof.
  split; [|apply map_fixed].
  induction l as [|y l IH]; intros H x Hx; [destruct Hx|].
  cbn [map] in H. injection H as H1 H2.
  destruct Hx as [<-|Hx]; [exact H1|]. now apply IH.
Qed.

Lemma with_messages_fixed l chat :
  Chat.with_messages l chat = chat <-> l = Chat.messages chat.
Proof.
  destruct chat. unfold Chat.with_messages. cbn. split.
  - intros [= ->]. reflexivity.
  - intros ->. reflexivity.
Qed.

Lemma react_twice type m :
  react type (react type m) = m <-> other_flag type m = false.
Proof.
  destruct m as [i r c t l d s v]. destruct type, l, d; cbn; split;
    intros H; try reflexivity; try discriminate H; congruence.
Qed.

Lemma react_fixed type m : react type m <> m.
Proof.
  destruct m as [i r c t l d s v]. destruct type, l, d; cbn; congruence.
Qed.

Lemma toggled_unfold cur mid type chat :
  toggled cur mid type chat
  = if negb (str_eqb (Chat.id chat) (Chat.id cur)) then chat
    else Chat.with_messages (map (clicked mid type) (Chat.messages chat)) chat.
Proof. reflexivity. Qed.

Lemma clicked_target mid type m :
  Message.id m = mid -> Message.role m = Assistant ->
  clicked mid type m = react type m.
Proof.
  intros <- Hr. unfold clicked.
  rewrite str_eqb_refl, Hr. cbn [negb orb].
  now rewrite bool_decide_eq_true_2.
Qed.

Lemma clicked_other mid type m :
  ~ (Message.id m = mid /\ Message.role m = Assistant) ->
  clicked mid type m = m.
Proof.
  intros H. unfold clicked.
  destruct (str_eqb (Message.id m) mid) eqn:E; [|reflexivity].
  apply str_eqb_eq in E. cbn [negb orb].
  rewrite bool_decide_eq_false_2; [reflexivity|]. tauto.
Qed.

Lemma target_dec mid m :
  (Message.id m = mid /\ Message.role m = Assistant)
  \/ ~ (Message.id m = mid /\ Message.role m = Assistant).
Proof.
  destruct (str_eqb (Message.id m) mid) eqn:E.
  - apply str_eqb_eq in E. destruct (Message.role m) eqn:R.
    + right. intros [_ H]. discriminate H.
    + left. now split.
  - apply str_eqb_neq in E. right. tauto.
Qed.

Lemma toggled_fixed cur mid type chat :
  toggled cur mid type chat = chat
  <-> (Chat.id chat = Chat.id cur ->
       forall m, In m (Chat.messages chat) -> Message.id m = mid ->
                 Message.role m = User).
Proof.
  rewrite toggled_unfold.
  destruct (str_eqb (Chat.id chat) (Chat.id cur)) eqn:E; cbn [negb].
  - apply str_eqb_eq in E. rewrite with_messages_fixed, map_fixed_iff. split.
    + intros H _ m Hm Hid. destruct (Message.role m) eqn:R; [reflexivity|].
      exfalso. apply (react_fixed type m).
      rewrite <- (clicked_target mid type m Hid R). now apply H.
    + intros H m Hm. apply clicked_other. intros [Hid R].
      rewrite (H E m Hm Hid) in R. discriminate R.
  - apply str_eqb_neq in E. split; [intros _ H; contradiction|reflexivity].
Qed.

Lemma toggled_twice cur mid type chat :
  toggled cur mid type (toggled cur mid type chat) = chat
  <-> (Chat.id chat = Chat.id cur ->
       forall m, In m (Chat.messages chat) -> Message.id m = mid ->
                 Message.role m = Assistant -> other_flag type m = false).
Proof.
  rewrite (toggled_unfold cur mid type (toggled cur mid type chat)).
  rewrite toggled_id.
  destruct (str_eqb (Chat.id chat) (Chat.id cur)) eqn:E; cbn [negb].
  - apply str_eqb_eq in E. rewrite toggled_unfold.
    rewrite (proj2 (str_eqb_eq _ _) E). cbn [negb].
    destruct chat as [ci ti ms ca ua cu]. unfold Chat.with_messages.
    cbn [Chat.messages Chat.id Chat.title Chat.createdAt Chat.updatedAt
         Chat.isCustomTitle].
    rewrite map_map. split.
    + intros [= H] _ m Hm Hid R.
      pose proof (proj1 (map_fixed_iff _ _) H m Hm) as Hmm. cbn beta in Hmm.
      rewrite (clicked_target mid type m Hid R) in Hmm.
      rewrite clicked_target in Hmm by (now rewrite ?react_id, ?react_role).
      now apply react_twice.
    + intros H. f_equal. apply map_fixed. intros m Hm. cbn beta.
      destruct (target_dec mid m) as [[Hid R]|Hno].
      * rewrite (clicked_target mid type m Hid R).
        rewrite clicked_target by (now rewrite ?react_id, ?react_role).
        apply react_twice. now apply (H E).
      * now rewrite !(clicked_other mid type m Hno).
  - apply str_eqb_neq in E. rewrite toggled_unfold.
    rewrite (proj2 (str_eqb_neq _ _) E). cbn [negb].
    split; [intros _ H; contradiction|reflexivity].
Qed.

Lemma toggled_same_id cur cur' mid type chat :
  Chat.id cur' = Chat.id cur ->
  toggled cur' mid type chat = toggled cur mid type chat.
Proof. intros H. rewrite !toggled_unfold, H. reflexivity. Qed.

(** X16. A reaction click changes something only if it has a target.
    [toggleReaction] returns the very state it was given exactly when no
    chat carrying the current chat's id holds an assistant message with the
    given id: a click on a user message's id, or on an id nobody carries,
    is a no-op, and a click with a target never is. *)
Theorem toggleReaction_noop_iff (messageId : jsstring) (type : Reaction)
    (st : Home) :
  toggleReaction messageId type st = st
  <-> forall cur chat m,
        currentChat st = Some cur -> In chat (chats st) ->
        Chat.id chat = Chat.id cur -> In m (Chat.messages chat) ->
        Message.id m = messageId -> Message.role m = User.
Proof.
  unfold toggleReaction. destruct (currentChat st) as [cur|] eqn:Hcur.
  - rewrite setChats_fixed, map_fixed_iff. split.
    + intros H cur' chat m [= <-] Hc Hid Hm Hmid.
      exact (proj1 (toggled_fixed cur messageId type chat) (H chat Hc) Hid m Hm Hmid).
    + intros H chat Hc. apply toggled_fixed. intros Hid m Hm Hmid.
      exact (H cur chat m eq_refl Hc Hid Hm Hmid).
  - split; [discriminate|reflexivity].
Qed.

(** X17. Clicking the same reaction twice.  Two [toggleReaction] calls with
    the same id and kind give back the very state they started from exactly
    when no targeted message carried the opposite reaction: liking twice
    restores a message that was not disliked, and leaves a message that was
    disliked with neither flag. *)
Theorem toggleReaction_twice_iff (messageId : jsstring) (type : Reaction)
    (st : Home) :
  toggleReaction messageId type (toggleReaction messageId type st) = st
  <-> forall cur chat m,
        currentChat st = Some cur -> In chat (chats st) ->
        Chat.id chat = Chat.id cur -> In m (Chat.messages chat) ->
        Message.id m = messageId -> Message.role m = Assistant ->
        other_flag type m = false.
Proof.
  unfold toggleReaction at 2. destruct (currentChat st) as [cur|] eqn:Hcur.
  - unfold toggleReaction.
    rewrite currentChat_map by (intros; apply toggled_id). rewrite Hcur.
    cbn [option_map].
    assert (E : setChats (map (toggled (toggled cur messageId type cur) messageId type))
                  (setChats (map (toggled cur messageId type)) st)
                = setChats (map (fun chat => toggled cur messageId type
                                               (toggled cur messageId type chat))) st).
    { unfold setChats. cbn. rewrite map_map. f_equal.
      apply map_ext. intros chat. apply toggled_same_id, toggled_id. }
    rewrite E, setChats_fixed, map_fixed_iff. split.
    + intros H cur' chat m [= <-] Hc Hid Hm Hmid Hr.
      exact (proj1 (toggled_twice cur messageId type chat) (H chat Hc) Hid m Hm Hmid Hr).
    + intros H chat Hc. apply toggled_twice. intros Hid m Hm Hmid Hr.
      exact (H cur chat m eq_refl Hc Hid Hm Hmid Hr).
  - unfold toggleReaction. rewrite Hcur.
    split; [discriminate|reflexivity].
Qed.

(* ===================================================================== *)
(** ** Timeouts: running one, and the cleanup on unmount *)
(* ===================================================================== *)






(* --------------------------------------------------------------------- *)
(** *** What an event does to the timeouts and to the ids *)

Lemma run_timers ev st :
  match ev with
  | TimerFires _ _ => True
  | _ =>
      pending (run ev st) = pending st ++ option_list (armed ev st)
      /\ timersRef (run ev st)
         = match armed ev st with
           | Some t => recordTimer (messageId t) (handle t) (timersRef st)
           | None => timersRef st
           end
      /\ nextHandle (run ev st)
         = match armed ev st with
           | Some _ => S (nextHandle st)
           | None => nextHandle st
           end
  end.
Proof.
  destruct ev as [text|uid tu aid ta now delay|id created updated|cid|c|value
                 |cid| |mid type|mid delay|h now];
    cbn [run armed option_list]; rewrite ?app_nil_r;
    try (split; [|split]; reflexivity); try exact I.
  - unfold handleSubmit. destruct (currentChat st); cbn [option_list];
      rewrite ?app_nil_r; [|split; [|split]; reflexivity].
    destruct (is_empty (trim (input st))); cbn [option_list];
      rewrite ?app_nil_r; (split; [|split]; reflexivity).
  - unfold handleNewChat. cbn. destruct (isMobile st);
      (split; [|split]; reflexivity).
  - unfold handleSelectChat. cbn. destruct (isMobile st);
      (split; [|split]; reflexivity).
  - unfold startRename. destruct (_ && _); (split; [|split]; reflexivity).
  - unfold commitRename. destruct (editingChatId st);
      [|split; [|split]; reflexivity].
    destruct (_ || _); (split; [|split]; reflexivity).
  - unfold toggleReaction. destruct (currentChat st);
      (split; [|split]; reflexivity).
  - unfold handleRegenerate. destruct (currentChat st); cbn [option_list];
      rewrite ?app_nil_r; (split; [|split]; reflexivity).
Qed.

Lemma armed_handle ev st t : armed ev st = Some t -> handle t = nextHandle st.
Proof.
  destruct ev; cbn [armed]; try discriminate.
  - destruct (currentChat st); [|discriminate].
    destruct (is_empty _); [discriminate|]. now intros [= <-].
  - destruct (currentChat st); [|discriminate]. now intros [= <-].
Qed.

(** Every event keeps the handles distinct and below the next one. *)
Lemma step_handles_ok ev st : handles_ok st -> handles_ok (run ev st).
Proof.
  intros [Hlt Hnd]. pose proof (run_timers ev st) as Hr.
  pose proof (armed_handle ev st) as Hh.
  destruct ev as [text|uid tu aid ta now delay|id created updated|cid|c|value
                 |cid| |mid type|mid delay|h now].
  all: try (destruct Hr as (Hp & _ & Hn); unfold handles_ok;
            rewrite Hp, Hn; destruct (armed _ st) as [t0|];
            cbn [option_list]; rewrite ?app_nil_r; [|now split];
            specialize (Hh t0 eq_refl); split;
            [intros t Hin; apply in_app_iff in Hin as [Hin|[<-|[]]];
             [specialize (Hlt t Hin); lia|lia]
            |rewrite map_app; apply NoDup_snoc; [exact Hnd|];
             cbn [map]; intros Hin; apply in_map_iff in Hin as (t & E & Hin);
             specialize (Hlt t Hin); lia]).
  cbn [run]. unfold handles_ok. rewrite fire_nextHandle.
  destruct (List.find (fun t' => Nat.eqb (handle t') h) (pending st))
    as [t0|] eqn:Hf; [|rewrite fire_absent by exact Hf; now split].
  rewrite (proj2 (fire_found h now st t0 Hf)). split.
  - intros t Hin. apply filter_In in Hin as [Hin _]. now apply Hlt.
  - now apply NoDup_map_filter.
Qed.

Lemma chat_step_message_ids ev st chat :
  map Message.id (Chat.messages (chat_step ev st chat))
  = map Message.id (Chat.messages chat) ++ added_ids ev st chat.
Proof.
  assert (Hmap : forall (g : Message.t -> Message.t) (l : list Message.t),
             (forall m, Message.id (g m) = Message.id m) ->
             map Message.id (map g l) = map Message.id l).
  { intros g l Hg. rewrite map_map. apply map_ext. exact Hg. }
  destruct ev as [text|uid tu aid ta now delay|id created updated|cid|c|value
                 |cid| |mid type|mid delay|h now];
    cbn [chat_step added_ids]; rewrite ?app_nil_r; try reflexivity.
  - destruct (currentChat st) as [cur|]; [|now rewrite app_nil_r].
    destruct (is_empty _); [now rewrite app_nil_r|].
    match goal with |- context [submitted cur ?u ?a now chat] =>
      destruct (submitted_cases cur u a now chat) as [[E ->]|(E & _ & ->)] end.
    + apply str_eqb_neq in E. rewrite E. now rewrite app_nil_r.
    + rewrite (proj2 (str_eqb_eq _ _) E), map_app. reflexivity.
  - destruct (editingChatId st); [|reflexivity].
    destruct (_ || _); [reflexivity|]. now rewrite renamed_messages.
  - destruct (currentChat st) as [cur|]; [|reflexivity].
    rewrite toggled_unfold. destruct (negb _); [reflexivity|].
    cbn [Chat.with_messages Chat.messages]. apply Hmap. intros m.
    unfold clicked. destruct (_ || _); [reflexivity|apply react_id].
  - destruct (currentChat st) as [cur|]; [|reflexivity].
    destruct (regeneratedIn_cases cur mid chat) as [[_ ->]|(_ & _ & ->)];
      [reflexivity|].
    apply Hmap. intros m. destruct (str_eqb _ _); reflexivity.
  - destruct (List.find _ _) as [t|]; [|reflexivity].
    destruct (resolvedIn_cases (chatId t) (messageId t) now chat)
      as [[_ ->]|(_ & _ & ->)]; [reflexivity|].
    apply Hmap. intros m. destruct (str_eqb _ _); reflexivity.
Qed.

Lemma NoDup_app_In {A} (l k : list A) :
  NoDup (l ++ k) <-> NoDup l /\ NoDup k /\ forall x, In x l -> ~ In x k.
Proof.
  rewrite NoDup_app. setoid_rewrite list_elem_of_In. tauto.
Qed.

Lemma message_ids_flat st :
  message_ids st = map Message.id (flat_map Chat.messages (chats st)).
Proof.
  unfold message_ids. induction (chats st) as [|c l IH]; [reflexivity|].
  cbn [flat_map]. now rewrite map_app, IH.
Qed.

(** With distinct ids a message is known by its id. *)
Lemma unique_message st chat m chat' m' :
  NoDup (message_ids st) ->
  In chat (chats st) -> In m (Chat.messages chat) ->
  In chat' (chats st) -> In m' (Chat.messages chat') ->
  Message.id m = Message.id m' -> m = m'.
Proof.
  rewrite message_ids_flat. intros Hnd Hc Hm Hc' Hm' E.
  eapply NoDup_map_inj; [exact Hnd| | |exact E];
    apply in_flat_map; eauto.
Qed.

Lemma In_message_ids st chat m :
  In chat (chats st) -> In m (Chat.messages chat) ->
  In (Message.id m) (message_ids st).
Proof.
  intros Hc Hm. apply in_flat_map. exists chat. split; [exact Hc|].
  now apply in_map.
Qed.

Lemma flat_map_more_In (c uid aid : jsstring) l y :
  In y (flat_map (fun chat : Chat.t =>
                map Message.id (Chat.messages chat)
                ++ if str_eqb (Chat.id chat) c then [uid; aid] else []) l) ->
  In y (flat_map (fun chat : Chat.t => map Message.id (Chat.messages chat)) l) \/ y = uid \/ y = aid.
Proof.
  induction l as [|x l IH]; [intros []|]. cbn [flat_map].
  rewrite !in_app_iff.
  intros [[H|H]|H]; [auto| |destruct (IH H); auto].
  destruct (str_eqb _ _); [|destruct H].
  destruct H as [<-|[<-|[]]]; auto.
Qed.

Lemma flat_map_more_absent (c uid aid : jsstring) l :
  ~ In c (map Chat.id l) -> flat_map (fun chat : Chat.t =>
                map Message.id (Chat.messages chat)
                ++ if str_eqb (Chat.id chat) c then [uid; aid] else []) l = flat_map (fun chat : Chat.t => map Message.id (Chat.messages chat)) l.
Proof.
  induction l as [|x l IH]; [reflexivity|]. cbn [map flat_map In].
  intros H. rewrite IH by tauto. f_equal.
  rewrite (proj2 (str_eqb_neq (Chat.id x) c)) by tauto. apply app_nil_r.
Qed.

Lemma NoDup_flat_map_more (c uid aid : jsstring) l :
  NoDup (map Chat.id l) -> NoDup (flat_map (fun chat : Chat.t => map Message.id (Chat.messages chat)) l) ->
  uid <> aid -> ~ In uid (flat_map (fun chat : Chat.t => map Message.id (Chat.messages chat)) l) -> ~ In aid (flat_map (fun chat : Chat.t => map Message.id (Chat.messages chat)) l) ->
  NoDup (flat_map (fun chat : Chat.t =>
                map Message.id (Chat.messages chat)
                ++ if str_eqb (Chat.id chat) c then [uid; aid] else []) l).
Proof.
  induction l as [|x l IH]; [constructor|]. cbn [map flat_map].
  intros Hc Hm Hne Hu Ha.
  inversion Hc as [|? ? Hx Hl]; subst. rewrite list_elem_of_In in Hx.
  apply NoDup_app_In in Hm as (Hm1 & Hm2 & Hm3).
  rewrite in_app_iff in Hu, Ha.
  destruct (str_eqb (Chat.id x) c) eqn:E.
  - apply str_eqb_eq in E. subst c.
    rewrite (flat_map_more_absent _ uid aid l Hx).
    apply NoDup_app_In. split; [|split; [exact Hm2|]].
    + apply NoDup_app_In. split; [exact Hm1|]. split.
      * constructor; [rewrite list_elem_of_In; intros [H|[]]; congruence|].
        constructor; [rewrite list_elem_of_In; intros []|constructor].
      * intros y Hy [<-|[<-|[]]]; tauto.
    + intros y Hy. apply in_app_iff in Hy as [Hy|[<-|[<-|[]]]];
        [now apply Hm3|tauto|tauto].
  - rewrite app_nil_r. apply NoDup_app_In. split; [exact Hm1|]. split.
    + apply IH; auto.
    + intros y Hy Hy'. apply flat_map_more_In in Hy' as [Hy'|[->| ->]].
      * now apply (Hm3 y).
      * tauto.
      * tauto.
Qed.

Lemma message_ids_map (f : Chat.t -> Chat.t) (g : Chat.t -> list jsstring)
    (l : list Chat.t) :
  (forall chat, map Message.id (Chat.messages (f chat)) = g chat) ->
  flat_map (fun chat => map Message.id (Chat.messages chat)) (map f l)
  = flat_map g l.
Proof.
  intros H. induction l as [|x l IH]; [reflexivity|].
  cbn [map flat_map]. now rewrite H, IH.
Qed.

(** Offered events with new ids keep the ids distinct. *)
Lemma step_distinct ev st :
  distinct_ids st -> offered ev st -> ids_fresh ev st ->
  distinct_ids (run ev st).
Proof.
  intros [Hc Hm] Hoff Hfresh. unfold distinct_ids, message_ids.
  rewrite run_chats.
  assert (Hids : map Chat.id (map (chat_step ev st) (chats st))
                 = map Chat.id (chats st)).
  { rewrite map_map. apply map_ext. intros chat. apply chat_step_id. }
  assert (Hquiet : (forall chat, added_ids ev st chat = []) ->
            NoDup (map Chat.id (map (chat_step ev st) (chats st)))
            /\ NoDup (flat_map (fun chat => map Message.id (Chat.messages chat))
                        (map (chat_step ev st) (chats st)))).
  { intros Hno. rewrite Hids. split; [exact Hc|].
    rewrite (message_ids_map _ (fun chat => map Message.id (Chat.messages chat))).
    - exact Hm.
    - intros chat. now rewrite chat_step_message_ids, Hno, app_nil_r. }
  destruct ev as [text|uid tu aid ta now delay|id created updated|cid|c|value
                 |cid| |mid type|mid delay|h now];
    try (apply Hquiet; reflexivity).
  - destruct (currentChat st) as [cur|] eqn:Hcur;
      [|apply Hquiet; intros chat; cbn [added_ids]; now rewrite Hcur].
    destruct (is_empty (trim (input st))) eqn:Hin;
      [apply Hquiet; intros chat; cbn [added_ids]; now rewrite Hcur, Hin|].
    rewrite Hids. split; [exact Hc|].
    rewrite (message_ids_map _
               (fun chat => map Message.id (Chat.messages chat)
                            ++ if str_eqb (Chat.id chat) (Chat.id cur)
                               then [uid; aid] else [])).
    + destruct Hfresh as [Hne Hu].
      apply NoDup_flat_map_more; try assumption.
      intros Ha. apply in_flat_map in Ha as (chat & Hchat & Ha).
      apply in_map_iff in Ha as (m & E & Hmm).
      exact (Hoff chat m Hchat Hmm E).
    + intros chat. rewrite chat_step_message_ids. cbn [added_ids].
      now rewrite Hcur, Hin.
  - cbn [map flat_map]. rewrite createChat_messages. cbn [map app].
    split; [|exact Hm]. constructor; [|exact Hc].
    rewrite list_elem_of_In. exact Hfresh.
Qed.

(** A calm event keeps the record of the armed timeouts. *)
Lemma step_recorded ev st :
  NoDup (map handle (pending st)) -> calm ev st ->
  recorded st -> recorded (run ev st).
Proof.
  intros Hnd Hcalm Hrec. pose proof (run_timers ev st) as Hr.
  pose proof (armed_handle ev st) as Hh. unfold calm in Hcalm.
  destruct ev as [text|uid tu aid ta now delay|id created updated|cid|c|value
                 |cid| |mid type|mid delay|h now].
  all: try (destruct Hr as (Hp & Href & _); intros t; rewrite Hp, Href;
            destruct (armed _ st) as [t0|]; cbn [option_list];
            rewrite ?app_nil_r; [|apply Hrec];
            destruct Hcalm as [Hproto Hnew]; unfold recordTimer;
            rewrite (proj2 (str_eqb_neq _ _) Hproto);
            intros Hin; apply in_app_iff in Hin as [Hin|[<-|[]]];
            [rewrite lookup_insert_ne
               by (intros E; exact (Hnew t Hin (eq_sym E)));
             now apply Hrec
            |now rewrite lookup_insert_eq]).
  cbn [run].
  destruct (List.find (fun t' => Nat.eqb (handle t') h) (pending st))
    as [t0|] eqn:Hf; [|now rewrite fire_absent].
  intros t. rewrite (proj2 (fire_found h now st t0 Hf)).
  replace (timersRef (fire h now st)) with (delete (messageId t0) (timersRef st))
    by (unfold fire; now rewrite Hf).
  intros Hin. apply filter_In in Hin as [Hin Hne].
  apply find_some in Hf as [Hin0 Hh0]. apply Nat.eqb_eq in Hh0.
  rewrite lookup_delete_ne; [now apply Hrec|].
  intros E. pose proof (Hrec t Hin) as H1. pose proof (Hrec t0 Hin0) as H2.
  rewrite <- E, H2 in H1. injection H1 as H1.
  rewrite <- H1, Hh0, Nat.eqb_refl in Hne. discriminate Hne.
Qed.

(** What holds along a tidy run. *)
Lemma tidy_inv st : tidy st -> handles_ok st /\ recorded st.
Proof.
  induction 1 as [st Hp|st ev _ [Hok Hrec] Hcalm].
  - split; [split|]; rewrite ?Hp; cbn.
    + intros t [].
    + constructor.
    + intros t Hin. rewrite Hp in Hin. destruct Hin.
  - split; [now apply step_handles_ok|].
    apply step_recorded; [apply Hok|exact Hcalm|exact Hrec].
Qed.

Lemma clearTimeout_all hs : forall st,
  (forall t, In t (pending st) -> In (handle t) hs) ->
  pending (fold_left (fun s h => clearTimeout h s) hs st) = []
  /\ chats (fold_left (fun s h => clearTimeout h s) hs st) = chats st
  /\ timersRef (fold_left (fun s h => clearTimeout h s) hs st) = timersRef st.
Proof.
  induction hs as [|h hs IH]; intros st Hall; cbn [fold_left].
  - split; [|split; reflexivity].
    destruct (pending st) as [|t l]; [reflexivity|].
    destruct (Hall t (or_introl eq_refl)).
  - destruct (IH (clearTimeout h st)) as (H1 & H2 & H3).
    + intros t Hin. cbn in Hin. apply filter_In in Hin as [Hin Hne].
      destruct (Hall t Hin) as [E|Hin']; [|exact Hin'].
      rewrite E, Nat.eqb_refl in Hne. discriminate Hne.
    + split; [exact H1|]. split; [rewrite H2|rewrite H3]; reflexivity.
Qed.

Lemma one_per_message (l : list Timer) (ref : gmap jsstring nat) :
  (forall t, In t l -> ref !! messageId t = Some (handle t)) ->
  NoDup (map handle l) -> NoDup (map messageId l).
Proof.
  induction l as [|t l IH]; [constructor|]. cbn [map]. intros Hrec Hnd.
  inversion Hnd as [|? ? Ht Hl]; subst. constructor.
  - rewrite list_elem_of_In in Ht. rewrite list_elem_of_In. intros Hin.
    apply in_map_iff in Hin as (t' & E & Hin). apply Ht.
    apply in_map_iff. exists t'. split; [|exact Hin].
    pose proof (Hrec t' (or_intror Hin)) as H1.
    pose proof (Hrec t (or_introl eq_refl)) as H2.
    rewrite E, H2 in H1. now injection H1.
  - apply IH; [|exact Hl]. intros t' Hin. apply Hrec. now right.
Qed.

(** X20. What the cleanup on unmount needs.  Along a run in which no
    timeout is armed for a message id that already has one armed, nor for
    the id ["__proto__"], [timersRef] holds the handle of each armed timeout
    under its message id and no two armed timeouts are for the same message
    id; clearing the handles [timersRef] holds then leaves no reply timeout
    armed, and touches nothing else.  (The page does not see to that condition
    itself: [teardown_after_second_click].) *)
Theorem teardown_clears_recorded_timeouts (st : Home) :
  tidy st ->
  recorded st
  /\ NoDup (map messageId (pending st))
  /\ pending (teardown st) = []
  /\ chats (teardown st) = chats st
  /\ timersRef (teardown st) = timersRef st.
Proof.
  intros Hm. destruct (tidy_inv st Hm) as ([_ Hnd] & Hrec).
  split; [exact Hrec|]. split.
  - apply (one_per_message _ (timersRef st)); [exact Hrec|exact Hnd].
  - apply clearTimeout_all. intros t Hin.
    apply in_map_iff. exists (messageId t, handle t). split; [reflexivity|].
    apply list_elem_of_In, elem_of_map_to_list. now apply Hrec.
Qed.

Lemma teardown_clears_recorded_timeouts_witness :
  let st := run (Regenerate (lit "a1") 2000) sample_home in
  tidy st
  /\ length (pending st) = 1%nat
  /\ recorded st
  /\ NoDup (map messageId (pending st))
  /\ pending (teardown st) = []
  /\ chats (teardown st) = chats st
  /\ timersRef (teardown st) = timersRef st.
Proof.
  intros st.
  assert (Hm : tidy st).
  { apply tidy_step; [apply tidy_start; reflexivity|].
    split; [vm_compute; discriminate|]. intros t' []. }
  split; [exact Hm|]. split; [reflexivity|].
  exact (teardown_clears_recorded_timeouts st Hm).
Defined.

(** Two clicks on Regenerate for the same message before its reply came
    (the second on the element that is leaving): the second handle is
    recorded over the first, and the cleanup clears the second only. *)
Example teardown_after_second_click :
  let st1 := run (Regenerate (lit "a1") 2000) sample_home in
  let st2 := run (Regenerate (lit "a1") 2000) st1 in
  map handle (pending st2) = [1; 2]%nat
  /\ timersRef st2 !! lit "a1" = Some 2%nat
  /\ map handle (pending (teardown st2)) = [1]%nat.
Proof. vm_compute. repeat split; reflexivity. Qed.

(* ===================================================================== *)
(** ** What is persisted is what is loaded *)
(* ===================================================================== *)

Lemma encodeMessage_inj m m' : encodeMessage m = encodeMessage m' -> m = m'.
Proof.
  destruct m as [i r c t l d s v], m' as [i' r' c' t' l' d' s' v'].
  unfold encodeMessage. cbn [Message.id Message.role Message.content
    Message.createdAt Message.liked Message.disliked Message.status
    Message.version].
  intros H. injection H as Hi Hr Hc Ht Hl Hd Hs Hv. subst.
  assert (r = r') as -> by (destruct r, r'; solve [reflexivity | discriminate Hr]).
  assert (s = s') as -> by (destruct s, s'; solve [reflexivity | discriminate Hs]).
  reflexivity.
Qed.

Lemma map_inj {A B} (f : A -> B) (l l' : list A) :
  (forall x y, f x = f y -> x = y) -> map f l = map f l' -> l = l'.
Proof.
  intros Hf. revert l'. induction l as [|x l IH]; intros [|y l'] H;
    try reflexivity; try discriminate H.
  cbn [map] in H. injection H as H1 H2. f_equal; auto.
Qed.

Lemma encodeChat_inj c c' : encodeChat c = encodeChat c' -> c = c'.
Proof.
  destruct c as [i ti ms cr up cu], c' as [i' ti' ms' cr' up' cu'].
  unfold encodeChat. cbn [Chat.id Chat.title Chat.messages Chat.createdAt
    Chat.updatedAt Chat.isCustomTitle].
  intros H. injection H as Hi Ht Hm Hc Hu Hcu. subst.
  f_equal. eapply map_inj; [apply encodeMessage_inj|exact Hm].
Qed.

Lemma mapM_loadChat_encodeChat cs :
  mapM loadChat (map encodeChat cs) = Some (map encodeChat cs).
Proof.
  induction cs as [|c cs IH]; [reflexivity|].
  cbn [map mapM]. rewrite loadChat_encodeChat, IH. reflexivity.
Qed.

(** X21. What [persistChats] writes, [loadChats] reads back.  For a
    collection that is not empty (the page's never is once loaded), if the
    runtime's [JSON.parse] undoes its [JSON.stringify] on the written value,
    the chats [loadChats] returns are exactly the objects of the persisted
    chats, in order: no default is applied and no fallback taken, and these
    objects determine the chats (ids, titles, times, flags, and each
    message's id, role, content, flags, status and version). *)
Theorem persistChats_then_loadChats (JSON_parse : jsstring -> option json)
    (JSON_stringify : json -> jsstring) (cs : list Chat.t) (storage : stored)
    (id : jsstring) (created updated : Z) :
  cs <> [] ->
  JSON_stringify (JArr (map encodeChat cs)) <> [] ->
  JSON_parse (JSON_stringify (JArr (map encodeChat cs)))
  = Some (JArr (map encodeChat cs)) ->
  loadChats JSON_parse true (persistChats JSON_stringify true cs storage)
    id created updated
  = map encodeChat cs
  /\ forall cs', map encodeChat cs' = map encodeChat cs -> cs' = cs.
Proof.
  intros Hne Hs Hp. split.
  - unfold persistChats. cbn [negb].
    rewrite (loadChats_stored _ _ (map encodeChat cs)).
    + now rewrite mapM_loadChat_encodeChat.
    + now apply is_empty_false.
    + exact Hp.
    + destruct cs; [congruence|discriminate].
  - intros cs' H. eapply map_inj; [apply encodeChat_inj|exact H].
Qed.

Lemma persistChats_then_loadChats_witness :
  let JSON_parse := fun _ : jsstring => Some (JArr (map encodeChat [sample_chat])) in
  let JSON_stringify := fun _ : json => lit "[{}]" in
  loadChats JSON_parse true (persistChats JSON_stringify true [sample_chat] Absent)
    (lit "n") 0 0
  = map encodeChat [sample_chat]
  /\ forall cs', map encodeChat cs' = map encodeChat [sample_chat] ->
       cs' = [sample_chat].
Proof.
  intros JSON_parse JSON_stringify.
  apply (persistChats_then_loadChats JSON_parse JSON_stringify [sample_chat]
           Absent (lit "n") 0 0).
  - discriminate.
  - discriminate.
  - reflexivity.
Defined.

(** X22. The theme survives a reload.  After [toggleTheme] in a browser the
    storage names the theme now shown, so the effect that reads it on the
    next load sets that theme whatever the initial one; toggling twice gives
    the theme back; and the effect ignores a stored value that is neither
    "light" nor "dark", as it does everything without a window. *)
Theorem toggleTheme_then_loadTheme (theme initial : ThemeName)
    (storage : option jsstring) :
  loadTheme true (snd (toggleTheme true theme storage)) initial
  = fst (toggleTheme true theme storage)
  /\ fst (toggleTheme true theme storage) <> theme
  /\ fst (toggleTheme true (fst (toggleTheme true theme storage))
            (snd (toggleTheme true theme storage))) = theme
  /\ (forall saved,
        saved <> Some (lit "light") -> saved <> Some (lit "dark") ->
        loadTheme true saved initial = initial)
  /\ (forall saved, loadTheme false saved initial = initial)
  /\ toggleTheme false theme storage
     = (fst (toggleTheme true theme storage), storage).
Proof.
  split; [destruct theme; reflexivity|].
  split; [destruct theme; discriminate|].
  split; [destruct theme; reflexivity|].
  split; [|split; [reflexivity|destruct theme; reflexivity]].
  intros [s|] H1 H2; [|reflexivity]. unfold loadTheme. cbn [negb].
  destruct (str_eqb s (lit "light")) eqn:E1;
    [apply str_eqb_eq in E1; congruence|].
  destruct (str_eqb s (lit "dark")) eqn:E2;
    [apply str_eqb_eq in E2; congruence|reflexivity].
Qed.

(* ===================================================================== *)
(** ** The earlier variant: regenerate adds a message *)
(* ===================================================================== *)

Lemma v1_findIndex_first (p : V1.Message -> bool) before m after :
  Forall (fun x => p x = false) before -> p m = true ->
  V1.findIndex p (before ++ m :: after) = Some (length before).
Proof.
  intros Hb Hm. induction Hb as [|x l Hx _ IH]; cbn [app V1.findIndex length].
  - now rewrite Hm.
  - now rewrite Hx, IH.
Qed.

Lemma v1_findIndex_none (p : V1.Message -> bool) l :
  Forall (fun x => p x = false) l -> V1.findIndex p l = None.
Proof.
  induction 1 as [|x l Hx _ IH]; [reflexivity|].
  cbn [V1.findIndex]. now rewrite Hx, IH.
Qed.

(** X23. Regenerate in the earlier variant.  [handleRegenerate] there
    rewrites nothing: in the current chat it puts the new assistant message
    right after the first message carrying the id, every other message
    staying as it was and in order, and refreshes [updatedAt]; a chat that
    holds no message with the id is returned as it is. *)
Theorem v1_handleRegenerate_inserts (cur chat : V1.Chat) (messageId : jsstring)
    (duplicated : V1.Message) (now : Z) (before after : list V1.Message)
    (m : V1.Message) :
  V1.chatId chat = V1.chatId cur ->
  V1.messages chat = before ++ m :: after ->
  V1.id m = messageId ->
  Forall (fun x => V1.id x <> messageId) before ->
  V1.regeneratedIn cur messageId duplicated now chat
  = V1.mkChat (V1.chatId chat) (V1.title chat)
      (before ++ m :: duplicated :: after)
      (V1.chatCreatedAt chat) now (V1.isCustomTitle chat)
  /\ forall other,
       Forall (fun x => V1.id x <> messageId) (V1.messages other) ->
       V1.regeneratedIn cur messageId duplicated now other = other.
Proof.
  intros Hid Hm Hmid Hb. split.
  - unfold V1.regeneratedIn. rewrite Hid, str_eqb_refl. cbn [negb].
    rewrite Hm, (v1_findIndex_first _ before m after).
    + f_equal. unfold V1.splice.
      replace (length before + 1)%nat with (length (before ++ [m]))
        by (rewrite length_app; reflexivity).
      change (before ++ m :: after) with (before ++ [m] ++ after).
      rewrite app_assoc.
      rewrite firstn_app, firstn_all, Nat.sub_diag, firstn_O, app_nil_r.
      rewrite skipn_app, skipn_all, Nat.sub_diag, skipn_O.
      cbn [app]. now rewrite <- app_assoc.
    + eapply Forall_impl; [exact Hb|]. intros x Hx. now apply str_eqb_neq.
    + now apply str_eqb_eq.
  - intros other Hno. unfold V1.regeneratedIn.
    destruct (negb _); [reflexivity|].
    rewrite v1_findIndex_none; [reflexivity|].
    eapply Forall_impl; [exact Hno|]. intros x Hx. now apply str_eqb_neq.
Qed.

Lemma v1_handleRegenerate_inserts_witness :
  let u := V1.mkMessage (lit "u1") User (lit "hi") 10 None None in
  let a := V1.createAssistantMessage (lit "a1") 11 in
  let d := V1.createAssistantMessage (lit "a2") 20 in
  let chat := V1.mkChat (lit "c1") (lit "hi") [u; a] 5 12 (Some false) in
  V1.regeneratedIn chat (lit "a1") d 21 chat
  = V1.mkChat (lit "c1") (lit "hi") [u; a; d] 5 21 (Some false)
  /\ forall other,
       Forall (fun x => V1.id x <> lit "a1") (V1.messages other) ->
       V1.regeneratedIn chat (lit "a1") d 21 other = other.
Proof.
  intros u a d chat.
  apply (v1_handleRegenerate_inserts chat chat (lit "a1") d 21 [u] [] a).
  - reflexivity.
  - reflexivity.
  - reflexivity.
  - constructor; [|constructor]. intros H. vm_compute in H. discriminate H.
Defined.

(* ===================================================================== *)
(** ** Thinking messages and their timeouts *)
(* ===================================================================== *)

Lemma chat_step_exact ev st chat :
  Chat.messages (chat_step ev st chat)
  = map (message_step ev st chat) (Chat.messages chat)
    ++ added_messages ev st chat.
Proof.
  destruct ev as [text|uid tu aid ta now delay|id created updated|cid|c|value
                 |cid| |mid type|mid delay|h now];
    cbn [chat_step added_messages]; unfold message_step;
    rewrite ?app_nil_r, ?map_id; try reflexivity.
  - destruct (currentChat st) as [cur|]; [|now rewrite app_nil_r].
    destruct (is_empty _); [now rewrite app_nil_r|].
    match goal with |- context [submitted cur ?u ?a now chat] =>
      destruct (submitted_cases cur u a now chat) as [[E ->]|(E & _ & ->)] end.
    + apply str_eqb_neq in E. rewrite E. now rewrite app_nil_r.
    + now rewrite (proj2 (str_eqb_eq _ _) E).
  - destruct (editingChatId st); [|reflexivity].
    destruct (_ || _); [reflexivity|]. now rewrite renamed_messages.
  - destruct (currentChat st) as [cur|]; [|now rewrite map_id].
    rewrite toggled_unfold.
    destruct (str_eqb (Chat.id chat) (Chat.id cur)); cbn [negb];
      [reflexivity|now rewrite map_id].
  - destruct (currentChat st) as [cur|]; [|now rewrite map_id].
    destruct (regeneratedIn_cases cur mid chat) as [[E ->]|(E & _ & ->)].
    + apply str_eqb_neq in E. rewrite E. cbn [andb]. now rewrite map_id.
    + rewrite (proj2 (str_eqb_eq _ _) E). reflexivity.
  - destruct (List.find _ _) as [t|]; [|now rewrite map_id].
    destruct (resolvedIn_cases (chatId t) (messageId t) now chat)
      as [[E ->]|(E & _ & ->)].
    + apply str_eqb_neq in E. rewrite E. cbn [andb]. now rewrite map_id.
    + rewrite (proj2 (str_eqb_eq _ _) E). reflexivity.
Qed.

Lemma clicked_id mid type m : Message.id (clicked mid type m) = Message.id m.
Proof. unfold clicked. destruct (_ || _); [reflexivity|apply react_id]. Qed.

Lemma clicked_status mid type m :
  Message.status (clicked mid type m) = Message.status m.
Proof.
  unfold clicked. destruct (_ || _); [reflexivity|]. now destruct type.
Qed.

Lemma message_step_id ev st chat m :
  Message.id (message_step ev st chat m) = Message.id m.
Proof.
  destruct ev; cbn [message_step]; try reflexivity.
  - destruct (currentChat st); [|reflexivity].
    destruct (str_eqb _ _); [apply clicked_id|reflexivity].
  - destruct (currentChat st); [|reflexivity].
    destruct (_ && _); reflexivity.
  - destruct (List.find _ _); [|reflexivity].
    destruct (_ && _); reflexivity.
Qed.

Lemma key_eqb chat m t :
  str_eqb (Chat.id chat) (chatId t) && str_eqb (Message.id m) (messageId t) = true
  <-> key t = (Chat.id chat, Message.id m).
Proof.
  unfold key. rewrite andb_true_iff, !str_eqb_eq. split.
  - intros [-> ->]. reflexivity.
  - intros [= -> ->]. split; reflexivity.
Qed.

(** A thinking message after an event was thinking before and is not the
    one the running timeout resolves, or the event arms a timeout for it. *)
Lemma message_step_thinking ev st chat m :
  Message.status (message_step ev st chat m) = Thinking ->
  (Message.status m = Thinking
   /\ forall h now t,
        ev = TimerFires h now ->
        List.find (fun t' => Nat.eqb (handle t') h) (pending st) = Some t ->
        key t <> (Chat.id chat, Message.id m))
  \/ exists t, armed ev st = Some t /\ key t = (Chat.id chat, Message.id m).
Proof.
  destruct ev as [text|uid tu aid ta now delay|id created updated|cid|c|value
                 |cid| |mid type|mid delay|h now];
    cbn [message_step armed];
    try (intros H; left; split; [exact H|]; intros; discriminate).
  - destruct (currentChat st) as [cur|];
      [|intros H; left; split; [exact H|]; intros; discriminate].
    destruct (str_eqb _ _); rewrite ?clicked_status;
      intros H; left; (split; [exact H|]); intros; discriminate.
  - destruct (currentChat st) as [cur|];
      [|intros H; left; split; [exact H|]; intros; discriminate].
    destruct (str_eqb (Chat.id chat) (Chat.id cur)
              && str_eqb (Message.id m) mid) eqn:E.
    + intros _. right. eexists. split; [reflexivity|].
      apply andb_true_iff in E as [E1 E2].
      apply str_eqb_eq in E1, E2. unfold key. cbn. congruence.
    + intros H; left; split; [exact H|]; intros; discriminate.
  - destruct (List.find _ _) as [t|] eqn:Hf.
    + destruct (str_eqb (Chat.id chat) (chatId t)
                && str_eqb (Message.id m) (messageId t)) eqn:E.
      * cbn. discriminate.
      * intros H. left. split; [exact H|].
        intros h' now' t' [= <- <-] Hf' Hk. rewrite Hf in Hf'.
        injection Hf' as <-. apply key_eqb in Hk. congruence.
    + intros H. left. split; [exact H|]. intros h' now' t' [= <- <-] H'.
      rewrite Hf in H'. discriminate H'.
Qed.

(** A thinking message no armed timeout is for stays thinking. *)
Lemma message_step_stuck ev st chat m :
  Message.status m = Thinking ->
  (forall t, In t (pending st) -> key t <> (Chat.id chat, Message.id m)) ->
  Message.status (message_step ev st chat m) = Thinking.
Proof.
  intros Hs Hno.
  destruct ev as [text|uid tu aid ta now delay|id created updated|cid|c|value
                 |cid| |mid type|mid delay|h now];
    cbn [message_step]; try exact Hs.
  - destruct (currentChat st); [|exact Hs].
    destruct (str_eqb _ _); [now rewrite clicked_status|exact Hs].
  - destruct (currentChat st); [|exact Hs].
    destruct (_ && _); [reflexivity|exact Hs].
  - destruct (List.find _ _) as [t|] eqn:Hf; [|exact Hs].
    destruct (str_eqb (Chat.id chat) (chatId t)
              && str_eqb (Message.id m) (messageId t)) eqn:E; [|exact Hs].
    apply key_eqb in E. apply find_some in Hf as [Hin _].
    destruct (Hno t Hin E).
Qed.

Lemma armed_pending ev st t :
  armed ev st = Some t -> In t (pending (run ev st)).
Proof.
  intros H. pose proof (run_timers ev st) as Hr.
  destruct ev; try (cbn [armed] in H; discriminate H);
    destruct Hr as [-> _]; rewrite H; apply in_app_iff; right; now left.
Qed.

Lemma pending_kept ev st t :
  NoDup (map handle (pending st)) -> In t (pending st) ->
  (forall h now t0,
     ev = TimerFires h now ->
     List.find (fun t' => Nat.eqb (handle t') h) (pending st) = Some t0 ->
     key t0 <> key t) ->
  In t (pending (run ev st)).
Proof.
  intros Hok Hin Hfire. pose proof (run_timers ev st) as Hr.
  destruct ev as [text|uid tu aid ta now delay|id created updated|cid|c|value
                 |cid| |mid type|mid delay|h now];
    try (lazymatch type of Hr with
         | _ /\ _ => destruct Hr as [-> _]; apply in_app_iff; now left
         end).
  cbn [run].
  destruct (List.find (fun t' => Nat.eqb (handle t') h) (pending st))
    as [t0|] eqn:Hf; [|now rewrite fire_absent].
  rewrite (proj2 (fire_found h now st t0 Hf)). apply filter_In.
  split; [exact Hin|].
  destruct (Nat.eqb (handle t) h) eqn:E; [|reflexivity].
  exfalso. apply (Hfire h now t0 eq_refl Hf). f_equal.
  apply find_some in Hf as [Hin0 Hh0].
  apply Nat.eqb_eq in E, Hh0.
  eapply NoDup_map_inj; [exact Hok| | |]; eauto.
  congruence.
Qed.

Lemma pending_run_In ev st t :
  In t (pending (run ev st)) -> In t (pending st) \/ armed ev st = Some t.
Proof.
  pose proof (run_timers ev st) as Hr.
  destruct ev as [text|uid tu aid ta now delay|id created updated|cid|c|value
                 |cid| |mid type|mid delay|h now];
    try (lazymatch type of Hr with
         | _ /\ _ =>
             destruct Hr as [-> _]; intros H; apply in_app_iff in H as [H|H];
             [now left|right]; destruct (armed _ st); [|destruct H];
             destruct H as [->|[]]; reflexivity
         end).
  cbn [run]. unfold fire. destruct (List.find _ _); [|now left].
  cbn. intros H. apply filter_In in H as [H _]. now left.
Qed.

Lemma run_chats_In ev st chat' :
  In chat' (chats (run ev st)) ->
  Chat.messages chat' = []
  \/ exists chat, In chat (chats st) /\ chat' = chat_step ev st chat.
Proof.
  rewrite run_chats. intros H.
  assert (Hmap : In chat' (map (chat_step ev st) (chats st)) ->
                 exists chat, In chat (chats st) /\ chat' = chat_step ev st chat).
  { intros Hin. apply in_map_iff in Hin as (chat & <- & Hin). eauto. }
  destruct ev; try (right; apply Hmap; exact H).
  destruct H as [<-|H]; [now left|]. right. exists chat'. split; [exact H|].
  reflexivity.
Qed.

(** X24. No reply is left waiting.  If every thinking message has a timeout
    armed for it, and the armed handles are distinct and below the next one
    (as the browser gives them), then both are still so after any event,
    whether the current render offers it or not: an event that makes a
    message thinking arms a timeout for it, and the only timeout that
    leaves the table is the one that has just resolved its message. *)
Theorem thinking_is_served (ev : Event) (st : Home) :
  handles_ok st -> served st ->
  handles_ok (run ev st) /\ served (run ev st).
Proof.
  intros Hok Hserved. split; [now apply step_handles_ok|].
  intros chat' m' Hc' Hm' Hs'.
  apply run_chats_In in Hc' as [E|(chat & Hc & ->)];
    [rewrite E in Hm'; destruct Hm'|].
  rewrite chat_step_id. rewrite chat_step_exact in Hm'.
  apply in_app_or in Hm' as [Hm'|Hm'].
  - apply in_map_iff in Hm' as (m & <- & Hm).
    rewrite message_step_id.
    destruct (message_step_thinking ev st chat m Hs')
      as [[Hs Hfire]|(t & Harm & Hk)].
    + destruct (Hserved chat m Hc Hm Hs) as (t & Hin & Hk).
      exists t. split; [|exact Hk].
      apply pending_kept; [apply Hok|exact Hin|].
      intros h now t0 E Hf. rewrite Hk. now apply (Hfire h now t0).
    + exists t. split; [now apply armed_pending|exact Hk].
  - destruct ev as [text|uid tu aid ta now delay|id created updated|cid|c|value
                   |cid| |mid type|mid delay|h now];
      cbn [added_messages] in Hm'; try (destruct Hm').
    destruct (currentChat st) as [cur|] eqn:Hcur; [|destruct Hm'].
    destruct (is_empty (trim (input st))) eqn:Hin; [destruct Hm'|].
    destruct (str_eqb (Chat.id chat) (Chat.id cur)) eqn:E; [|destruct Hm'].
    apply str_eqb_eq in E.
    destruct Hm' as [<-|[<-|[]]]; [discriminate Hs'|].
    eexists. split.
    + apply armed_pending. cbn [armed]. rewrite Hcur, Hin. reflexivity.
    + unfold key. cbn. now rewrite E.
Qed.

Lemma sample_home_served : served sample_home.
Proof.
  intros chat m [<-|[]] [<-|[<-|[]]] H; discriminate H.
Qed.

Lemma sample_home_handles_ok : handles_ok sample_home.
Proof. split; [intros t []|constructor]. Qed.

Lemma thinking_is_served_witness :
  handles_ok (run (Regenerate (lit "a1") 2000) sample_home)
  /\ served (run (Regenerate (lit "a1") 2000) sample_home).
Proof.
  apply (thinking_is_served (Regenerate (lit "a1") 2000) sample_home).
  - exact sample_home_handles_ok.
  - exact sample_home_served.
Defined.

(** The timeout an offered event arms is for a message that is done, if it
    is for a message of the collection at all. *)
Lemma armed_targets_done ev st t chat m :
  NoDup (message_ids st) -> offered ev st -> armed ev st = Some t ->
  In chat (chats st) -> In m (Chat.messages chat) ->
  Message.id m = messageId t -> Message.status m = Done.
Proof.
  intros Hnd Hoff Harm Hc Hm E.
  destruct ev as [text|uid tu aid ta now delay|id created updated|cid|c|value
                 |cid| |mid type|mid delay|h now];
    cbn [armed] in Harm; try discriminate Harm.
  - destruct (currentChat st) as [cur|]; [|discriminate Harm].
    destruct (is_empty _); [discriminate Harm|]. injection Harm as <-.
    destruct (Hoff chat m Hc Hm E).
  - destruct (actionsOffered_inv mid st Hoff)
      as (cur & m0 & Hcur & Hm0 & E0 & Hr0 & Hs0).
    rewrite Hcur in Harm. injection Harm as <-. cbn [messageId] in E.
    assert (Hmm : m = m0).
    { apply (unique_message st chat m cur m0 Hnd Hc Hm
               (currentChat_In _ _ Hcur) Hm0). congruence. }
    now subst m0.
Qed.

Lemma lookup_In {A} (l : list A) (i : nat) (x : A) :
  l !! i = Some x -> In x l.
Proof.
  revert i. induction l as [|y l IH]; intros [|i] H; try discriminate H.
  - injection H as ->. now left.
  - right. exact (IH i H).
Qed.

Lemma run_chats_lookup ev st i chat :
  chats st !! i = Some chat ->
  exists k,
    (k = 0 \/ k = 1)%nat
    /\ chats (run ev st) !! (k + i)%nat = Some (chat_step ev st chat).
Proof.
  intros Hi. rewrite run_chats.
  assert (Hmap : exists k,
            (k = 0 \/ k = 1)%nat
            /\ map (chat_step ev st) (chats st) !! (k + i)%nat
               = Some (chat_step ev st chat)).
  { exists 0%nat. split; [now left|]. cbn [Nat.add].
    now rewrite lookup_map, Hi. }
  destruct ev; try exact Hmap.
  exists 1%nat. split; [now right|]. exact Hi.
Qed.

(** X25. A reply nobody resolves stays unresolved.  A thinking message
    without an armed timeout (a collection persisted while a reply was
    awaited and loaded again holds one) is still thinking and still without
    a timeout after any offered event, ids being distinct: the view shows
    its dots and none of its buttons, so neither a timeout nor regenerate
    will ever write it. *)
Theorem stuck_stays_stuck (ev : Event) (st : Home) (i j : nat) :
  distinct_ids st -> offered ev st -> ids_fresh ev st ->
  stuck st i j ->
  distinct_ids (run ev st)
  /\ exists k,
       (k = 0 \/ k = 1)%nat
       /\ stuck (run ev st) (k + i) j
       /\ forall chat m,
            chats (run ev st) !! (k + i)%nat = Some chat ->
            Chat.messages chat !! j = Some m ->
            bubble m = ThinkingDots /\ offersActions m = false.
Proof.
  intros Hd Hoff Hfresh (chat & m & Hi & Hj & Hs & Hno).
  split; [now apply step_distinct|].
  destruct (run_chats_lookup ev st i chat Hi) as (k & Hk & Hi').
  assert (Hj' : Chat.messages (chat_step ev st chat) !! j
                = Some (message_step ev st chat m)).
  { rewrite chat_step_exact.
    rewrite lookup_app_l
      by (rewrite length_map; eapply lookup_lt_Some, Hj).
    now rewrite lookup_map, Hj. }
  pose proof (message_step_stuck ev st chat m Hs Hno) as Hs'.
  exists k. split; [exact Hk|]. split.
  - exists (chat_step ev st chat), (message_step ev st chat m).
    split; [exact Hi'|]. split; [exact Hj'|]. split; [exact Hs'|].
    rewrite chat_step_id, message_step_id. intros t Hin Hkey.
    apply pending_run_In in Hin as [Hin|Harm]; [exact (Hno t Hin Hkey)|].
    assert (Hdone : Message.status m = Done).
    { apply (armed_targets_done ev st t chat m); try assumption.
      - apply Hd.
      - eapply lookup_In, Hi.
      - eapply lookup_In, Hj.
      - unfold key in Hkey. congruence. }
    congruence.
  - intros chat' m' Hc Hm. rewrite Hi' in Hc. injection Hc as <-.
    rewrite Hj' in Hm. injection Hm as <-.
    unfold bubble, offersActions. rewrite Hs'. split; [reflexivity|].
    apply andb_false_r.
Qed.

Lemma sample_stuck_home_distinct : distinct_ids sample_stuck_home.
Proof.
  split; vm_compute; repeat constructor; rewrite list_elem_of_In;
    intros H; repeat (destruct H as [H|H]; [discriminate H|]); destruct H.
Qed.

Lemma stuck_stays_stuck_witness :
  let ev := NewChat (lit "c2") 30 30 in
  stuck sample_stuck_home 0 1
  /\ distinct_ids (run ev sample_stuck_home)
  /\ exists k,
       (k = 0 \/ k = 1)%nat
       /\ stuck (run ev sample_stuck_home) (k + 0) 1
       /\ forall chat m,
            chats (run ev sample_stuck_home) !! (k + 0)%nat = Some chat ->
            Chat.messages chat !! 1%nat = Some m ->
            bubble m = ThinkingDots /\ offersActions m = false.
Proof.
  intros ev.
  assert (Hstuck : stuck sample_stuck_home 0 1).
  { eexists _, _. split; [reflexivity|]. split; [reflexivity|].
    split; [reflexivity|]. intros t []. }
  split; [exact Hstuck|].
  apply (stuck_stays_stuck ev sample_stuck_home 0 1).
  - exact sample_stuck_home_distinct.
  - exact I.
  - intros H. vm_compute in H. destruct H as [H|[]]. discriminate H.
  - exact Hstuck.
Defined.

(* --------------------------------------------------------------------- *)
(** *** Regenerate, then its timeout *)

Lemma find_fresh_handle (l : list Timer) (n : nat) (t : Timer) :
  (forall t', In t' l -> (handle t' < n)%nat) -> handle t = n ->
  List.find (fun t' => Nat.eqb (handle t') n) (l ++ [t]) = Some t
  /\ List.filter (fun t' => negb (Nat.eqb (handle t') n)) (l ++ [t]) = l.
Proof.
  intros Hlt Ht.
  assert (Hall : forall t', In t' l -> Nat.eqb (handle t') n = false).
  { intros t' Hin. apply Nat.eqb_neq. specialize (Hlt t' Hin). lia. }
  split.
  - rewrite find_app.
    destruct (List.find _ l) as [t'|] eqn:E.
    + apply find_some in E as [Hin E]. rewrite (Hall t' Hin) in E.
      discriminate E.
    + cbn [List.find]. now rewrite Ht, Nat.eqb_refl.
  - rewrite List.filter_app. cbn [List.filter].
    rewrite Ht, Nat.eqb_refl. cbn [negb]. rewrite app_nil_r.
    clear Hlt. induction l as [|x l IH]; [reflexivity|].
    cbn [List.filter]. rewrite (Hall x) by now left. cbn [negb].
    f_equal. apply IH. intros t' Hin. apply Hall. now right.
Qed.

Lemma resolvedIn_updatedAt cid mid now chat :
  Chat.id chat = cid -> Chat.updatedAt (resolvedIn cid mid now chat) = now.
Proof.
  intros <-. unfold resolvedIn. now rewrite str_eqb_refl.
Qed.

(** X26. Regenerate and the timeout it arms, together.  From a state whose
    armed handles are below the next one, regenerating a message of the
    current chat and then running the timeout just armed leaves the fixed
    reply at the message's place, status done, both reactions cleared and
    the version after two [+ 1], which is the old version plus two when
    that is an integer of magnitude below 2^53; the chat's [updatedAt] is
    the time of the resolution, and the armed timeouts are those armed
    before, with no entry left in [timersRef] for the message. *)
Theorem regenerate_then_resolve (st : Home) (cur chat : Chat.t) (i j : nat)
    (m : Message.t) (delay now : Z) :
  (forall t, In t (pending st) -> (handle t < nextHandle st)%nat) ->
  currentChat st = Some cur ->
  chats st !! i = Some chat -> Chat.id chat = Chat.id cur ->
  Chat.messages chat !! j = Some m ->
  let after :=
    fire (nextHandle st) now (handleRegenerate (Message.id m) delay st) in
  (exists chat',
     chats after !! i = Some chat'
     /\ Chat.updatedAt chat' = now
     /\ Chat.messages chat' !! j
        = Some (Message.mk (Message.id m) (Message.role m) ASSISTANT_REPLY
                  (Message.createdAt m) false false Done
                  (add_one (add_one (Message.version m)))))
  /\ ((- TWO_53 <= Message.version m < TWO_53 - 1)%Z ->
      add_one (add_one (Message.version m)) = (Message.version m + 2)%Z)
  /\ pending after = pending st
  /\ timersRef after = delete (Message.id m) (timersRef st).
Proof.
  intros Hlt Hcur Hi Hid Hj after.
  set (mid := Message.id m) in *.
  set (st1 := handleRegenerate mid delay st) in *.
  set (t := mkTimer (nextHandle st) (Chat.id cur) mid delay).
  pose proof (handleRegenerate_chats mid delay st cur Hcur) as Hc1.
  pose proof (handleRegenerate_pending mid delay st cur Hcur) as Hp1.
  fold st1 in Hc1, Hp1. fold t in Hp1.
  destruct (find_fresh_handle (pending st) (nextHandle st) t Hlt eq_refl)
    as [Hfind Hfilter].
  rewrite <- Hp1 in Hfind, Hfilter.
  destruct (fire_found (nextHandle st) now st1 t Hfind) as [Hc Hp].
  fold after in Hc, Hp.
  split; [|split; [|split]].
  - exists (resolvedIn (Chat.id cur) mid now (regeneratedIn cur mid chat)).
    rewrite Hc, Hc1, !lookup_map, Hi. split; [reflexivity|].
    split; [apply resolvedIn_updatedAt; now rewrite regeneratedIn_id|].
    destruct (resolvedIn_cases (Chat.id cur) mid now (regeneratedIn cur mid chat))
      as [[Hne _]|(_ & _ & ->)]; [now rewrite regeneratedIn_id in Hne|].
    destruct (regeneratedIn_cases cur mid chat) as [[Hne _]|(_ & _ & ->)];
      [congruence|].
    rewrite !lookup_map, Hj. cbn [option_map]. unfold mid.
    rewrite str_eqb_refl. cbn [regenerated Message.id].
    rewrite str_eqb_refl. reflexivity.
  - intros Hb. rewrite (add_one_safe (Message.version m)) by lia.
    rewrite add_one_safe by lia. lia.
  - now rewrite Hp, Hfilter.
  - unfold after, fire. rewrite Hfind. unfold st1, handleRegenerate.
    rewrite Hcur. cbn. apply map_eq. intros k. unfold recordTimer.
    destruct (str_eqb mid PROTO); [reflexivity|].
    destruct (decide (k = mid)) as [->|Hne].
    + now rewrite !lookup_delete_eq.
    + now rewrite !lookup_delete_ne, lookup_insert_ne by congruence.
Qed.

Lemma regenerate_then_resolve_witness :
  let after :=
    fire (nextHandle sample_home) 50
      (handleRegenerate (Message.id sample_reply) 2000 sample_home) in
  (exists chat',
     chats after !! 0%nat = Some chat'
     /\ Chat.updatedAt chat' = 50%Z
     /\ Chat.messages chat' !! 1%nat
        = Some (Message.mk (Message.id sample_reply)
                  (Message.role sample_reply) ASSISTANT_REPLY
                  (Message.createdAt sample_reply) false false Done 3))
  /\ pending after = pending sample_home
  /\ timersRef after = delete (Message.id sample_reply) (timersRef sample_home).
Proof.
  pose proof (regenerate_then_resolve sample_home sample_chat sample_chat 0 1
                sample_reply 2000 50) as H.
  destruct H as (H1 & _ & H3 & H4); try reflexivity.
  - intros t [].
  - split; [exact H1|]. split; [exact H3|exact H4].
Defined.
